(** * Event / Booking models: slug, date and time normalisation, pre-save hooks

    A shallow embedding of [database/event.model.ts] and
    [database/booking.model.ts], with the connection cache of
    [lib/mongodb.ts] and the route [app/api/events/[slug]/route.ts] that
    use them.

    - A JavaScript string is the list of its UTF-16 code units ([list N]).
    - The regular-expression literals of the source are values of [regex]
      run by a backtracking matcher ([rmatch]) that follows the ECMAScript
      pattern semantics (leftmost match, greedy quantifiers, alternatives
      tried left to right).
    - The Mongoose documents are records with their set of modified paths,
      the collections are finite maps from [_id] to document. *)

From stdpp Require Import gmap list strings.
From Stdlib Require Import NArith ZArith Lia DecimalString Ascii.

Local Open Scope N_scope.

(** ** Strings as lists of UTF-16 code units *)

Abbreviation jsstring := (list N).

(** A literal of the source, written as a Rocq string (one byte per code
    unit; every literal of the two models is ASCII). *)
Definition str (s : string) : jsstring :=
  map Ascii.N_of_ascii (String.list_ascii_of_string s).

Definition in_range (lo hi c : N) : bool := (lo <=? c) && (c <=? hi).

Definition is_digit (c : N) : bool := in_range 48 57 c.
Definition is_upper (c : N) : bool := in_range 65 90 c.
Definition is_lower (c : N) : bool := in_range 97 122 c.
Definition is_ascii (c : N) : bool := c <? 128.

Definition HYPHEN : N := 45.
Definition is_hyphen (c : N) : bool := c =? HYPHEN.

(** [\w] without the [u] and [i] flags: [[A-Za-z0-9_]]. *)
Definition is_word (c : N) : bool :=
  is_upper c || is_lower c || is_digit c || (c =? 95).

(** [\s], and what [String.prototype.trim] strips: the WhiteSpace and
    LineTerminator code points of ECMAScript. *)
Definition is_space (c : N) : bool :=
  in_range 9 13 c || (c =? 32) || (c =? 160) || (c =? 5760)
  || in_range 8192 8202 c || (c =? 8232) || (c =? 8233) || (c =? 8239)
  || (c =? 8287) || (c =? 12288) || (c =? 65279).

(** *** trim *)

(** The string without its longest prefix of units of a class. *)
Fixpoint skip_while (p : N -> bool) (s : jsstring) : jsstring :=
  match s with
  | c :: tl => if p c then skip_while p tl else s
  | [] => []
  end.

Definition trimStart (s : jsstring) : jsstring := skip_while is_space s.

Definition trimEnd (s : jsstring) : jsstring := rev (trimStart (rev s)).

Definition trim (s : jsstring) : jsstring := trimEnd (trimStart s).

(** *** Case conversion

    On a string of ASCII code units [toLowerCase] and [toUpperCase] map the
    Latin letters and keep the rest.  For any other string the result comes
    from the Unicode case tables of the platform (context sensitive, and
    able to change the length), which are taken as parameters. *)

Definition lower_ascii (c : N) : N := if is_upper c then c + 32 else c.
Definition upper_ascii (c : N) : N := if is_lower c then c - 32 else c.

Definition toLowerCase (unicodeLower : jsstring -> jsstring) (s : jsstring)
    : jsstring :=
  if forallb is_ascii s then map lower_ascii s else unicodeLower s.

Definition toUpperCase (unicodeUpper : jsstring -> jsstring) (s : jsstring)
    : jsstring :=
  if forallb is_ascii s then map upper_ascii s else unicodeUpper s.

(** Case tables that know the ASCII letters only. *)
Definition asciiLower (s : jsstring) : jsstring := map lower_ascii s.
Definition asciiUpper (s : jsstring) : jsstring := map upper_ascii s.

(** ** Regular expressions *)

Inductive regex : Type :=
| Empty                         (* the empty pattern *)
| Cls (p : N -> bool)           (* one code unit of a class *)
| Seq (r1 r2 : regex)           (* r1 r2 *)
| Alt (r1 r2 : regex)           (* r1|r2 *)
| Star (r : regex)              (* r*, greedy *)
| Bol                           (* ^ (no m flag) *)
| Eol                           (* $ (no m flag) *)
| Grp (n : nat) (r : regex).    (* capture group number n *)

Definition Chr (c : N) : regex := Cls (fun x => x =? c).
(** A pattern character under the [i] flag: Canonicalize maps a code unit
    below 128 to its ASCII capital and never maps a code unit from 128 on
    to one below 128. *)
Definition ChrI (c : N) : regex :=
  Cls (fun x => upper_ascii x =? upper_ascii c).
Definition Plus (r : regex) : regex := Seq r (Star r).
Definition Opt (r : regex) : regex := Alt r Empty.

(** The matcher state: index of the next code unit, the code units from
    there on, and the captures made so far (latest first). *)
Record mstate : Type := MState {
  pos : nat;
  rest : jsstring;
  caps : list (nat * jsstring)
}.

Definition advance (st : mstate) (tl : jsstring) : mstate :=
  MState (S (pos st)) tl (caps st).

Definition capture (n : nat) (st0 st1 : mstate) : mstate :=
  MState (pos st1) (rest st1)
         ((n, take (pos st1 - pos st0) (rest st0)) :: caps st1).

Abbreviation cont := (mstate -> option mstate).

(** RepeatMatcher with min = 0: one more iteration first (it has to consume
    input), the continuation otherwise. *)
Fixpoint star_loop (m : mstate -> cont -> option mstate) (fuel : nat)
    (st : mstate) (k : cont) : option mstate :=
  match fuel with
  | O => k st
  | S fuel' =>
      match m st (fun st1 =>
                    if (length (rest st1) <? length (rest st))%nat
                    then star_loop m fuel' st1 k else None) with
      | Some x => Some x
      | None => k st
      end
  end.

Fixpoint rmatch (r : regex) (st : mstate) (k : cont) : option mstate :=
  match r with
  | Empty => k st
  | Cls p =>
      match rest st with
      | c :: tl => if p c then k (advance st tl) else None
      | [] => None
      end
  | Seq r1 r2 => rmatch r1 st (fun st1 => rmatch r2 st1 k)
  | Alt r1 r2 =>
      match rmatch r1 st k with
      | Some x => Some x
      | None => rmatch r2 st k
      end
  | Star r1 => star_loop (rmatch r1) (length (rest st)) st k
  | Bol => if (pos st =? 0)%nat then k st else None
  | Eol => match rest st with [] => k st | _ :: _ => None end
  | Grp n r1 => rmatch r1 st (fun st1 => k (capture n st st1))
  end.

(** A match attempt at index [idx]. *)
Definition match_at (r : regex) (idx : nat) (s : jsstring) : option mstate :=
  rmatch r (MState idx s []) Some.

(** RegExpBuiltinExec without the g and y flags: the leftmost index at which
    the pattern matches, with the final state. *)
Fixpoint exec_from (r : regex) (idx : nat) (s : jsstring)
    : option (nat * mstate) :=
  match match_at r idx s with
  | Some st => Some (idx, st)
  | None =>
      match s with
      | [] => None
      | _ :: tl => exec_from r (S idx) tl
      end
  end.

(** [regex.test(s)] *)
Definition test (r : regex) (s : jsstring) : bool :=
  match exec_from r 0 s with Some _ => true | None => false end.

(** [s.match(regex)] for a regex without the g flag: the captures of the
    leftmost match; [group] reads [match[n]]. *)
Definition smatch (r : regex) (s : jsstring) : option (list (nat * jsstring)) :=
  match exec_from r 0 s with
  | Some (_, st) => Some (caps st)
  | None => None
  end.

Fixpoint group (n : nat) (cs : list (nat * jsstring)) : option jsstring :=
  match cs with
  | [] => None
  | (m, v) :: tl => if (m =? n)%nat then Some v else group n tl
  end.

(** [s.replace(regex, rep)] for a regex with the g flag and a replacement
    without [$]: the matches are collected left to right, each search starting
    where the last match ended (one further after an empty match). *)
Fixpoint replace_loop (fuel : nat) (r : regex) (rep : jsstring)
    (idx : nat) (s : jsstring) : jsstring :=
  match fuel with
  | O => s
  | S fuel' =>
      match exec_from r idx s with
      | None => s
      | Some (start, st) =>
          take (start - idx) s ++ rep ++
          (if (pos st =? start)%nat
           then match drop (start - idx) s with
                | [] => []
                | c :: tl => c :: replace_loop fuel' r rep (S start) tl
                end
           else replace_loop fuel' r rep (pos st) (rest st))
      end
  end.

Definition replace_g (r : regex) (rep : jsstring) (s : jsstring) : jsstring :=
  replace_loop (S (length s)) r rep 0 s.

(** A pattern that is a sequence of items. *)
Fixpoint seqs (rs : list regex) : regex :=
  match rs with
  | [] => Empty
  | [r] => r
  | r :: tl => Seq r (seqs tl)
  end.

Definition ch (a : ascii) : N := N_of_ascii a.
Arguments ch a%_char.

(** ** Numbers

    A JavaScript number that holds an integer or NaN; exact below 2^53,
    where every integer is a double. *)
Inductive number : Type :=
| Int (z : Z)
| NaN.

Definition digit_value (c : N) : Z := Z.of_N (c - 48).

(** The value of the longest run of decimal digits at the head of a
    string. *)
Fixpoint parse_digits (acc : Z) (s : jsstring) : Z :=
  match s with
  | c :: tl =>
      if is_digit c then parse_digits (10 * acc + digit_value c) tl else acc
  | [] => acc
  end.

(** The value of a digit of a radix up to 16, when the unit is one. *)
Definition radix_digit (radix : Z) (c : N) : option Z :=
  let v :=
    if is_digit c then Some (Z.of_N (c - 48))
    else if in_range 97 102 c then Some (Z.of_N (c - 87))
    else if in_range 65 70 c then Some (Z.of_N (c - 55))
    else None in
  match v with
  | Some d => if (d <? radix)%Z then Some d else None
  | None => None
  end.

Fixpoint parse_radix (radix acc : Z) (s : jsstring) : Z :=
  match s with
  | c :: tl =>
      match radix_digit radix c with
      | Some d => parse_radix radix (radix * acc + d) tl
      | None => acc
      end
  | [] => acc
  end.

(** [parseInt(s)] with no radix: leading white space and a sign are
    skipped, [0x] or [0X] selects radix 16, then the longest run of digits
    is read; NaN when there is none. *)
Definition parseInt (s : jsstring) : number :=
  let s := trimStart s in
  let '(sign, s) :=
    match s with
    | c :: tl =>
        if c =? ch "-" then (-1, tl)%Z
        else if c =? ch "+" then (1, tl)%Z else (1%Z, s)
    | [] => (1%Z, s)
    end in
  let '(radix, s) :=
    match s with
    | c1 :: c2 :: tl =>
        if (c1 =? ch "0") && ((c2 =? ch "x") || (c2 =? ch "X"))
        then (16%Z, tl) else (10%Z, s)
    | _ => (10%Z, s)
    end in
  match s with
  | c :: _ =>
      match radix_digit radix c with
      | Some _ => Int (sign * parse_radix radix 0 s)
      | None => NaN
      end
  | [] => NaN
  end.

(** [n.toString()] *)
Definition Number_toString (n : number) : jsstring :=
  match n with
  | Int z => str (NilZero.string_of_int (Z.to_int z))
  | NaN => str "NaN"
  end.

(** [n === m] and [n + m] on numbers; NaN equals nothing and absorbs. *)
Definition num_eq (n : number) (m : Z) : bool :=
  match n with Int z => (z =? m)%Z | NaN => false end.

Definition num_add (n : number) (m : Z) : number :=
  match n with Int z => Int (z + m) | NaN => NaN end.

(** [s.padStart(len, fill)] for a one-unit [fill]. *)
Definition padStart (len : nat) (fill : N) (s : jsstring) : jsstring :=
  replicate (len - length s) fill ++ s.


(** ** Date

    A Date object holds a time value: milliseconds since the epoch, UTC, or
    NaN ([None]). *)

Local Open Scope Z_scope.

Definition msPerDay : Z := 86400000.

(** Day(t), DayFromYear(y), DaysInYear(y) of ECMAScript. *)
Definition Day (t : Z) : Z := t / msPerDay.

Definition DayFromYear (y : Z) : Z :=
  365 * (y - 1970) + (y - 1969) / 4 - (y - 1901) / 100 + (y - 1601) / 400.

Definition leap_year (y : Z) : bool :=
  (y mod 4 =? 0) && (negb (y mod 100 =? 0) || (y mod 400 =? 0)).

Definition month_lengths (y : Z) : list Z :=
  [31; if leap_year y then 29 else 28; 31; 30; 31; 30; 31; 31; 30; 31; 30; 31].

Definition DaysInMonth (y m : Z) : Z :=
  nth (Z.to_nat (m - 1)) (month_lengths y) 0.

(** MakeDay(y, m - 1, d) for a month [m] in 1..12: the day number of the
    calendar date. *)
Definition MakeDay (y m d : Z) : Z :=
  DayFromYear y
  + fold_right Z.add 0 (firstn (Z.to_nat (m - 1)) (month_lengths y))
  + (d - 1).

(** TimeClip *)
Definition TimeClip (t : Z) : option Z :=
  if Z.abs t <=? 8640000000000000 then Some t else None.

(** YearFromTime: the largest [y] with [DayFromYear y <= day], searched
    downwards from a year that is too large. *)
Fixpoint year_search (fuel : nat) (y day : Z) : Z :=
  match fuel with
  | O => y
  | S fuel' =>
      if DayFromYear y <=? day then y else year_search fuel' (y - 1) day
  end.

Definition YearFromDay (day : Z) : Z :=
  year_search 2000
    (1970 + (if 0 <=? day then day / 365 else day / 366 + 1)) day.

(** MonthFromTime and DateFromTime: the month (1..12) and the day of the
    month of the day [n] (from 0) of a year with the given months. *)
Fixpoint month_day (months : list Z) (m n : Z) : Z * Z :=
  match months with
  | [] => (m, n + 1)
  | len :: tl => if n <? len then (m, n + 1) else month_day tl (m + 1) (n - len)
  end.

(** Year, month and day of the month of a time value, in UTC. *)
Definition civil (t : Z) : Z * Z * Z :=
  let day := Day t in
  let y := YearFromDay day in
  let '(m, d) := month_day (month_lengths y) 1 (day - DayFromYear y) in
  (y, m, d).

Local Close Scope Z_scope.

(** A non-negative integer in decimal, padded with zeros to [len] digits. *)
Definition pad_number (len : nat) (z : Z) : jsstring :=
  padStart len (ch "0") (Number_toString (Int z)).

(** [date.toISOString()] of a valid time value:
    YYYY-MM-DDTHH:mm:ss.sssZ, the year as ±YYYYYY outside 0..9999. *)
Definition toISOString (t : Z) : jsstring :=
  let '(y, m, d) := civil t in
  let ms := (t mod msPerDay)%Z in
  (if (0 <=? y)%Z && (y <=? 9999)%Z then pad_number 4 y
   else (if (y <? 0)%Z then str "-" else str "+") ++ pad_number 6 (Z.abs y))
  ++ str "-" ++ pad_number 2 m ++ str "-" ++ pad_number 2 d
  ++ str "T" ++ pad_number 2 (ms / 3600000)%Z
  ++ str ":" ++ pad_number 2 (ms / 60000 mod 60)%Z
  ++ str ":" ++ pad_number 2 (ms / 1000 mod 60)%Z
  ++ str "." ++ pad_number 3 (ms mod 1000)%Z ++ str "Z".

(** [s.split(sep)[0]] for a one-unit separator: the units before the first
    separator. *)
Fixpoint split_first (sep : N) (s : jsstring) : jsstring :=
  match s with
  | c :: tl => if c =? sep then [] else c :: split_first sep tl
  | [] => []
  end.

(** *** Date.parse

    The date-only forms of the ECMAScript date-time string format (YYYY,
    YYYY-MM, YYYY-MM-DD, the year also as ±YYYYYY) are read as UTC.  Any
    other string is read by the implementation's own parser, in the time
    zone of the platform: [implParse] below. *)

Definition all_digits (s : jsstring) : bool := forallb is_digit s.

(** The year of a date-only string and what follows it. *)
Definition iso_year (s : jsstring) : option (Z * jsstring) :=
  match s with
  | c :: tl =>
      if (c =? ch "+") || (c =? ch "-") then
        let ds := take 6 tl in
        if (length ds =? 6)%nat && all_digits ds then
          let y := parse_digits 0 ds in
          if c =? ch "-" then
            (if (y =? 0)%Z then None else Some ((- y)%Z, drop 6 tl))
          else Some (y, drop 6 tl)
        else None
      else
        let ds := take 4 s in
        if (length ds =? 4)%nat && all_digits ds
        then Some (parse_digits 0 ds, drop 4 s) else None
  | [] => None
  end.

(** [-NN] at the head of a string: the two-digit number and what follows. *)
Definition iso_field (s : jsstring) : option (Z * jsstring) :=
  match s with
  | c :: d1 :: d2 :: tl =>
      if (c =? ch "-") && is_digit d1 && is_digit d2
      then Some (parse_digits 0 [d1; d2], tl) else None
  | _ => None
  end.

Inductive iso_date : Type :=
| IsoTime (t : Z)     (* a date of the calendar: its time value *)
| IsoIllegal          (* month or day out of 01..12, 01..31: NaN *)
| IsoOther.           (* not of a date-only form, or a day past the end of
                         its month (engines differ): left to the platform *)

Definition iso_check (y m d : Z) : iso_date :=
  if ((m <? 1) || (12 <? m) || (d <? 1) || (31 <? d))%Z then IsoIllegal
  else if (d <=? DaysInMonth y m)%Z then IsoTime (MakeDay y m d * msPerDay)%Z
       else IsoOther.

Definition parse_iso_date (s : jsstring) : iso_date :=
  match iso_year s with
  | None => IsoOther
  | Some (y, []) => iso_check y 1 1
  | Some (y, s1) =>
      match iso_field s1 with
      | None => IsoOther
      | Some (m, []) => iso_check y m 1
      | Some (m, s2) =>
          match iso_field s2 with
          | Some (d, []) => iso_check y m d
          | _ => IsoOther
          end
      end
  end.

(** [new Date(s)] for a string: the time value, [None] for NaN. *)
Definition Date_new (implParse : jsstring -> option Z) (s : jsstring)
    : option Z :=
  match parse_iso_date s with
  | IsoTime t => TimeClip t
  | IsoIllegal => None
  | IsoOther => match implParse s with Some t => TimeClip t | None => None end
  end.

(** ** event.model.ts *)

(** The paths of the two schemas. *)
Inductive path : Type :=
| P_title | P_slug | P_description | P_overview | P_image | P_venue
| P_location | P_date | P_time | P_mode | P_audience | P_agenda
| P_organizer | P_tags | P_eventId | P_email.

#[global] Instance path_eq_dec : EqDecision path.
Proof. solve_decision. Defined.

Inductive error : Type :=
| InvalidDateFormat               (* Error('Invalid date format') *)
| InvalidTimeFormat               (* Error('Invalid time format. ...') *)
| DanglingReferenceError          (* Error(`Event with ID ... does not exist`) *)
| FieldValidationError (p : path) (* Mongoose ValidationError on a path *)
| DuplicateSlugError              (* E11000 on the unique index on slug *)
| DuplicateKeyError               (* E11000 on _id *)
| DocumentNotFoundError.          (* save() of a document that is gone *)

Inductive result (A : Type) : Type :=
| Ok (a : A)
| Throw (e : error).
Arguments Ok {A} a.
Arguments Throw {A} e.

(** [/[^\w\s-]/g] *)
Definition special_re : regex :=
  Cls (fun c => negb (is_word c || is_space c || is_hyphen c)).
(** [/\s+/g] *)
Definition spaces_re : regex := Plus (Cls is_space).
(** [/--+/g] *)
Definition hyphens_re : regex := Seq (Chr (ch "-")) (Plus (Chr (ch "-"))).
(** [/^-+|-+$/g] *)
Definition edges_re : regex :=
  Alt (Seq Bol (Plus (Chr (ch "-")))) (Seq (Plus (Chr (ch "-"))) Eol).

(** [/^([0-1]?[0-9]|2[0-3]):([0-5][0-9])$/] *)
Definition time24Regex : regex :=
  seqs [ Bol;
         Grp 1 (Alt (Seq (Opt (Cls (in_range (ch "0") (ch "1"))))
                         (Cls (in_range (ch "0") (ch "9"))))
                    (Seq (Chr (ch "2")) (Cls (in_range (ch "0") (ch "3")))));
         Chr (ch ":");
         Grp 2 (Seq (Cls (in_range (ch "0") (ch "5")))
                    (Cls (in_range (ch "0") (ch "9"))));
         Eol ].

(** [/^(\d{1,2}):(\d{2})\s*(AM|PM)$/i] *)
Definition time12Regex : regex :=
  seqs [ Bol;
         Grp 1 (Seq (Cls is_digit) (Opt (Cls is_digit)));
         Chr (ch ":");
         Grp 2 (Seq (Cls is_digit) (Cls is_digit));
         Star (Cls is_space);
         Grp 3 (Alt (Seq (ChrI (ch "A")) (ChrI (ch "M")))
                    (Seq (ChrI (ch "P")) (ChrI (ch "M"))));
         Eol ].

Section EventModel.

(** The Unicode case tables of the platform, and its parser of the date
    strings that are not in the ECMAScript date-only format. *)
Variable unicodeLower unicodeUpper : jsstring -> jsstring.
Variable implParse : jsstring -> option Z.

Definition generateSlug (title : jsstring) : jsstring :=
  replace_g edges_re []
    (replace_g hyphens_re (str "-")
       (replace_g spaces_re (str "-")
          (replace_g special_re []
             (trim (toLowerCase unicodeLower title))))).

Definition normalizeDate (dateStr : jsstring) : result jsstring :=
  let date := Date_new implParse dateStr in
  match date with
  | None => Throw InvalidDateFormat                 (* isNaN(date.getTime()) *)
  | Some t => Ok (split_first (ch "T") (toISOString t))
  end.

Definition normalizeTime (timeStr : jsstring) : result jsstring :=
  let cleaned := toUpperCase unicodeUpper (trim timeStr) in
  if test time24Regex cleaned then Ok cleaned
  else
    match smatch time12Regex cleaned with
    | Some m =>
        match group 1 m, group 2 m, group 3 m with
        | Some m1, Some minutes, Some period =>
            let hours := parseInt m1 in
            let hours :=
              if bool_decide (period = str "PM") && negb (num_eq hours 12)
              then num_add hours 12
              else if bool_decide (period = str "AM") && num_eq hours 12
                   then Int 0
                   else hours in
            Ok (padStart 2 (ch "0") (Number_toString hours)
                ++ str ":" ++ minutes)
        | _, _, _ =>
            (* not reached: the three groups take part in every match *)
            Throw InvalidTimeFormat
        end
    | None => Throw InvalidTimeFormat
    end.

End EventModel.


(** ** Documents and collections

    A Mongoose document is the record of its fields with its [_id], the
    [isNew] flag and the paths modified since it was loaded or created.  A
    string field that was never given is the empty string, which a
    [required] path rejects like a missing one.  The [createdAt] and
    [updatedAt] stamps of [timestamps: true] are left out. *)

Abbreviation ObjectId := N (only parsing).

Record IEvent : Type := {
  title : jsstring;
  slug : jsstring;
  description : jsstring;
  overview : jsstring;
  image : jsstring;
  venue : jsstring;
  location : jsstring;
  date : jsstring;
  time : jsstring;
  mode : jsstring;
  audience : jsstring;
  agenda : list jsstring;
  organizer : jsstring;
  tags : list jsstring
}.

Record IBooking : Type := {
  eventId : option ObjectId;
  email : jsstring
}.

Record Document (A : Type) : Type := {
  _id : ObjectId;
  fields : A;
  isNew : bool;
  modifiedPaths : list path
}.
Arguments _id {A} _.
Arguments fields {A} _.
Arguments isNew {A} _.
Arguments modifiedPaths {A} _.

Definition isModified {A} (p : path) (doc : Document A) : bool :=
  bool_decide (p ∈ modifiedPaths doc).

(** The two collections, by [_id]. *)
Record Store : Type := {
  events : gmap ObjectId IEvent;
  bookings : gmap ObjectId IBooking
}.

(** An assignment [doc.p = v]: the path is marked modified when the value
    changes. *)
Definition mark {A} (p : path) (changed : bool) (doc : Document A) (f : A)
    : Document A :=
  {| _id := _id doc; fields := f; isNew := isNew doc;
     modifiedPaths :=
       if changed then p :: modifiedPaths doc else modifiedPaths doc |}.

Definition with_slug (v : jsstring) (e : IEvent) : IEvent :=
  {| title := title e; slug := v; description := description e;
     overview := overview e; image := image e; venue := venue e;
     location := location e; date := date e; time := time e; mode := mode e;
     audience := audience e; agenda := agenda e; organizer := organizer e;
     tags := tags e |}.

Definition with_date (v : jsstring) (e : IEvent) : IEvent :=
  {| title := title e; slug := slug e; description := description e;
     overview := overview e; image := image e; venue := venue e;
     location := location e; date := v; time := time e; mode := mode e;
     audience := audience e; agenda := agenda e; organizer := organizer e;
     tags := tags e |}.

Definition with_time (v : jsstring) (e : IEvent) : IEvent :=
  {| title := title e; slug := slug e; description := description e;
     overview := overview e; image := image e; venue := venue e;
     location := location e; date := date e; time := v; mode := mode e;
     audience := audience e; agenda := agenda e; organizer := organizer e;
     tags := tags e |}.

Definition with_description (v : jsstring) (e : IEvent) : IEvent :=
  {| title := title e; slug := slug e; description := v;
     overview := overview e; image := image e; venue := venue e;
     location := location e; date := date e; time := time e; mode := mode e;
     audience := audience e; agenda := agenda e; organizer := organizer e;
     tags := tags e |}.

(** What [$set] of the modified paths leaves in the collection: the new
    value of a modified path, the stored value of any other. *)
Definition merge_event (m : path -> bool) (old new : IEvent) : IEvent :=
  let pick {T} (p : path) (get : IEvent -> T) :=
    if m p then get new else get old in
  {| title := pick P_title title; slug := pick P_slug slug;
     description := pick P_description description;
     overview := pick P_overview overview; image := pick P_image image;
     venue := pick P_venue venue; location := pick P_location location;
     date := pick P_date date; time := pick P_time time;
     mode := pick P_mode mode; audience := pick P_audience audience;
     agenda := pick P_agenda agenda; organizer := pick P_organizer organizer;
     tags := pick P_tags tags |}.

Definition merge_booking (m : path -> bool) (old new : IBooking) : IBooking :=
  {| eventId := if m P_eventId then eventId new else eventId old;
     email := if m P_email then email new else email old |}.

(** [/^[^\\s@]+@[^\\s@]+\\.[^\\s@]+$/] *)
Definition emailRegex : regex :=
  let part := Plus (Cls (fun c => negb (is_space c || (c =? ch "@")))) in
  seqs [ Bol; part; Chr (ch "@"); part; Chr (ch "."); part; Eol ].

(** The first violated constraint of a list, in the order of the schema. *)
Fixpoint first_error (checks : list (bool * path)) : option path :=
  match checks with
  | [] => None
  | (ok, p) :: tl => if ok then first_error tl else Some p
  end.

Definition required (s : jsstring) : bool := negb (length s =? 0)%nat.

Section Models.

Variable unicodeLower unicodeUpper : jsstring -> jsstring.
Variable implParse : jsstring -> option Z.

(** *** Setters of the schema options [trim] and [lowercase]

    Mongoose runs the setters of a path from the last one declared to the
    first. *)
Definition set_trim (v : jsstring) : jsstring := trim v.
Definition set_lowercase (v : jsstring) : jsstring := toLowerCase unicodeLower v.

(** slug: [lowercase: true, trim: true] *)
Definition cast_slug (v : jsstring) : jsstring := set_lowercase (set_trim v).
(** email: [trim: true, lowercase: true] *)
Definition cast_email (v : jsstring) : jsstring := set_trim (set_lowercase v).

(** [new Event(data)] *)
Definition cast_event (e : IEvent) : IEvent :=
  {| title := set_trim (title e); slug := cast_slug (slug e);
     description := set_trim (description e);
     overview := set_trim (overview e); image := image e;
     venue := set_trim (venue e); location := set_trim (location e);
     date := date e; time := time e; mode := set_lowercase (mode e);
     audience := set_trim (audience e); agenda := agenda e;
     organizer := set_trim (organizer e); tags := tags e |}.

Definition event_paths : list path :=
  [P_title; P_slug; P_description; P_overview; P_image; P_venue; P_location;
   P_date; P_time; P_mode; P_audience; P_agenda; P_organizer; P_tags].

Definition new_event (id : ObjectId) (data : IEvent) : Document IEvent :=
  {| _id := id; fields := cast_event data; isNew := true;
     modifiedPaths := event_paths |}.

(** [new Booking({ eventId, email })] *)
Definition new_booking (id : ObjectId) (data : IBooking) : Document IBooking :=
  {| _id := id;
     fields := {| eventId := eventId data; email := cast_email (email data) |};
     isNew := true; modifiedPaths := [P_eventId; P_email] |}.

(** A document read from its collection. *)
Definition hydrate {A} (id : ObjectId) (f : A) : Document A :=
  {| _id := id; fields := f; isNew := false; modifiedPaths := [] |}.

(** [doc.description = v] *)
Definition assign_description (v : jsstring) (doc : Document IEvent)
    : Document IEvent :=
  let v := set_trim v in
  mark P_description (negb (bool_decide (v = description (fields doc)))) doc
       (with_description v (fields doc)).

(** [this.slug = v], [this.date = v], [this.time = v] *)
Definition assign_slug (v : jsstring) (doc : Document IEvent)
    : Document IEvent :=
  let v := cast_slug v in
  mark P_slug (negb (bool_decide (v = slug (fields doc)))) doc
       (with_slug v (fields doc)).

Definition assign_date (v : jsstring) (doc : Document IEvent)
    : Document IEvent :=
  mark P_date (negb (bool_decide (v = date (fields doc)))) doc
       (with_date v (fields doc)).

Definition assign_time (v : jsstring) (doc : Document IEvent)
    : Document IEvent :=
  mark P_time (negb (bool_decide (v = time (fields doc)))) doc
       (with_time v (fields doc)).

(** *** Validation of the schemas *)

Definition validate_event (e : IEvent) : option path :=
  first_error
    [ (required (title e), P_title);
      ((3 <=? length (title e))%nat, P_title);
      ((length (title e) <=? 200)%nat, P_title);
      (required (description e), P_description);
      ((10 <=? length (description e))%nat, P_description);
      (required (overview e), P_overview);
      (required (image e), P_image);
      (required (venue e), P_venue);
      (required (location e), P_location);
      (required (date e), P_date);
      (required (time e), P_time);
      (required (mode e), P_mode);
      (bool_decide (mode e ∈ [str "online"; str "offline"; str "hybrid"]),
       P_mode);
      (required (audience e), P_audience);
      ((0 <? length (agenda e))%nat, P_agenda);
      (required (organizer e), P_organizer);
      ((0 <? length (tags e))%nat, P_tags) ].

Definition validate_booking (b : IBooking) : option path :=
  first_error
    [ (bool_decide (is_Some (eventId b)), P_eventId);
      (required (email b), P_email);
      (test emailRegex (email b), P_email) ].

(** *** eventSchema.pre('save')

    The hook changes [this] in memory and ends in [next()] or
    [next(error)]: the document as the hook left it, and the error. *)
Definition event_pre_save (this : Document IEvent)
    : Document IEvent * option error :=
  let this :=
    if isModified P_title this
    then assign_slug (generateSlug unicodeLower (title (fields this))) this
    else this in
  let after_date :=
    if isModified P_date this then
      match normalizeDate implParse (date (fields this)) with
      | Ok d => Ok (assign_date d this)
      | Throw e => Throw e
      end
    else Ok this in
  match after_date with
  | Throw e => (this, Some e)
  | Ok this =>
      let after_time :=
        if isModified P_time this then
          match normalizeTime unicodeUpper (time (fields this)) with
          | Ok t => Ok (assign_time t this)
          | Throw e => Throw e
          end
        else Ok this in
      match after_time with
      | Throw e => (this, Some e)
      | Ok this => (this, None)
      end
  end.

(** *** bookingSchema.pre('save')

    The hook reads the Event collection; the reads it makes are logged. *)
Inductive query : Type :=
| FindEventById (id : option ObjectId).

Definition Hook (A : Type) : Type := Store -> list query * result A.

Definition hook_ret {A} (a : A) : Hook A := fun _ => ([], Ok a).
Definition hook_throw {A} (e : error) : Hook A := fun _ => ([], Throw e).
Definition hook_bind {A B} (m : Hook A) (f : A -> Hook B) : Hook B :=
  fun db =>
    match m db with
    | (log, Ok a) => let '(log', r) := f a db in (log ++ log', r)
    | (log, Throw e) => (log, Throw e)
    end.

(** [await Event.findById(id)] *)
Definition Event_findById (id : option ObjectId) : Hook (option IEvent) :=
  fun db => ([FindEventById id],
             Ok (match id with Some i => events db !! i | None => None end)).

Definition booking_pre_save (this : Document IBooking) : Hook unit :=
  if isNew this || isModified P_eventId this then
    hook_bind (Event_findById (eventId (fields this))) (fun eventExists =>
      match eventExists with
      | None => hook_throw DanglingReferenceError
      | Some _ => hook_ret tt
      end)
  else hook_ret tt.

(** *** save()

    Validation runs first, then the pre-save hook, then the write: an
    insert for a new document, [$set] of the modified paths otherwise.  The
    saved document is no longer new and has no modified path. *)
Definition saved {A} (doc : Document A) : Document A :=
  {| _id := _id doc; fields := fields doc; isNew := false;
     modifiedPaths := [] |}.

(** The unique index on slug: no other document has the slug. *)
Definition slug_free (id : ObjectId) (s : jsstring)
    (evs : gmap ObjectId IEvent) : bool :=
  bool_decide (map_Forall (fun i e => i = id ∨ slug e ≠ s) evs).

Definition write_event (doc : Document IEvent) (db : Store) : result Store :=
  let put e :=
    {| events := <[_id doc := e]> (events db); bookings := bookings db |} in
  if isNew doc then
    match events db !! _id doc with
    | Some _ => Throw DuplicateKeyError
    | None =>
        if slug_free (_id doc) (slug (fields doc)) (events db)
        then Ok (put (fields doc)) else Throw DuplicateSlugError
    end
  else
    match events db !! _id doc with
    | None => Throw DocumentNotFoundError
    | Some old =>
        let e := merge_event (fun p => isModified p doc) old (fields doc) in
        if slug_free (_id doc) (slug e) (events db)
        then Ok (put e) else Throw DuplicateSlugError
    end.

Definition write_booking (doc : Document IBooking) (db : Store)
    : result Store :=
  let put b :=
    {| events := events db; bookings := <[_id doc := b]> (bookings db) |} in
  if isNew doc then
    match bookings db !! _id doc with
    | Some _ => Throw DuplicateKeyError
    | None => Ok (put (fields doc))
    end
  else
    match bookings db !! _id doc with
    | None => Throw DocumentNotFoundError
    | Some old =>
        Ok (put (merge_booking (fun p => isModified p doc) old (fields doc)))
    end.

(** [await event.save()]: the result and the store afterwards. *)
Definition save_event (doc : Document IEvent) (db : Store)
    : result (Document IEvent) * Store :=
  match validate_event (fields doc) with
  | Some p => (Throw (FieldValidationError p), db)
  | None =>
      match event_pre_save doc with
      | (_, Some e) => (Throw e, db)
      | (doc', None) =>
          match write_event doc' db with
          | Ok db' => (Ok (saved doc'), db')
          | Throw e => (Throw e, db)
          end
      end
  end.

(** [await booking.save()]: the reads of the hook, the result and the
    store afterwards. *)
Definition save_booking (doc : Document IBooking) (db : Store)
    : list query * result (Document IBooking) * Store :=
  match validate_booking (fields doc) with
  | Some p => ([], Throw (FieldValidationError p), db)
  | None =>
      match booking_pre_save doc db with
      | (log, Throw e) => (log, Throw e, db)
      | (log, Ok _) =>
          match write_booking doc db with
          | Ok db' => (log, Ok (saved doc), db')
          | Throw e => (log, Throw e, db)
          end
      end
  end.

End Models.

(** ** The slug as section 4.1 of the specification words it *)

(** "remove all characters that are not word-characters, whitespace, or
    hyphen" *)
Definition remove_special (s : jsstring) : jsstring :=
  List.filter (λ c, is_word c || is_space c || is_hyphen c) s.

(** "collapse internal whitespace runs into a single hyphen"; [in_run] says
    that the unit before was white space. *)
Fixpoint collapse_spaces (in_run : bool) (s : jsstring) : jsstring :=
  match s with
  | [] => []
  | c :: tl =>
      if is_space c
      then (if in_run then collapse_spaces true tl
            else HYPHEN :: collapse_spaces true tl)
      else c :: collapse_spaces false tl
  end.

(** "collapse multiple consecutive hyphens into one"; [in_run] says that the
    unit before was a hyphen. *)
Fixpoint collapse_hyphens (in_run : bool) (s : jsstring) : jsstring :=
  match s with
  | [] => []
  | c :: tl =>
      if is_hyphen c
      then (if in_run then collapse_hyphens true tl
            else HYPHEN :: collapse_hyphens true tl)
      else c :: collapse_hyphens false tl
  end.

(** "strip leading/trailing hyphens" *)
Definition strip_trailing_hyphens (s : jsstring) : jsstring :=
  rev (skip_while is_hyphen (rev s)).

Definition strip_hyphens (s : jsstring) : jsstring :=
  strip_trailing_hyphens (skip_while is_hyphen s).

Definition slug_spec (unicodeLower : jsstring -> jsstring) (title : jsstring)
    : jsstring :=
  strip_hyphens
    (collapse_hyphens false
       (collapse_spaces false
          (remove_special (trim (toLowerCase unicodeLower title))))).

(** The shape of a slug: lowercase word characters and hyphens, no two
    hyphens in a row, no hyphen at either end. *)
Definition slug_char (c : N) : bool :=
  is_lower c || is_digit c || (c =? 95) || is_hyphen c.

Fixpoint no_double_hyphen (s : jsstring) : bool :=
  match s with
  | c1 :: tl =>
      match tl with
      | c2 :: _ => negb (is_hyphen c1 && is_hyphen c2)
      | [] => true
      end && no_double_hyphen tl
  | [] => true
  end.

Definition no_edge_hyphen (s : jsstring) : bool :=
  match s with
  | [] => true
  | c :: _ => negb (is_hyphen c) && negb (is_hyphen (List.last s 0))
  end.

Definition slug_shaped (s : jsstring) : bool :=
  forallb slug_char s && no_double_hyphen s && no_edge_hyphen s.

(** ** The time as section 4.2 of the specification words it *)

Inductive period : Type := AM | PM.

Definition period_str (p : period) : jsstring :=
  match p with AM => str "AM" | PM => str "PM" end.

(** The value of a string of decimal digits. *)
Definition decimal (ds : jsstring) : Z :=
  fold_left (λ acc d, 10 * acc + Z.of_N (d - 48))%Z ds 0%Z.

(** "H[H]:MM": one or two digits, a colon, two digits; with what follows. *)
Definition split_hmm (c : jsstring) : option (jsstring * jsstring * jsstring) :=
  match c with
  | h1 :: c2 :: tl =>
      if is_digit h1 then
        if c2 =? ch ":" then
          match tl with
          | m1 :: m2 :: tail =>
              if is_digit m1 && is_digit m2
              then Some ([h1], [m1; m2], tail) else None
          | _ => None
          end
        else if is_digit c2 then
          match tl with
          | c3 :: m1 :: m2 :: tail =>
              if (c3 =? ch ":") && is_digit m1 && is_digit m2
              then Some ([h1; c2], [m1; m2], tail) else None
          | _ => None
          end
        else None
      else None
  | _ => None
  end.

(** "matches the 24-hour pattern H[H]:MM with hour in [0,23] and minute in
    [0,59]" *)
Definition is_24h (c : jsstring) : bool :=
  match split_hmm c with
  | Some (h, m, []) => (decimal h <=? 23)%Z && (decimal m <=? 59)%Z
  | _ => false
  end.

(** "matches the 12-hour pattern H[H]:MM (AM|PM)" *)
Definition split_12h (c : jsstring) : option (jsstring * jsstring * period) :=
  match split_hmm c with
  | Some (h, m, tail) =>
      if bool_decide (skip_while is_space tail = str "AM") then Some (h, m, AM)
      else if bool_decide (skip_while is_space tail = str "PM") then Some (h, m, PM)
      else None
  | None => None
  end.

(** "adding 12 to hour when PM and hour≠12, and setting hour to 0 when AM
    and hour=12" *)
Definition to_24h (hour : Z) (p : period) : Z :=
  match p with
  | PM => if (hour =? 12)%Z then hour else (hour + 12)%Z
  | AM => if (hour =? 12)%Z then 0%Z else hour
  end.

Definition time_spec (cleaned : jsstring) : result jsstring :=
  if is_24h cleaned then Ok cleaned
  else
    match split_12h cleaned with
    | Some (h, m, p) =>
        Ok (padStart 2 (ch "0") (Number_toString (Int (to_24h (decimal h) p)))
            ++ str ":" ++ m)
    | None => Throw InvalidTimeFormat
    end.

Definition normalizeTime_spec (unicodeUpper : jsstring -> jsstring)
    (timeStr : jsstring) : result jsstring :=
  time_spec (toUpperCase unicodeUpper (trim timeStr)).

(** ** The email as section 4.4 of the specification words it *)

(** A unit of an email part: neither white space nor [@]. *)
Definition email_unit (c : N) : bool := negb (is_space c || (c =? ch "@")).

(** "local@domain.tld (no embedded whitespace, at least one [.] in domain
    portion)" *)
Definition email_shape (e : jsstring) : Prop :=
  ∃ l d t, e = l ++ str "@" ++ d ++ str "." ++ t
           ∧ l ≠ [] ∧ d ≠ [] ∧ t ≠ []
           ∧ forallb email_unit (l ++ d ++ t) = true.

(** ** Auxiliary definitions of the proofs *)

(** [reach st st']: [st'] is [st] after some code units were consumed. *)
Definition reach (st st' : mstate) : Prop :=
  ∃ n : nat, (n ≤ length (rest st))%nat ∧ pos st' = (pos st + n)%nat
             ∧ rest st' = drop n (rest st).

(** The replacement loop with the fuel of [replace_g], from any index. *)
Definition replace_run (r : regex) (rep : jsstring) (idx : nat) (s : jsstring)
    : jsstring :=
  replace_loop (S (length s)) r rep idx s.

(** The number of leading units of a class. *)
Fixpoint span (p : N → bool) (s : jsstring) : nat :=
  match s with
  | c :: tl => if p c then S (span p tl) else 0
  | [] => 0
  end.

(** [hd_not_hyphen s]: [s] does not start with a hyphen. *)
Definition hd_not_hyphen (s : jsstring) : bool :=
  match s with c :: _ => negb (is_hyphen c) | [] => true end.

(** The state [j] units further. *)
Definition after (j : nat) (st : mstate) : mstate :=
  MState (pos st + j) (drop j (rest st)) (caps st).

(** The lookup that the Booking hook makes. *)
Definition find_event (db : Store) (id : option ObjectId) : option IEvent :=
  match id with Some i => events db !! i | None => None end.

(** The title step of [eventSchema.pre('save')] on its own. *)
Definition slug_step (unicodeLower : jsstring -> jsstring) (doc : Document IEvent)
    : Document IEvent :=
  if isModified P_title doc
  then assign_slug unicodeLower
         (generateSlug unicodeLower (title (fields doc))) doc
  else doc.

(** *** Canonical forms

    "time as 24-hour HH:MM": two digits, a colon, two digits, the hour at
    most 23 and the minute at most 59. *)
Definition canonical_time (t : jsstring) : bool :=
  is_24h t && (length t =? 5)%nat.

(** "date as ISO YYYY-MM-DD": four digits, a hyphen, two digits, a hyphen,
    two digits. *)
Definition canonical_date (d : jsstring) : bool :=
  match d with
  | [y1; y2; y3; y4; h1; m1; m2; h2; d1; d2] =>
      all_digits [y1; y2; y3; y4; m1; m2; d1; d2] && is_hyphen h1 && is_hyphen h2
  | _ => false
  end.

(** The 12-hour entries with an hour of the clock and a minute of the hour. *)
Definition clock_12h (cleaned : jsstring) : bool :=
  match split_12h cleaned with
  | Some (h, m, _) =>
      (1 <=? decimal h)%Z && (decimal h <=? 12)%Z && (decimal m <=? 59)%Z
  | None => false
  end.

(** One or two digits; two digits. *)
Definition hour_digits (h : jsstring) : bool :=
  all_digits h && ((length h =? 1) || (length h =? 2))%nat.
Definition minute_digits (m : jsstring) : bool :=
  all_digits m && (length m =? 2)%nat.

(** A number printed with [len] digits is [len] digits that read as the
    number. *)
Definition digits_ok (len : nat) (z : Z) : bool :=
  let s := pad_number len z in
  (length s =? len)%nat && all_digits s && (parse_digits 0 s =? z)%Z.

(** *** Sample data *)

Definition empty_store : Store := {| events := ∅; bookings := ∅ |}.

Definition sample_event (d t : string) : IEvent :=
  {| title := str "React Summit 2025"; slug := [];
     description := str "The biggest React conference of the year";
     overview := str "Talks and workshops"; image := str "/images/event1.png";
     venue := str "RAI"; location := str "Amsterdam, Netherlands";
     date := str d; time := str t; mode := str "offline";
     audience := str "Developers"; agenda := [str "Keynote"];
     organizer := str "GitNation"; tags := [str "react"] |}.

Definition sample_booking (id : option ObjectId) (mail : string) : IBooking :=
  {| eventId := id; email := str mail |}.

(** A store that holds the sample event under [_id] 7. *)
Definition sample_store : Store :=
  {| events := {[ 7 := with_slug (str "react-summit-2025")
                         (sample_event "2025-06-13" "09:00") ]};
     bookings := ∅ |}.

Definition entered_bad_time : Document IEvent :=
  new_event asciiLower 1 (sample_event "2025-06-13" "25:00").

(** The platform of the samples: ASCII case tables, and a parser that
    reads nothing but the ECMAScript date-only forms. *)
Definition no_parse : jsstring -> option Z := fun _ => None.
Definition sample_save (doc : Document IEvent) (db : Store)
    : result (Document IEvent) * Store :=
  save_event asciiLower asciiUpper no_parse doc db.

(** ** Invariants of the collections *)

(** The unique index on slug holds: the slug of every event is the slug of
    no other event. *)
Definition unique_slugs (db : Store) : bool :=
  bool_decide (map_Forall (λ i e, slug_free i (slug e) (events db) = true)
                          (events db)).

(** Every booking refers to an event of the collection. *)
Definition bookings_refer (db : Store) : bool :=
  bool_decide (map_Forall (λ _ b, is_Some (find_event db (eventId b)))
                          (bookings db)).

(** [doc.title = v] *)
Definition assign_title (v : jsstring) (doc : Document IEvent)
    : Document IEvent :=
  let v := set_trim v in
  mark P_title (negb (bool_decide (v = title (fields doc)))) doc
       {| title := v; slug := slug (fields doc);
          description := description (fields doc);
          overview := overview (fields doc); image := image (fields doc);
          venue := venue (fields doc); location := location (fields doc);
          date := date (fields doc); time := time (fields doc);
          mode := mode (fields doc); audience := audience (fields doc);
          agenda := agenda (fields doc); organizer := organizer (fields doc);
          tags := tags (fields doc) |}.

(** The sample event under another title and with a slug of the caller. *)
Definition sample_titled (t s : string) : IEvent :=
  {| title := str t; slug := str s;
     description := str "The biggest React conference of the year";
     overview := str "Talks and workshops"; image := str "/images/event1.png";
     venue := str "RAI"; location := str "Amsterdam, Netherlands";
     date := str "2025-06-13"; time := str "09:00"; mode := str "offline";
     audience := str "Developers"; agenda := [str "Keynote"];
     organizer := str "GitNation"; tags := [str "react"] |}.

(** The document that a save gives back (the document itself when the save
    fails). *)
Definition created (doc : Document IEvent) (db : Store) : Document IEvent :=
  match (sample_save doc db).1 with Ok d => d | Throw _ => doc end.

(** A new Event given with a slug of the caller, and two new Events whose
    titles give the same slug. *)
Definition own_slug_data : IEvent :=
  sample_titled " React  Summit -- 2025! " "my-own-slug".
Definition first_data : IEvent := sample_titled "React Summit 2025" "".
Definition second_data : IEvent := sample_titled " react  summit -- 2025! " "".
Definition third_data : IEvent := sample_titled "DevOps World Summit" "".

(** The sample store with a booking for its event. *)
Definition booked_store : Store :=
  {| events := events sample_store;
     bookings := {[ 3 := sample_booking (Some 7) "ada@example.com" ]} |}.

(** ** More auxiliary definitions of the proofs *)

(** [f] holds of the [n] integers from [z] on. *)
Fixpoint all_from (f : Z → bool) (n : nat) (z : Z) : bool :=
  match n with
  | O => true
  | S n' => f z && all_from f n' (z + 1)
  end.

(** The year of [toISOString]: four digits, or a sign and six digits. *)
Definition iso_year_string (y : Z) : jsstring :=
  if (0 <=? y)%Z && (y <=? 9999)%Z then pad_number 4 y
  else (if (y <? 0)%Z then str "-" else str "+") ++ pad_number 6 (Z.abs y).

(** The date of [toISOString]: what stands before the [T]. *)
Definition date_string (y m d : Z) : jsstring :=
  iso_year_string y ++ str "-" ++ pad_number 2 m ++ str "-" ++ pad_number 2 d.

(** A padded hour is two or three digits. *)
Definition hour_ok (z : Z) : bool :=
  let s := padStart 2 (ch "0") (Number_toString (Int z)) in
  all_digits s && (2 <=? length s)%nat && (length s <=? 3)%nat.

(** Every event of the collection satisfies the constraints of the
    schema. *)
Definition events_valid (db : Store) : bool :=
  bool_decide (map_Forall (λ _ e, validate_event e = None) (events db)).

(** Every booking of the collection satisfies the constraints of the
    schema. *)
Definition bookings_valid (db : Store) : bool :=
  bool_decide (map_Forall (λ _ b, validate_booking b = None) (bookings db)).

(** ** The padded hour, digit by digit *)

(** The code unit of the decimal digit [d]. *)
Definition digit_unit (d : Z) : N := 48 + Z.to_N d.

(** "the hour zero-padded to two digits": the decimal numeral of the hour,
    with a zero in front of a single digit. *)
Definition hour_numeral (hour : Z) : jsstring :=
  if (hour <? 10)%Z then [ch "0"; digit_unit hour]
  else if (hour <? 100)%Z
       then [digit_unit (hour / 10); digit_unit (hour mod 10)]
       else [digit_unit (hour / 100); digit_unit (hour / 10 mod 10);
             digit_unit (hour mod 10)].

(** Section 4.2 in the words of the specification: the trimmed, uppercased
    entry as it is when it is a 24-hour time; the converted hour, padded,
    a colon and the minutes when it is a 12-hour time; a failure
    otherwise. *)
Definition time_words (cleaned : jsstring) : result jsstring :=
  if is_24h cleaned then Ok cleaned
  else
    match split_12h cleaned with
    | Some (h, m, p) =>
        Ok (hour_numeral (to_24h (decimal h) p) ++ str ":" ++ m)
    | None => Throw InvalidTimeFormat
    end.

Definition normalizeTime_words (unicodeUpper : jsstring -> jsstring)
    (timeStr : jsstring) : result jsstring :=
  time_words (toUpperCase unicodeUpper (trim timeStr)).

(** The numeral of an hour is two digits that read as the hour. *)
Definition hour_numeral_ok (z : Z) : bool :=
  (length (hour_numeral z) =? 2)%nat && all_digits (hour_numeral z)
  && (decimal (hour_numeral z) =? z)%Z.

(** [padStart] of [toString] gives the numeral. *)
Definition hour_padded_ok (z : Z) : bool :=
  bool_decide (padStart 2 (ch "0") (Number_toString (Int z)) = hour_numeral z).


(** ** lib/mongodb.ts

    [connectToDatabase] and [disconnectFromDatabase] are async functions
    with one [await] each: each is the code up to its [await] and the code
    after it.  The cache object [cached] (which is [global.mongooseCache])
    is shared by all calls; the promises that [mongoose.connect(...)
    .then(...)] makes are numbered in the order of the calls and their
    state is kept beside the cache. *)

(** A thrown value: an Error with its name and its message, or a value
    that is not an Error. *)
Inductive thrown : Type :=
| JsError (name message : jsstring)
| NotAnError.

(** How an awaited operation ends. *)
Inductive outcome (A : Type) : Type :=
| Returns (a : A)
| Throws (e : thrown).
Arguments Returns {A} a.
Arguments Throws {A} e.

(** The Mongoose instance that [mongoose.connect] resolves to. *)
Abbreviation Mongoose := N (only parsing).

Record CachedConnection : Type := {
  conn : option Mongoose;
  promise : option nat
}.

Record World : Type := {
  cached : CachedConnection;
  (* the calls of mongoose.connect: the URI, and how the promise was
     settled, when it is *)
  attempts : list (jsstring * option (outcome Mongoose));
  (* the calls of [conn.disconnect()] *)
  disconnects : list Mongoose
}.

(** [{ conn: null, promise: null }] with nothing done yet. *)
Definition idle : World :=
  {| cached := {| conn := None; promise := None |};
     attempts := []; disconnects := [] |}.

Definition with_cached (c : CachedConnection) (w : World) : World :=
  {| cached := c; attempts := attempts w; disconnects := disconnects w |}.

(** Where a call of [connectToDatabase] stands at its first [await], or
    how it ended before. *)
Inductive started : Type :=
| Return (c : Mongoose)         (* return cached.conn *)
| ReturnPromise (p : nat)       (* return cached.promise *)
| ThrowNow (e : thrown)         (* throw new Error(...) *)
| Await (p : nat).              (* await cached.promise *)

Definition uri_error : thrown :=
  JsError (str "Error")
          (str "MONGODB_URI environment variable is not defined").

(** [connectToDatabase()] up to [await cached.promise]: [MONGODB_URI] is
    [process.env.MONGODB_URI]. *)
Definition connect_start (MONGODB_URI : option jsstring) (w : World)
    : started * World :=
  match conn (cached w) with
  | Some c => (Return c, w)
  | None =>
      match promise (cached w) with
      | Some p => (ReturnPromise p, w)
      | None =>
          match MONGODB_URI with
          | None | Some [] => (ThrowNow uri_error, w)   (* !mongodbUri *)
          | Some mongodbUri =>
              let p := length (attempts w) in
              (Await p,
               {| cached := {| conn := None; promise := Some p |};
                  attempts := attempts w ++ [(mongodbUri, None)];
                  disconnects := disconnects w |})
          end
      end
  end.

(** The driver settles the promise [p]; when it fulfils, the callback of
    [.then] stores the result: [cached.conn = result]. *)
Definition settle (p : nat) (o : outcome Mongoose) (w : World) : World :=
  match attempts w !! p with
  | Some (uri, None) =>
      {| cached :=
           match o with
           | Returns result =>
               {| conn := Some result; promise := promise (cached w) |}
           | Throws _ => cached w
           end;
         attempts := <[p := (uri, Some o)]> (attempts w);
         disconnects := disconnects w |}
  | _ => w
  end.

(** [connectToDatabase()] after [await cached.promise], when the promise
    was settled with [o]: [return cached.conn!], or the [catch] block. *)
Definition connect_resume (o : outcome Mongoose) (w : World)
    : outcome (option Mongoose) * World :=
  match o with
  | Returns _ => (Returns (conn (cached w)), w)
  | Throws error =>
      (Throws error,
       with_cached {| conn := conn (cached w); promise := None |} w)
  end.

(** What a call that returned [cached.promise] resolves to. *)
Definition joined (o : outcome Mongoose) : outcome (option Mongoose) :=
  match o with
  | Returns result => Returns (Some result)
  | Throws e => Throws e
  end.

(** [await connectToDatabase()] when no other call is under way between
    the call and its end: a pending promise is settled by the driver with
    [driver], and the call that made it goes on first. *)
Definition connectToDatabase (MONGODB_URI : option jsstring)
    (driver : outcome Mongoose) (w : World)
    : outcome (option Mongoose) * World :=
  match connect_start MONGODB_URI w with
  | (Return c, w) => (Returns (Some c), w)
  | (ThrowNow e, w) => (Throws e, w)
  | (Await p, w) => connect_resume driver (settle p driver w)
  | (ReturnPromise p, w) =>
      match attempts w !! p with
      | Some (_, Some o) => (joined o, w)
      | _ => (joined driver, (connect_resume driver (settle p driver w)).2)
      end
  end.

(** [await disconnectFromDatabase()], where [await
    cached.conn.disconnect()] ends as [driver] says. *)
Definition disconnectFromDatabase (driver : outcome unit) (w : World)
    : outcome unit * World :=
  match conn (cached w) with
  | Some c =>
      let w := {| cached := cached w; attempts := attempts w;
                  disconnects := disconnects w ++ [c] |} in
      match driver with
      | Returns _ =>
          (Returns tt, with_cached {| conn := None; promise := None |} w)
      | Throws e => (Throws e, w)
      end
  | None => (Returns tt, w)
  end.

(** *** The calls of [connectToDatabase] that overlap

    A run is a sequence of actions: a call arrives and runs up to its
    [await]; the driver settles a promise; the call that made a promise
    goes on after its [await].  [waiting] holds the promises whose makers
    have not gone on yet. *)
Inductive action : Type :=
| Call (MONGODB_URI : option jsstring)
| Settle (p : nat) (o : outcome Mongoose)
| Resume (p : nat).

Record Run : Type := {
  world : World;
  waiting : list nat
}.

Definition step (r : Run) (e : action) : Run :=
  match e with
  | Call uri =>
      match connect_start uri (world r) with
      | (Await p, w) => {| world := w; waiting := p :: waiting r |}
      | (_, w) => {| world := w; waiting := waiting r |}
      end
  | Settle p o => {| world := settle p o (world r); waiting := waiting r |}
  | Resume p =>
      match attempts (world r) !! p with
      | Some (_, Some o) =>
          if bool_decide (p ∈ waiting r)
          then {| world := (connect_resume o (world r)).2;
                  waiting := List.filter (λ q, negb (q =? p)%nat) (waiting r) |}
          else r
      | _ => r
      end
  end.

Definition run (es : list action) : Run :=
  fold_left step es {| world := idle; waiting := [] |}.

(** The promises that are pending. *)
Definition pending (w : World) : list nat :=
  List.filter (λ p, match attempts w !! p with
                    | Some (_, None) => true
                    | _ => false
                    end)
              (seq 0 (length (attempts w))).

(** What every run keeps: a pending promise is the promise of the cache
    and the cache has no connection then; the makers that wait made the
    promise of the cache; a promise that was fulfilled left its result as
    the connection of the cache. *)
Definition cache_inv (r : Run) : Prop :=
  (∀ p uri, attempts (world r) !! p = Some (uri, None) →
            promise (cached (world r)) = Some p
            ∧ conn (cached (world r)) = None)
  ∧ (∀ p, p ∈ waiting r → promise (cached (world r)) = Some p)
  ∧ (∀ p uri m, attempts (world r) !! p = Some (uri, Some (Returns m)) →
                conn (cached (world r)) = Some m).

(** ** app/api/events/[slug]/route.ts *)

(** [s.includes(search)] *)
Fixpoint starts_with (search s : jsstring) : bool :=
  match search, s with
  | [], _ => true
  | a :: search', b :: s' => (a =? b) && starts_with search' s'
  | _ :: _, [] => false
  end.

Fixpoint includes (search s : jsstring) : bool :=
  starts_with search s
  || match s with
     | [] => false
     | _ :: tl => includes search tl
     end.

(** The body and the status of [NextResponse.json(body, { status })]:
    the body holds a message and an error text or an event (with its
    [_id]). *)
Record Response : Type := {
  status : Z;
  body_message : jsstring;
  body_error : option jsstring;
  body_event : option (N * IEvent)
}.

(** [Event.findOne({ slug }).lean()]: the value of the filter is cast by
    the setters of the path; the answer is the first event with that slug
    in the order of the collection (here the order of the map; the unique
    index leaves one event at most). *)
Definition Event_findOne_slug (unicodeLower : jsstring → jsstring)
    (s : jsstring) (db : Store) : option (N * IEvent) :=
  head (filter (λ kv, slug kv.2 = cast_slug unicodeLower s)
               (map_to_list (events db))).

(** The [catch] block. *)
Definition GET_catch (error : thrown) : Response :=
  match error with
  | JsError name message =>
      if includes (str "MONGODB_URI") message then
        {| status := 500; body_message := str "Database configuration error";
           body_error := Some (str "Unable to connect to database");
           body_event := None |}
      else if bool_decide (name = str "CastError") then
        {| status := 400; body_message := str "Invalid slug format";
           body_error := Some message; body_event := None |}
      else
        {| status := 500; body_message := str "Failed to retrieve event";
           body_error := Some message; body_event := None |}
  | NotAnError =>
      {| status := 500; body_message := str "Failed to retrieve event";
         body_error := Some (str "Unknown error"); body_event := None |}
  end.

(** [GET(request, { params })]: [slug] is the route parameter, [driver]
    is how a connection attempt ends, [query] is the error of the query
    when the query fails.  The result is the state of the connection
    cache, what [console.error] has logged, and the response. *)
Definition GET (unicodeLower : jsstring → jsstring)
    (MONGODB_URI : option jsstring) (driver : outcome N)
    (query : option thrown) (slug : jsstring) (w : World) (db : Store)
    : World * list thrown * Response :=
  match connectToDatabase MONGODB_URI driver w with
  | (Throws error, w) => (w, [error], GET_catch error)
  | (Returns _, w) =>
      (* !slug || typeof slug !== 'string' || slug.trim() === '' *)
      if bool_decide (slug = []) || bool_decide (trim slug = []) then
        (w, [],
         {| status := 400; body_message := str "Invalid slug parameter";
            body_error := Some (str "Slug must be a non-empty string");
            body_event := None |})
      else
        let sanitizedSlug := toLowerCase unicodeLower (trim slug) in
        match query with
        | Some error => (w, [error], GET_catch error)
        | None =>
            match Event_findOne_slug unicodeLower sanitizedSlug db with
            | None =>
                (w, [],
                 {| status := 404; body_message := str "Event not found";
                    body_error := Some (str "No event exists with slug: "
                                        ++ sanitizedSlug);
                    body_event := None |})
            | Some event =>
                (w, [],
                 {| status := 200;
                    body_message := str "Event retrieved successfully";
                    body_error := None; body_event := Some event |})
            end
        end
  end.

(** * Properties *)

(** Rewriting with every equation of the context. *)
Ltac rewrite_hyps :=
  repeat match goal with H : _ = _ |- _ => rewrite H end.

(** ** The matcher *)

Lemma reach_refl st : reach st st.
Proof. exists 0%nat. split; [lia|]. split; [lia|]. by rewrite drop_0. Qed.

Lemma reach_trans st1 st2 st3 : reach st1 st2 → reach st2 st3 → reach st1 st3.
Proof.
  intros (n & Hn & Hp & Hr) (m & Hm & Hp' & Hr').
  exists (n + m)%nat. rewrite Hr in Hm, Hr'. rewrite length_drop in Hm.
  split; [lia|]. split; [lia|]. by rewrite Hr', drop_drop.
Qed.

Lemma reach_length st st' : reach st st' → (length (rest st') ≤ length (rest st))%nat.
Proof. intros (n & Hn & _ & ->). rewrite length_drop. lia. Qed.

Lemma reach_advance st c tl : rest st = c :: tl → reach st (advance st tl).
Proof.
  intros E. exists 1%nat. rewrite E. simpl. split; [lia|]. split; [lia|].
  by rewrite drop_0.
Qed.

Lemma reach_capture n st st1 : reach st st1 → reach st (capture n st st1).
Proof. intros (m & ? & ? & ?). by exists m. Qed.

Lemma star_loop_ext (m : mstate → cont → option mstate) :
  (∀ st k k', (∀ st', reach st st' → k st' = k' st') → m st k = m st k') →
  ∀ fuel st k k', (∀ st', reach st st' → k st' = k' st') →
    star_loop m fuel st k = star_loop m fuel st k'.
Proof.
  intros Hm fuel. induction fuel as [|fuel IH]; intros st k k' Hk; simpl.
  - apply Hk, reach_refl.
  - rewrite (Hk st (reach_refl st)).
    erewrite Hm; [reflexivity|].
    intros st1 H1. simpl. destruct (_ <? _)%nat; [|done].
    apply IH. intros st2 H2. apply Hk. by eapply reach_trans.
Qed.

(** The matcher calls its continuation on states reached from [st] only. *)
Lemma rmatch_ext r : ∀ st k k',
  (∀ st', reach st st' → k st' = k' st') → rmatch r st k = rmatch r st k'.
Proof.
  induction r as [|p|r1 IH1 r2 IH2|r1 IH1 r2 IH2|r IH| | |n r IH];
    intros st k k' Hk; simpl.
  - apply Hk, reach_refl.
  - destruct (rest st) as [|c tl] eqn:E; [done|].
    destruct (p c); [|done]. by apply Hk, (reach_advance _ c).
  - apply IH1. intros st1 H1. apply IH2. intros st2 H2.
    apply Hk. by eapply reach_trans.
  - by rewrite (IH1 _ _ _ Hk), (IH2 _ _ _ Hk).
  - by apply star_loop_ext.
  - destruct (_ =? _)%nat; [|done]. apply Hk, reach_refl.
  - destruct (rest st); [|done]. apply Hk, reach_refl.
  - apply IH. intros st1 H1. by apply Hk, reach_capture.
Qed.

Lemma star_loop_sound (m : mstate → cont → option mstate) :
  (∀ st k x, m st k = Some x → ∃ st', reach st st' ∧ k st' = Some x) →
  ∀ fuel st k x, star_loop m fuel st k = Some x →
    ∃ st', reach st st' ∧ k st' = Some x.
Proof.
  intros Hm fuel. induction fuel as [|fuel IH]; intros st k x; simpl.
  - intros H. exists st. split; [apply reach_refl|done].
  - destruct (m st _) as [y|] eqn:E.
    + intros [= ->]. apply Hm in E as (st1 & H1 & E).
      destruct (_ <? _)%nat; [|done].
      apply IH in E as (st2 & H2 & E). exists st2. split; [|done].
      by eapply reach_trans.
    + intros H. exists st. split; [apply reach_refl|done].
Qed.

(** A successful match ends in a call of the continuation that succeeded. *)
Lemma rmatch_sound r : ∀ st k x,
  rmatch r st k = Some x → ∃ st', reach st st' ∧ k st' = Some x.
Proof.
  induction r as [|p|r1 IH1 r2 IH2|r1 IH1 r2 IH2|r IH| | |n r IH];
    intros st k x; simpl.
  - intros H. exists st. split; [apply reach_refl|done].
  - destruct (rest st) as [|c tl] eqn:E; [done|].
    destruct (p c); [|done]. intros H. exists (advance st tl).
    split; [by apply (reach_advance _ c)|done].
  - intros H. apply IH1 in H as (st1 & H1 & H).
    apply IH2 in H as (st2 & H2 & H). exists st2. split; [|done].
    by eapply reach_trans.
  - destruct (rmatch r1 st k) as [y|] eqn:E.
    + intros [= ->]. by apply IH1.
    + by apply IH2.
  - by apply star_loop_sound.
  - destruct (_ =? _)%nat; [|done]. intros H. exists st.
    split; [apply reach_refl|done].
  - destruct (rest st); [|done]. intros H. exists st.
    split; [apply reach_refl|done].
  - intros H. apply IH in H as (st1 & H1 & H). exists (capture n st st1).
    split; [by apply reach_capture|done].
Qed.

Lemma rmatch_fail r st : rmatch r st (λ _, None) = None.
Proof.
  destruct (rmatch r st (λ _, None)) as [x|] eqn:E; [|done].
  by apply rmatch_sound in E as (? & _ & ?).
Qed.

(** The fuel of [Star] is never short. *)
Lemma star_loop_fuel r : ∀ f1 f2 st k,
  (length (rest st) ≤ f1)%nat → (length (rest st) ≤ f2)%nat →
  star_loop (rmatch r) f1 st k = star_loop (rmatch r) f2 st k.
Proof.
  assert (Hz : ∀ f st k, length (rest st) = 0%nat →
                         star_loop (rmatch r) f st k = k st).
  { intros [|f] st k Hl; simpl; [done|].
    erewrite rmatch_ext; [by rewrite rmatch_fail|].
    intros st1 H1. simpl. rewrite Hl.
    by destruct (Nat.ltb_spec (length (rest st1)) 0); [lia|]. }
  induction f1 as [|f1 IH]; intros f2 st k H1 H2.
  - rewrite !Hz; [done|lia|lia].
  - destruct f2 as [|f2]; [rewrite !Hz; [done|lia|lia]|]. simpl.
    erewrite rmatch_ext; [reflexivity|].
    intros st1 Hr. simpl.
    destruct (Nat.ltb_spec (length (rest st1)) (length (rest st))); [|done].
    apply IH; lia.
Qed.

Lemma star_unfold r st k :
  rmatch (Star r) st k =
  match rmatch r st (λ st1, if (length (rest st1) <? length (rest st))%nat
                            then rmatch (Star r) st1 k else None) with
  | Some x => Some x
  | None => k st
  end.
Proof.
  cbn [rmatch]. destruct (length (rest st)) as [|n] eqn:El; cbn [star_loop].
  - rewrite (rmatch_ext r st _ (λ _, None)); [by rewrite rmatch_fail|].
    intros st1 _. cbn beta.
    by destruct (Nat.ltb_spec (length (rest st1)) 0); [lia|].
  - erewrite rmatch_ext; [reflexivity|].
    intros st1 _. cbn beta. rewrite El.
    destruct (Nat.ltb_spec (length (rest st1)) (S n)); [|done].
    apply star_loop_fuel; lia.
Qed.

(** A starred class: one more unit of the class first, the continuation
    when that fails. *)
Lemma star_cls p st k :
  rmatch (Star (Cls p)) st k =
  match rest st with
  | c :: tl =>
      if p c then
        match rmatch (Star (Cls p)) (advance st tl) k with
        | Some x => Some x
        | None => k st
        end
      else k st
  | [] => k st
  end.
Proof.
  rewrite star_unfold. cbn [rmatch].
  destruct (rest st) as [|c tl] eqn:E; [done|].
  destruct (p c); [|done]. cbn [advance rest].
  by destruct (Nat.ltb_spec (length tl) (length (c :: tl))); [|simpl in *; lia].
Qed.

Lemma match_at_reach r idx s st :
  match_at r idx s = Some st → reach (MState idx s []) st.
Proof.
  unfold match_at. intros H. apply rmatch_sound in H as (st' & Hr & [= ->]).
  done.
Qed.

Lemma exec_from_reach r : ∀ s idx start st,
  exec_from r idx s = Some (start, st) →
  (idx ≤ start)%nat ∧ (start - idx ≤ length s)%nat
  ∧ reach (MState start (drop (start - idx) s) []) st.
Proof.
  induction s as [|c tl IH]; intros idx start st; simpl.
  - destruct (match_at r idx []) as [st'|] eqn:E; [|done].
    intros [= <- <-]. split; [lia|]. split; [lia|].
    rewrite Nat.sub_diag. by apply (match_at_reach r).
  - destruct (match_at r idx (c :: tl)) as [st'|] eqn:E.
    + intros [= <- <-]. split; [lia|]. split; [lia|].
      rewrite Nat.sub_diag. by apply (match_at_reach r).
    + intros H. apply IH in H as (H1 & H2 & H3).
      split; [lia|]. split; [lia|].
      replace (start - idx)%nat with (S (start - S idx)) by lia. done.
Qed.

Section Replace.

Variable r : regex.
Variable rep : jsstring.

Lemma replace_loop_fuel : ∀ f1 f2 idx s,
  (length s < f1)%nat → (length s < f2)%nat →
  replace_loop f1 r rep idx s = replace_loop f2 r rep idx s.
Proof.
  induction f1 as [|f1 IH]; intros f2 idx s H1 H2; [lia|].
  destruct f2 as [|f2]; [lia|]. cbn [replace_loop].
  destruct (exec_from r idx s) as [[start st]|] eqn:E; [|done].
  apply exec_from_reach in E as (Hi & Hl & (n & Hn & Hp & Hr)).
  cbn [pos rest] in Hn, Hp, Hr. rewrite length_drop in Hn.
  do 2 f_equal. destruct (Nat.eqb_spec (pos st) start) as [Heq|Hne].
  - destruct (drop (start - idx) s) as [|c tl] eqn:Ed; [done|].
    f_equal. apply (f_equal length) in Ed. rewrite length_drop in Ed.
    simpl in Ed. apply IH; lia.
  - apply IH; rewrite Hr, !length_drop; lia.
Qed.

Lemma replace_loop_S f idx s :
  replace_loop (S f) r rep idx s =
  match exec_from r idx s with
  | None => s
  | Some (start, st) =>
      take (start - idx) s ++ rep ++
      (if (pos st =? start)%nat
       then match drop (start - idx) s with
            | [] => []
            | c :: tl => c :: replace_loop f r rep (S start) tl
            end
       else replace_loop f r rep (pos st) (rest st))
  end.
Proof. done. Qed.

Lemma replace_loop_step f idx s :
  (length s < f)%nat →
  replace_loop f r rep idx s =
  match match_at r idx s with
  | Some st =>
      rep ++ (if (pos st =? idx)%nat
              then match s with
                   | [] => []
                   | c :: tl => c :: replace_loop f r rep (S idx) tl
                   end
              else replace_loop f r rep (pos st) (rest st))
  | None =>
      match s with
      | [] => []
      | c :: tl => c :: replace_loop f r rep (S idx) tl
      end
  end.
Proof.
  destruct f as [|f]; [lia|]. intros Hf.
  rewrite replace_loop_S. destruct s as [|c tl]; cbn [exec_from].
  - destruct (match_at r idx []) as [st|] eqn:E; [|done].
    rewrite Nat.sub_diag, take_0, drop_0. cbn [app]. f_equal.
    destruct (Nat.eqb_spec (pos st) idx) as [Heq|Hne]; [done|].
    apply match_at_reach in E as (n & Hn & Hp & Hr). simpl in *. lia.
  - cbn [length] in Hf.
    destruct (match_at r idx (c :: tl)) as [st|] eqn:E.
    + rewrite Nat.sub_diag, take_0, drop_0. cbn [app]. f_equal.
      destruct (Nat.eqb_spec (pos st) idx) as [Heq|Hne].
      * f_equal. apply replace_loop_fuel; lia.
      * apply match_at_reach in E as (n & Hn & Hp & Hr). cbn [pos rest] in *.
        apply replace_loop_fuel; rewrite Hr, length_drop; simpl; lia.
    + rewrite (replace_loop_S f (S idx) tl).
      destruct (exec_from r (S idx) tl) as [[start st]|] eqn:E'; [|done].
      apply exec_from_reach in E' as (Hi & Hl & (n & Hn & Hp & Hr)).
      cbn [pos rest] in Hn, Hp, Hr. rewrite length_drop in Hn.
      replace (start - idx)%nat with (S (start - S idx)) by lia.
      cbn [take drop app]. done.
Qed.

(** The replacement loop on its own terms: the pattern is tried at the
    current index; a match is replaced, a code unit without a match is
    copied. *)
Lemma replace_run_step idx s :
  replace_run r rep idx s =
  match match_at r idx s with
  | Some st =>
      rep ++ (if (pos st =? idx)%nat
              then match s with
                   | [] => []
                   | c :: tl => c :: replace_run r rep (S idx) tl
                   end
              else replace_run r rep (pos st) (rest st))
  | None =>
      match s with
      | [] => []
      | c :: tl => c :: replace_run r rep (S idx) tl
      end
  end.
Proof.
  unfold replace_run. rewrite replace_loop_step by lia.
  destruct (match_at r idx s) as [st|] eqn:E.
  - f_equal. destruct (Nat.eqb_spec (pos st) idx) as [Heq|Hne].
    + destruct s as [|c tl]; [done|]. f_equal.
      apply replace_loop_fuel; simpl; lia.
    + apply match_at_reach in E as (n & Hn & Hp & Hr). cbn [pos rest] in *.
      apply replace_loop_fuel; rewrite Hr, length_drop; lia.
  - destruct s as [|c tl]; [done|]. f_equal.
    apply replace_loop_fuel; simpl; lia.
Qed.

End Replace.

Lemma replace_g_run r rep s : replace_g r rep s = replace_run r rep 0 s.
Proof. done. Qed.

(** ** The four replacements of [generateSlug] *)

Lemma rmatch_seq r1 r2 st k :
  rmatch (Seq r1 r2) st k = rmatch r1 st (λ st1, rmatch r2 st1 k).
Proof. done. Qed.

Lemma rmatch_alt r1 r2 st k :
  rmatch (Alt r1 r2) st k =
  match rmatch r1 st k with Some x => Some x | None => rmatch r2 st k end.
Proof. done. Qed.

Lemma rmatch_cls p st k :
  rmatch (Cls p) st k =
  match rest st with
  | c :: tl => if p c then k (advance st tl) else None
  | [] => None
  end.
Proof. done. Qed.

Lemma rmatch_bol st k :
  rmatch Bol st k = if (pos st =? 0)%nat then k st else None.
Proof. done. Qed.

Lemma rmatch_eol st k :
  rmatch Eol st k = match rest st with [] => k st | _ :: _ => None end.
Proof. done. Qed.

Lemma rmatch_grp n r st k :
  rmatch (Grp n r) st k = rmatch r st (λ st1, k (capture n st st1)).
Proof. done. Qed.

Lemma rmatch_empty st k : rmatch Empty st k = k st.
Proof. done. Qed.

Lemma rmatch_chr c st k :
  rmatch (Chr c) st k =
  match rest st with
  | d :: tl => if d =? c then k (advance st tl) else None
  | [] => None
  end.
Proof. done. Qed.

(** One step of the matcher on every pattern but a starred one. *)
Ltac rmatch_step :=
  first [ rewrite rmatch_seq | rewrite rmatch_alt | rewrite rmatch_cls
        | rewrite rmatch_chr | rewrite rmatch_bol | rewrite rmatch_eol
        | rewrite rmatch_grp | rewrite rmatch_empty ];
  unfold advance, capture; cbn beta iota delta [rest pos caps].

Lemma skip_while_length p s : (length (skip_while p s) ≤ length s)%nat.
Proof. induction s as [|c tl IH]; simpl; [lia|]. destruct (p c); simpl; lia. Qed.

(** A starred class in front of an accepting continuation takes the whole
    run. *)
Lemma star_cls_accept p : ∀ s i cs,
  rmatch (Star (Cls p)) (MState i s cs) Some =
  Some (MState (i + span p s) (skip_while p s) cs).
Proof.
  induction s as [|c tl IH]; intros i cs; rewrite star_cls;
    cbn [rest span skip_while].
  - by rewrite Nat.add_0_r.
  - destruct (p c).
    + unfold advance. cbn [pos caps]. rewrite IH. do 2 f_equal. lia.
    + by rewrite Nat.add_0_r.
Qed.

(** A starred class in front of [$]: the run has to reach the end. *)
Lemma star_cls_eol p : ∀ s i cs,
  rmatch (Star (Cls p)) (MState i s cs) (λ st, rmatch Eol st Some) =
  if forallb p s then Some (MState (i + length s) [] cs) else None.
Proof.
  induction s as [|c tl IH]; intros i cs; rewrite star_cls;
    cbn [rest forallb length].
  - rewrite rmatch_eol. cbn [rest]. by rewrite Nat.add_0_r.
  - destruct (p c); cbn [andb]; [|by rewrite rmatch_eol].
    unfold advance. cbn [pos caps]. rewrite IH.
    destruct (forallb p tl); [|by rewrite rmatch_eol].
    do 2 f_equal. lia.
Qed.

Lemma succ_eqb (i : nat) : (S i =? i)%nat = false.
Proof. apply Nat.eqb_neq. lia. Qed.

Lemma match_at_special idx s :
  match_at special_re idx s =
  match s with
  | c :: tl =>
      if is_word c || is_space c || is_hyphen c then None
      else Some (MState (S idx) tl [])
  | [] => None
  end.
Proof.
  unfold match_at, special_re. rmatch_step. destruct s as [|c tl]; [done|].
  by destruct (is_word c || is_space c || is_hyphen c).
Qed.

Lemma replace_special s : replace_g special_re [] s = remove_special s.
Proof.
  rewrite replace_g_run. generalize 0%nat.
  induction s as [|c tl IH]; intros idx; rewrite replace_run_step,
    match_at_special; [done|].
  cbn [remove_special List.filter].
  destruct (is_word c || is_space c || is_hyphen c).
  - f_equal. apply IH.
  - cbn [pos rest app]. rewrite succ_eqb. apply IH.
Qed.

Lemma collapse_spaces_skip s :
  collapse_spaces true s = collapse_spaces false (skip_while is_space s).
Proof.
  induction s as [|c tl IH]; simpl; [done|].
  destruct (is_space c) eqn:E; [done|]. simpl. by rewrite E.
Qed.

Lemma match_at_spaces idx s :
  match_at spaces_re idx s =
  match s with
  | c :: tl =>
      if is_space c
      then Some (MState (S idx + span is_space tl) (skip_while is_space tl) [])
      else None
  | [] => None
  end.
Proof.
  unfold match_at, spaces_re, Plus. do 2 rmatch_step.
  destruct s as [|c tl]; [done|]. destruct (is_space c); [|done].
  apply star_cls_accept.
Qed.

(** Strong induction on the length of a string. *)
Lemma length_ind (P : jsstring → Prop) :
  (∀ s, (∀ t, (length t < length s)%nat → P t) → P s) → ∀ s, P s.
Proof.
  intros H s. remember (length s) as n eqn:E.
  revert s E. induction (lt_wf n) as [n _ IH]. intros s ->.
  apply H. intros t Ht. by apply (IH (length t)).
Qed.

Lemma plus_succ_eqb (i n : nat) : (S i + n =? i)%nat = false.
Proof. apply Nat.eqb_neq. lia. Qed.

Lemma replace_spaces s :
  replace_g spaces_re (str "-") s = collapse_spaces false s.
Proof.
  rewrite replace_g_run. generalize 0%nat.
  induction s as [s IH] using length_ind. intros idx.
  rewrite replace_run_step, match_at_spaces.
  destruct s as [|c tl]; [done|]. cbn [collapse_spaces].
  destruct (is_space c).
  - cbn [pos rest]. rewrite plus_succ_eqb, collapse_spaces_skip.
    change (str "-" ++ ?x) with (HYPHEN :: x). f_equal.
    apply IH. pose proof (skip_while_length is_space tl). simpl. lia.
  - f_equal. apply IH. simpl. lia.
Qed.

Lemma collapse_hyphens_skip s :
  collapse_hyphens true s = collapse_hyphens false (skip_while is_hyphen s).
Proof.
  induction s as [|c tl IH]; simpl; [done|].
  destruct (is_hyphen c) eqn:E; [done|]. simpl. by rewrite E.
Qed.

Lemma match_at_hyphens idx s :
  match_at hyphens_re idx s =
  match s with
  | c1 :: c2 :: tl =>
      if is_hyphen c1 && is_hyphen c2
      then Some (MState (S (S idx) + span is_hyphen tl)
                        (skip_while is_hyphen tl) [])
      else None
  | _ => None
  end.
Proof.
  unfold match_at, hyphens_re, Plus.
  change (Chr (ch "-")) with (Cls is_hyphen). do 2 rmatch_step.
  destruct s as [|c1 tl]; [done|]. destruct (is_hyphen c1); [|by destruct tl].
  do 2 rmatch_step. destruct tl as [|c2 tl]; [done|].
  destruct (is_hyphen c2); [|done]. apply star_cls_accept.
Qed.

Lemma is_hyphen_eq c : is_hyphen c = true → c = HYPHEN.
Proof. unfold is_hyphen. by intros ?%N.eqb_eq. Qed.

Lemma replace_hyphens s :
  replace_g hyphens_re (str "-") s = collapse_hyphens false s.
Proof.
  rewrite replace_g_run. generalize 0%nat.
  induction s as [s IH] using length_ind. intros idx.
  rewrite replace_run_step, match_at_hyphens.
  destruct s as [|c1 tl]; [done|]. cbn [collapse_hyphens].
  destruct tl as [|c2 tl].
  - rewrite (IH []) by (simpl; lia). by destruct (is_hyphen c1) eqn:E1;
      [apply is_hyphen_eq in E1 as ->|].
  - destruct (is_hyphen c1) eqn:E1; cbn [andb].
    + destruct (is_hyphen c2) eqn:E2.
      * cbn [pos rest collapse_hyphens]. rewrite E2.
        replace (S (S idx) + span is_hyphen tl =? idx)%nat with false
          by (symmetry; apply Nat.eqb_neq; lia).
        rewrite collapse_hyphens_skip.
        change (str "-" ++ ?x) with (HYPHEN :: x). f_equal.
        apply IH. pose proof (skip_while_length is_hyphen tl). simpl. lia.
      * apply is_hyphen_eq in E1 as ->. f_equal.
        rewrite IH by (simpl; lia). cbn [collapse_hyphens]. by rewrite E2.
    + f_equal. apply IH. simpl. lia.
Qed.

Lemma skip_while_app p l1 l2 :
  skip_while p (l1 ++ l2) =
  if forallb p l1 then skip_while p l2 else skip_while p l1 ++ l2.
Proof.
  induction l1 as [|c tl IH]; simpl; [done|].
  destruct (p c); simpl; [apply IH|done].
Qed.

Lemma forallb_rev (p : N → bool) l : forallb p (rev l) = forallb p l.
Proof.
  induction l as [|c tl IH]; simpl; [done|].
  rewrite forallb_app, IH. simpl. rewrite andb_true_r. apply andb_comm.
Qed.

Lemma skip_while_all p l : forallb p l = true → skip_while p l = [].
Proof.
  induction l as [|c tl IH]; simpl; [done|]. by destruct (p c).
Qed.

Lemma strip_trailing_cons c tl :
  strip_trailing_hyphens (c :: tl) =
  if forallb is_hyphen (c :: tl) then []
  else c :: strip_trailing_hyphens tl.
Proof.
  unfold strip_trailing_hyphens. cbn [rev forallb].
  rewrite skip_while_app, forallb_rev. destruct (forallb is_hyphen tl) eqn:E.
  - rewrite andb_true_r. cbn [skip_while]. destruct (is_hyphen c); [done|].
    rewrite skip_while_all by (by rewrite forallb_rev). done.
  - rewrite andb_false_r. by rewrite rev_app_distr.
Qed.

Lemma match_at_edges idx s :
  match_at edges_re idx s =
  match s with
  | c :: tl =>
      if is_hyphen c then
        if (idx =? 0)%nat
        then Some (MState (S idx + span is_hyphen tl) (skip_while is_hyphen tl) [])
        else if forallb is_hyphen tl
             then Some (MState (S idx + length tl) [] [])
             else None
      else None
  | [] => None
  end.
Proof.
  unfold match_at, edges_re, Plus.
  change (Chr (ch "-")) with (Cls is_hyphen). repeat rmatch_step.
  destruct s as [|c tl].
  - by destruct (idx =? 0)%nat.
  - destruct (is_hyphen c); [|by destruct (idx =? 0)%nat].
    destruct (idx =? 0)%nat.
    + by rewrite star_cls_accept.
    + apply star_cls_eol.
Qed.

Lemma replace_edges_inner : ∀ s idx,
  idx ≠ 0%nat → replace_run edges_re [] idx s = strip_trailing_hyphens s.
Proof.
  induction s as [|c tl IH]; intros idx Hi;
    rewrite replace_run_step, match_at_edges; [done|].
  rewrite strip_trailing_cons. cbn [forallb].
  destruct (Nat.eqb_spec idx 0) as [|_]; [done|].
  destruct (is_hyphen c); cbn [andb]; [|by rewrite IH].
  destruct (forallb is_hyphen tl); [|by rewrite IH].
  cbn [pos rest app]. replace (S idx + length tl =? idx)%nat with false
    by (symmetry; apply Nat.eqb_neq; lia).
  by rewrite replace_run_step, match_at_edges.
Qed.

Lemma replace_edges s : replace_g edges_re [] s = strip_hyphens s.
Proof.
  rewrite replace_g_run, replace_run_step, match_at_edges.
  unfold strip_hyphens. destruct s as [|c tl]; [done|].
  cbn [skip_while Nat.eqb]. destruct (is_hyphen c) eqn:E.
  - cbn [pos rest app Nat.add Nat.eqb]. by rewrite replace_edges_inner by lia.
  - rewrite replace_edges_inner by lia. rewrite strip_trailing_cons.
    cbn [forallb]. by rewrite E.
Qed.

(** The slug as the source computes it is the slug as the specification
    words it. *)
Lemma generateSlug_slug_spec U title : generateSlug U title = slug_spec U title.
Proof.
  unfold generateSlug, slug_spec.
  by rewrite replace_special, replace_spaces, replace_hyphens, replace_edges.
Qed.

(** ** The shape of a slug *)

(** Facts on the classes of code units, by arithmetic. *)
Ltac cls_unfold :=
  unfold slug_char, is_word, is_space, is_hyphen, is_lower, is_upper,
    is_digit, is_ascii, in_range, lower_ascii, upper_ascii, HYPHEN in *.

Ltac cls_cases :=
  repeat match goal with
    | |- context [N.leb ?a ?b] => destruct (N.leb_spec a b); try lia
    | |- context [N.ltb ?a ?b] => destruct (N.ltb_spec a b); try lia
    | |- context [N.eqb ?a ?b] => destruct (N.eqb_spec a b); try lia
    | H : context [N.leb ?a ?b] |- _ => destruct (N.leb_spec a b); try lia
    | H : context [N.ltb ?a ?b] |- _ => destruct (N.ltb_spec a b); try lia
    | H : context [N.eqb ?a ?b] |- _ => destruct (N.eqb_spec a b); try lia
    end.

Ltac cls := cls_unfold; cls_cases; simpl in *; try done; try lia.

Lemma slug_char_ascii c : slug_char c = true → is_ascii c = true.
Proof. intros H. cls. Qed.

Lemma slug_char_not_upper c : slug_char c = true → is_upper c = false.
Proof. intros H. cls. Qed.

Lemma slug_char_not_space c : slug_char c = true → is_space c = false.
Proof. intros H. cls. Qed.

Lemma slug_char_kept c :
  slug_char c = true → is_word c || is_space c || is_hyphen c = true.
Proof. intros H. cls. Qed.

Lemma kept_slug_char c :
  is_word c || is_space c || is_hyphen c = true →
  is_upper c = false → is_space c = false → slug_char c = true.
Proof. intros H1 H2 H3. cls. Qed.

Lemma hyphen_slug_char : slug_char HYPHEN = true.
Proof. done. Qed.

Lemma lower_ascii_not_upper c : is_upper (lower_ascii c) = false.
Proof. unfold lower_ascii. destruct (is_upper c) eqn:E; [|done]. cls. Qed.

Lemma lower_ascii_id c : is_upper c = false → lower_ascii c = c.
Proof. unfold lower_ascii. by intros ->. Qed.

Lemma elem_of_skip_while p s c : c ∈ skip_while p s → c ∈ s.
Proof.
  induction s as [|d tl IH]; simpl; [done|].
  destruct (p d); [|done]. intros H. right. by apply IH.
Qed.

Lemma elem_of_rev_iff (c : N) l : c ∈ rev l ↔ c ∈ l.
Proof. rewrite !list_elem_of_In. symmetry. apply in_rev. Qed.

Lemma elem_of_trim s c : c ∈ trim s → c ∈ s.
Proof.
  unfold trim, trimEnd, trimStart. rewrite elem_of_rev_iff.
  intros H%elem_of_skip_while. rewrite elem_of_rev_iff in H.
  by apply elem_of_skip_while in H.
Qed.

Lemma elem_of_remove_special s c :
  c ∈ remove_special s → c ∈ s ∧ is_word c || is_space c || is_hyphen c = true.
Proof.
  unfold remove_special. rewrite !list_elem_of_In. apply filter_In.
Qed.

Lemma elem_of_collapse_spaces s : ∀ b c,
  c ∈ collapse_spaces b s → c = HYPHEN ∨ (c ∈ s ∧ is_space c = false).
Proof.
  induction s as [|d tl IH]; intros b c; simpl; [by intros ?%elem_of_nil|].
  destruct (is_space d) eqn:E; [destruct b|].
  - intros [H|[H1 H2]]%IH; [by left|right]. split; [by right|done].
  - intros [->|[H|[H1 H2]]%IH]%elem_of_cons; [by left|by left|right].
    split; [by right|done].
  - intros [->|[H|[H1 H2]]%IH]%elem_of_cons; [right|by left|right].
    + split; [by left|done].
    + split; [by right|done].
Qed.

Lemma elem_of_collapse_hyphens s : ∀ b c,
  c ∈ collapse_hyphens b s → c ∈ s.
Proof.
  induction s as [|d tl IH]; intros b c; simpl; [done|].
  destruct (is_hyphen d) eqn:E; [destruct b|].
  - intros H%IH. by right.
  - apply is_hyphen_eq in E as ->.
    intros [->|H%IH]%elem_of_cons; [by left|by right].
  - intros [->|H%IH]%elem_of_cons; [by left|by right].
Qed.

Lemma elem_of_strip_hyphens s c : c ∈ strip_hyphens s → c ∈ s.
Proof.
  unfold strip_hyphens, strip_trailing_hyphens. rewrite elem_of_rev_iff.
  intros H%elem_of_skip_while. rewrite elem_of_rev_iff in H.
  by apply elem_of_skip_while in H.
Qed.

Lemma toLowerCase_not_upper U s c :
  (∀ t d, d ∈ U t → is_upper d = false) →
  c ∈ toLowerCase U s → is_upper c = false.
Proof.
  intros HU. unfold toLowerCase. destruct (forallb is_ascii s); [|apply HU].
  intros (d & -> & _)%list_elem_of_fmap. apply lower_ascii_not_upper.
Qed.

(** Every unit of the slug is a lowercase word character or a hyphen. *)
Lemma slug_spec_chars U s :
  (∀ t d, d ∈ U t → is_upper d = false) →
  forallb slug_char (slug_spec U s) = true.
Proof.
  intros HU. apply forallb_forall. intros c Hc. apply list_elem_of_In in Hc.
  unfold slug_spec in Hc.
  apply elem_of_strip_hyphens, elem_of_collapse_hyphens,
    elem_of_collapse_spaces in Hc as [->|[Hc Hs]]; [done|].
  apply elem_of_remove_special in Hc as [Hc Hk].
  apply elem_of_trim, (toLowerCase_not_upper _ _ _ HU) in Hc.
  by apply kept_slug_char.
Qed.

Lemma no_double_cons c s :
  no_double_hyphen (c :: s) =
  (negb (is_hyphen c) || hd_not_hyphen s) && no_double_hyphen s.
Proof.
  destruct s as [|d tl]; cbn [no_double_hyphen hd_not_hyphen].
  - by rewrite orb_true_r.
  - by destruct (is_hyphen c), (is_hyphen d).
Qed.

Lemma collapse_hyphens_shape s :
  no_double_hyphen (collapse_hyphens false s) = true
  ∧ no_double_hyphen (collapse_hyphens true s) = true
  ∧ hd_not_hyphen (collapse_hyphens true s) = true.
Proof.
  induction s as [|c tl (IH1 & IH2 & IH3)]; [done|].
  cbn [collapse_hyphens]. destruct (is_hyphen c) eqn:E.
  - split; [|done]. by rewrite no_double_cons, IH3, IH2, orb_true_r.
  - rewrite !no_double_cons, E, IH1. cbn [hd_not_hyphen]. by rewrite E.
Qed.

Lemma skip_while_no_double s :
  no_double_hyphen s = true → no_double_hyphen (skip_while is_hyphen s) = true.
Proof.
  induction s as [|c tl IH]; [done|]. cbn [skip_while].
  destruct (is_hyphen c); [|done]. rewrite no_double_cons.
  intros [_ H]%andb_true_iff. by apply IH.
Qed.

Lemma skip_while_hd s : hd_not_hyphen (skip_while is_hyphen s) = true.
Proof.
  induction s as [|c tl IH]; [done|]. cbn [skip_while].
  destruct (is_hyphen c) eqn:E; [done|]. cbn [hd_not_hyphen]. by rewrite E.
Qed.

Lemma strip_trailing_nil s :
  strip_trailing_hyphens s = [] → forallb is_hyphen s = true.
Proof.
  destruct s as [|c tl]; [done|]. rewrite strip_trailing_cons.
  by destruct (forallb is_hyphen (c :: tl)).
Qed.

Lemma strip_trailing_hd s :
  hd_not_hyphen s = true → hd_not_hyphen (strip_trailing_hyphens s) = true.
Proof.
  destruct s as [|c tl]; [done|]. rewrite strip_trailing_cons.
  by destruct (forallb is_hyphen (c :: tl)).
Qed.

Lemma strip_trailing_no_double s :
  no_double_hyphen s = true →
  no_double_hyphen (strip_trailing_hyphens s) = true.
Proof.
  induction s as [|c tl IH]; [done|]. rewrite strip_trailing_cons.
  destruct (forallb is_hyphen (c :: tl)); [done|].
  rewrite !no_double_cons. intros [H1 H2]%andb_true_iff.
  rewrite IH by done. rewrite andb_true_r.
  apply orb_true_iff in H1 as [->|H1]; [done|].
  by rewrite strip_trailing_hd, orb_true_r.
Qed.

Lemma strip_trailing_last s :
  strip_trailing_hyphens s ≠ [] →
  is_hyphen (List.last (strip_trailing_hyphens s) 0) = false.
Proof.
  induction s as [|c tl IH]; [done|]. rewrite strip_trailing_cons.
  cbn [forallb]. destruct (is_hyphen c) eqn:E; cbn [andb].
  - destruct (forallb is_hyphen tl) eqn:Ea; [done|]. intros _.
    destruct (strip_trailing_hyphens tl) as [|d tl'] eqn:Es.
    + apply strip_trailing_nil in Es. congruence.
    + apply IH. done.
  - intros _. destruct (strip_trailing_hyphens tl) as [|d tl'] eqn:Es; [done|].
    apply IH. done.
Qed.

Lemma strip_hyphens_no_edge s : no_edge_hyphen (strip_hyphens s) = true.
Proof.
  unfold strip_hyphens.
  pose proof (strip_trailing_hd _ (skip_while_hd s)) as Hh.
  pose proof (strip_trailing_last (skip_while is_hyphen s)) as Hl.
  destruct (strip_trailing_hyphens (skip_while is_hyphen s)) as [|c tl]; [done|].
  unfold no_edge_hyphen. cbn [hd_not_hyphen] in Hh. rewrite Hh, Hl; done.
Qed.

Lemma slug_spec_shaped U s :
  (∀ t d, d ∈ U t → is_upper d = false) → slug_shaped (slug_spec U s) = true.
Proof.
  intros HU. unfold slug_shaped. rewrite slug_spec_chars by done.
  unfold slug_spec. rewrite strip_hyphens_no_edge. unfold strip_hyphens.
  rewrite strip_trailing_no_double; [done|].
  apply skip_while_no_double, collapse_hyphens_shape.
Qed.

(** ** A slug is left alone by every step of [generateSlug] *)

Lemma skip_while_none p s :
  forallb (λ c, negb (p c)) s = true → skip_while p s = s.
Proof. destruct s as [|c tl]; [done|]. simpl. by destruct (p c). Qed.

Lemma toLowerCase_slug U s :
  forallb slug_char s = true → toLowerCase U s = s.
Proof.
  intros H. unfold toLowerCase.
  rewrite forallb_forall in H.
  replace (forallb is_ascii s) with true.
  - rewrite <- (map_id s) at 2. apply map_ext_in. intros c Hc.
    by apply lower_ascii_id, slug_char_not_upper, H.
  - symmetry. apply forallb_forall. intros c Hc. by apply slug_char_ascii, H.
Qed.

Lemma slug_no_space s :
  forallb slug_char s = true → forallb (λ c, negb (is_space c)) s = true.
Proof.
  rewrite !forallb_forall. intros H c Hc.
  by rewrite slug_char_not_space by (by apply H).
Qed.

Lemma trim_slug s : forallb slug_char s = true → trim s = s.
Proof.
  intros H%slug_no_space. unfold trim, trimEnd, trimStart.
  rewrite (skip_while_none _ s) by done.
  rewrite skip_while_none by (by rewrite forallb_rev).
  apply rev_involutive.
Qed.

Lemma remove_special_slug s :
  forallb slug_char s = true → remove_special s = s.
Proof.
  unfold remove_special. induction s as [|c tl IH]; [done|].
  cbn [forallb List.filter]. intros [Hc Ht]%andb_true_iff.
  by rewrite slug_char_kept, IH.
Qed.

Lemma collapse_spaces_none s :
  forallb (λ c, negb (is_space c)) s = true → collapse_spaces false s = s.
Proof.
  induction s as [|c tl IH]; [done|]. cbn [forallb collapse_spaces].
  intros [Hc Ht]%andb_true_iff. apply negb_true_iff in Hc. rewrite Hc.
  by rewrite IH.
Qed.

Lemma skip_while_hd_id s :
  hd_not_hyphen s = true → skip_while is_hyphen s = s.
Proof. destruct s as [|c tl]; [done|]. simpl. by destruct (is_hyphen c). Qed.

Lemma collapse_hyphens_none s :
  no_double_hyphen s = true → collapse_hyphens false s = s.
Proof.
  induction s as [|c tl IH]; [done|]. rewrite no_double_cons.
  intros [H1 H2]%andb_true_iff. cbn [collapse_hyphens].
  destruct (is_hyphen c) eqn:E.
  - rewrite collapse_hyphens_skip, skip_while_hd_id, IH by done.
    by apply is_hyphen_eq in E as ->.
  - by rewrite IH.
Qed.

Lemma hd_rev_last s :
  s ≠ [] → hd_not_hyphen (rev s) = negb (is_hyphen (List.last s 0)).
Proof.
  intros Hs. destruct (exists_last Hs) as (l & c & ->).
  by rewrite rev_app_distr, last_last.
Qed.

Lemma strip_hyphens_none s :
  no_edge_hyphen s = true → strip_hyphens s = s.
Proof.
  destruct s as [|c tl]; [done|]. unfold no_edge_hyphen.
  intros [H1 H2]%andb_true_iff. unfold strip_hyphens, strip_trailing_hyphens.
  rewrite (skip_while_hd_id (c :: tl)) by done.
  rewrite skip_while_hd_id by (by rewrite hd_rev_last).
  apply rev_involutive.
Qed.

Lemma slug_spec_fixed U s : slug_shaped s = true → slug_spec U s = s.
Proof.
  unfold slug_shaped. intros [[H1 H2]%andb_true_iff H3]%andb_true_iff.
  unfold slug_spec.
  rewrite toLowerCase_slug, trim_slug, remove_special_slug by done.
  rewrite collapse_spaces_none by (by apply slug_no_space).
  by rewrite collapse_hyphens_none, strip_hyphens_none.
Qed.

(** ** normalizeTime *)

Lemma exec_from_anchored r : ∀ s idx,
  idx ≠ 0%nat → exec_from (Seq Bol r) idx s = None.
Proof.
  assert (H : ∀ idx s, idx ≠ 0%nat → match_at (Seq Bol r) idx s = None).
  { intros idx s Hi. unfold match_at. do 2 rmatch_step.
    by destruct (Nat.eqb_spec idx 0). }
  induction s as [|c tl IH]; intros idx Hi; simpl; rewrite H by done; [done|].
  by apply IH.
Qed.

Lemma exec_anchored r s :
  exec_from (Seq Bol r) 0 s =
  match match_at (Seq Bol r) 0 s with
  | Some st => Some (0%nat, st)
  | None => None
  end.
Proof.
  destruct s as [|c tl]; simpl; [done|].
  destruct (match_at _ _ _); [done|]. by apply exec_from_anchored.
Qed.

(** Case analysis on the comparisons of a goal, dead branches dropped. *)
Ltac cmp_cases :=
  repeat (cbn beta iota delta [andb orb negb fold_left];
          match goal with
          | |- context [N.leb ?a ?b] => destruct (N.leb_spec a b); try lia
          | |- context [N.ltb ?a ?b] => destruct (N.ltb_spec a b); try lia
          | |- context [N.eqb ?a ?b] => destruct (N.eqb_spec a b); try lia
          | |- context [Z.leb ?a ?b] => destruct (Z.leb_spec a b); try lia
          | |- context [Z.eqb ?a ?b] => destruct (Z.eqb_spec a b); try lia
          end).

(** The code units of the pattern characters, as numbers. *)
Ltac ch_norm :=
  repeat match goal with
    | |- context [ch ?a] =>
        let v := eval vm_compute in (ch a) in change (ch a) with v
    end.

Lemma test_time24 c : test time24Regex c = is_24h c.
Proof.
  unfold test, time24Regex. cbn [seqs]. rewrite exec_anchored.
  unfold match_at, Opt, Chr.
  destruct c as [|c1 [|c2 [|c3 [|c4 [|c5 [|c6 tl]]]]]];
    repeat rmatch_step; cbn [Nat.eqb];
    unfold is_24h, split_hmm, decimal, is_digit, in_range; ch_norm;
    cmp_cases; try done.
Qed.

(** A starred class in front of a continuation that fails on every state
    that starts with a unit of the class: the whole run is taken. *)
Lemma star_cls_skip p (k : cont) :
  (∀ st c tl, rest st = c :: tl → p c = true → k st = None) →
  ∀ s i cs, rmatch (Star (Cls p)) (MState i s cs) k =
            k (MState (i + span p s) (skip_while p s) cs).
Proof.
  intros Hk. induction s as [|c tl IH]; intros i cs; rewrite star_cls;
    cbn [rest span skip_while].
  - by rewrite Nat.add_0_r.
  - destruct (p c) eqn:E; [|by rewrite Nat.add_0_r].
    unfold advance. cbn [pos caps]. rewrite IH.
    replace (S i + span p tl)%nat with (i + S (span p tl))%nat by lia.
    destruct (k _) as [x|] eqn:Ek; [done|].
    by apply (Hk _ c tl).
Qed.

Lemma space_not_letter c :
  is_space c = true → (upper_ascii c =? 65) = false ∧ (upper_ascii c =? 80) = false.
Proof.
  intros H. unfold upper_ascii.
  destruct (is_lower c) eqn:E; cls.
Qed.

Lemma upper_ascii_id c : is_lower c = false → upper_ascii c = c.
Proof. unfold upper_ascii. by intros ->. Qed.

(** The end of [time12Regex]: [\s*(AM|PM)$] under the [i] flag, on a string
    without small letters. *)
Lemma ampm_tail i s cs :
  (∀ d, d ∈ s → is_lower d = false) →
  rmatch (Star (Cls is_space)) (MState i s cs)
    (λ st1, rmatch (Seq (Grp 3 (Alt (Seq (ChrI (ch "A")) (ChrI (ch "M")))
                                    (Seq (ChrI (ch "P")) (ChrI (ch "M")))))
                        Eol) st1 Some) =
  if bool_decide (skip_while is_space s = str "AM")
  then Some (MState (i + span is_space s + 2) [] ((3%nat, str "AM") :: cs))
  else if bool_decide (skip_while is_space s = str "PM")
       then Some (MState (i + span is_space s + 2) [] ((3%nat, str "PM") :: cs))
       else None.
Proof.
  intros Hs. rewrite star_cls_skip.
  2: { intros st c tl E Hc. apply space_not_letter in Hc as [H1 H2].
       unfold ChrI. repeat rmatch_step. rewrite E.
       change (upper_ascii (ch "A")) with 65.
       change (upper_ascii (ch "P")) with 80. by rewrite H1, H2. }
  assert (Hl : ∀ d, d ∈ skip_while is_space s → upper_ascii d = d).
  { intros d Hd. by apply upper_ascii_id, Hs, elem_of_skip_while with is_space. }
  generalize (i + span is_space s)%nat. intros j.
  destruct (skip_while is_space s) as [|a [|b l]].
  - by repeat rmatch_step.
  - unfold ChrI. repeat rmatch_step.
    repeat case_bool_decide; try done.
    by destruct (_ =? _), (_ =? _).
  - unfold ChrI. repeat rmatch_step.
    rewrite (Hl a), (Hl b) by (rewrite !elem_of_cons; auto).
    change (upper_ascii (ch "A")) with 65.
    change (upper_ascii (ch "P")) with 80.
    change (upper_ascii (ch "M")) with 77.
    change (str "AM") with [65; 77]. change (str "PM") with [80; 77].
    destruct (N.eqb_spec a 65) as [->|Ha]; [destruct (N.eqb_spec b 77) as [->|Hb]|].
    + destruct l as [|x l]; cbn [rest pos caps Nat.sub Nat.add take firstn].
      * rewrite bool_decide_eq_true_2 by done.
        replace (S (S j) - j)%nat with 2%nat by lia. do 2 f_equal. lia.
      * rewrite !bool_decide_eq_false_2 by done. done.
    + rewrite !bool_decide_eq_false_2 by congruence. done.
    + destruct (N.eqb_spec a 80) as [->|Ha']; [destruct (N.eqb_spec b 77) as [->|Hb]|].
      * destruct l as [|x l]; cbn [rest pos caps Nat.sub Nat.add take firstn].
        -- rewrite bool_decide_eq_false_2, bool_decide_eq_true_2 by done.
           replace (S (S j) - j)%nat with 2%nat by lia. do 2 f_equal. lia.
        -- rewrite !bool_decide_eq_false_2 by done. done.
      * rewrite !bool_decide_eq_false_2 by congruence. done.
      * rewrite !bool_decide_eq_false_2 by congruence. done.
Qed.

Ltac split_ifs :=
  repeat (cbn beta iota;
          match goal with
          | |- context [if ?b then _ else _] => destruct b eqn:?
          end).

Lemma digit_not_colon c : is_digit c = true → (c =? ch ":") = false.
Proof. intros H. change (ch ":") with 58. cls. Qed.

Ltac colon_clash :=
  match goal with
  | H1 : is_digit ?c = true, H2 : (?c =? ch ":") = true |- _ =>
      rewrite (digit_not_colon c H1) in H2; discriminate
  end.

Ltac time12_atoms :=
  repeat (cbn beta iota delta [andb];
          match goal with
          | |- context [is_digit ?c] => destruct (is_digit c) eqn:?
          | |- context [?c =? ch ":"] => destruct (c =? ch ":") eqn:?
          | |- context [bool_decide ?P] => destruct (bool_decide P) eqn:?
          end).

Lemma smatch_time12 c :
  (∀ d, d ∈ c → is_lower d = false) →
  match smatch time12Regex c with
  | Some m =>
      ∃ h mm p, split_12h c = Some (h, mm, p) ∧ group 1 m = Some h
                ∧ group 2 m = Some mm ∧ group 3 m = Some (period_str p)
  | None => split_12h c = None
  end.
Proof.
  intros Hc. unfold smatch, time12Regex. cbn [seqs]. rewrite exec_anchored.
  unfold match_at, Opt, split_12h, split_hmm.
  destruct c as [|c1 [|c2 [|c3 [|c4 tl]]]]; repeat rmatch_step;
    cbn [Nat.eqb].
  1-4: split_ifs; try done; colon_clash.
  assert (H4 : ∀ d, d ∈ tl → is_lower d = false).
  { intros d Hd. apply Hc. rewrite !elem_of_cons. auto. }
  rewrite (ampm_tail _ tl) by done.
  destruct tl as [|c5 tl]; repeat rmatch_step.
  - time12_atoms; try colon_clash; try done.
    all: eexists _, _, _; (split; [reflexivity|]); done.
  - assert (H5 : ∀ d, d ∈ tl → is_lower d = false).
    { intros d Hd. apply H4. rewrite !elem_of_cons. auto. }
    rewrite (ampm_tail _ tl) by done.
    time12_atoms; try colon_clash; try done.
    all: eexists _, _, _; (split; [reflexivity|]); done.
Qed.

Lemma upper_ascii_not_lower c : is_lower (upper_ascii c) = false.
Proof. unfold upper_ascii. destruct (is_lower c) eqn:E; [|done]. cls. Qed.

Lemma toUpperCase_not_lower U s c :
  (∀ t d, d ∈ U t → is_lower d = false) →
  c ∈ toUpperCase U s → is_lower c = false.
Proof.
  intros HU. unfold toUpperCase. destruct (forallb is_ascii s); [|apply HU].
  intros (d & -> & _)%list_elem_of_fmap. apply upper_ascii_not_lower.
Qed.

Lemma split_12h_hour c h mm p :
  split_12h c = Some (h, mm, p) →
  ∃ h1, is_digit h1 = true
        ∧ (h = [h1] ∨ ∃ h2, is_digit h2 = true ∧ h = [h1; h2]).
Proof.
  unfold split_12h, split_hmm.
  destruct c as [|c1 [|c2 tl]]; [done|done|].
  destruct (is_digit c1) eqn:D1; [|done].
  destruct (c2 =? ch ":").
  - destruct tl as [|m1 [|m2 tail]]; [done|done|].
    destruct (is_digit m1 && is_digit m2); [|done].
    intros H. exists c1. split; [done|left]. repeat case_bool_decide; congruence.
  - destruct (is_digit c2) eqn:D2; [|done].
    destruct tl as [|c3 [|m1 [|m2 tail]]]; [done|done|done|].
    destruct ((c3 =? ch ":") && is_digit m1 && is_digit m2); [|done].
    intros H. exists c1. split; [done|right]. exists c2. split; [done|].
    repeat case_bool_decide; congruence.
Qed.

Lemma digit_plain c :
  is_digit c = true →
  is_space c = false ∧ (c =? ch "-") = false ∧ (c =? ch "+") = false
  ∧ (c =? ch "x") = false ∧ (c =? ch "X") = false
  ∧ radix_digit 10 c = Some (Z.of_N (c - 48)).
Proof.
  intros H. unfold radix_digit. rewrite H.
  change (ch "-") with 45. change (ch "+") with 43.
  change (ch "x") with 120. change (ch "X") with 88.
  replace (Z.of_N (c - 48) <? 10)%Z with true; [cls|].
  symmetry. apply Z.ltb_lt. cls.
Qed.

Lemma parseInt_hour h1 :
  is_digit h1 = true → parseInt [h1] = Int (decimal [h1]).
Proof.
  intros D1. destruct (digit_plain _ D1) as (Hs & Hm & Hp & _ & _ & Hr).
  unfold parseInt, trimStart. cbn [skip_while]. rewrite Hs, Hm, Hp, Hr.
  cbn [parse_radix]. rewrite Hr. f_equal. unfold decimal.
  cbn [fold_left]. lia.
Qed.

Lemma parseInt_hour2 h1 h2 :
  is_digit h1 = true → is_digit h2 = true →
  parseInt [h1; h2] = Int (decimal [h1; h2]).
Proof.
  intros D1 D2. destruct (digit_plain _ D1) as (Hs & Hm & Hp & _ & _ & Hr).
  destruct (digit_plain _ D2) as (_ & _ & _ & Hx & HX & Hr2).
  unfold parseInt, trimStart. cbn [skip_while]. rewrite Hs, Hm, Hp.
  rewrite Hx, HX, andb_false_r, Hr.
  cbn [parse_radix]. rewrite Hr, Hr2. f_equal. unfold decimal.
  cbn [fold_left]. lia.
Qed.

(** The conversion of the hour in the source is the conversion in the
    words of the specification. *)
Lemma hours_to_24h v p :
  (if bool_decide (period_str p = str "PM") && negb (num_eq (Int v) 12)
   then num_add (Int v) 12
   else if bool_decide (period_str p = str "AM") && num_eq (Int v) 12
        then Int 0 else Int v) = Int (to_24h v p).
Proof.
  destruct p; cbn [period_str to_24h num_eq num_add].
  - rewrite bool_decide_eq_false_2 by done.
    rewrite bool_decide_eq_true_2 by done. cbn [andb].
    by destruct (v =? 12)%Z.
  - rewrite bool_decide_eq_true_2 by done. cbn [andb].
    by destruct (v =? 12)%Z.
Qed.

(** On a cleaned entry without small letters the source and the words of
    the specification agree. *)
Lemma normalizeTime_cleaned U s :
  (∀ d, d ∈ toUpperCase U (trim s) → is_lower d = false) →
  normalizeTime U s = normalizeTime_spec U s.
Proof.
  intros Hc. unfold normalizeTime, normalizeTime_spec, time_spec.
  cbn zeta. set (c := toUpperCase U (trim s)) in *.
  rewrite test_time24. destruct (is_24h c); [done|].
  pose proof (smatch_time12 c Hc) as H.
  destruct (smatch time12Regex c) as [m|]; [|by rewrite H].
  destruct H as (h & mm & p & E & -> & -> & ->). rewrite E.
  apply split_12h_hour in E as (h1 & D1 & [->|(h2 & D2 & ->)]).
  - by rewrite parseInt_hour, hours_to_24h.
  - by rewrite parseInt_hour2, hours_to_24h.
Qed.

Lemma normalizeTime_spec_eq U s :
  (∀ t d, d ∈ U t → is_lower d = false) →
  normalizeTime U s = normalizeTime_spec U s.
Proof.
  intros HU. apply normalizeTime_cleaned. intros d Hd.
  by eapply toUpperCase_not_lower.
Qed.

(** ** emailRegex *)

Lemma after_0 st : after 0 st = st.
Proof. destruct st as [i s cs]. unfold after. simpl. by rewrite Nat.add_0_r. Qed.

Lemma after_S j i c tl cs :
  after (S j) (MState i (c :: tl) cs) = after j (MState (S i) tl cs).
Proof. unfold after. simpl. f_equal. lia. Qed.

(** A starred class gives back units of its run until the continuation
    succeeds. *)
Lemma star_cls_some p k x : ∀ s i cs,
  rmatch (Star (Cls p)) (MState i s cs) k = Some x →
  ∃ j, (j ≤ span p s)%nat ∧ k (after j (MState i s cs)) = Some x.
Proof.
  induction s as [|c tl IH]; intros i cs; rewrite star_cls; cbn [rest span].
  - intros H. exists 0%nat. by rewrite after_0.
  - destruct (p c).
    + unfold advance. cbn [pos caps].
      destruct (rmatch _ _ _) as [y|] eqn:E.
      * intros [= ->]. apply IH in E as (j & Hj & E). exists (S j).
        rewrite after_S. split; [lia|done].
      * intros H. exists 0%nat. rewrite after_0. split; [lia|done].
    + intros H. exists 0%nat. by rewrite after_0.
Qed.

Lemma star_cls_complete p k : ∀ s i cs j,
  (j ≤ span p s)%nat → is_Some (k (after j (MState i s cs))) →
  is_Some (rmatch (Star (Cls p)) (MState i s cs) k).
Proof.
  induction s as [|c tl IH]; intros i cs j; rewrite star_cls; cbn [rest span].
  - intros Hj. replace j with 0%nat by lia. by rewrite after_0.
  - destruct (p c).
    + unfold advance. cbn [pos caps]. destruct j as [|j].
      * rewrite after_0. intros _ [x ->]. by destruct (rmatch _ _ _).
      * rewrite after_S. intros Hj Hk.
        destruct (IH (S i) cs j) as [y ->]; [lia|done|done].
    + intros Hj. replace j with 0%nat by lia. by rewrite after_0.
Qed.

Lemma rmatch_plus p st k :
  rmatch (Plus (Cls p)) st k =
  match rest st with
  | c :: tl => if p c then rmatch (Star (Cls p)) (advance st tl) k else None
  | [] => None
  end.
Proof. done. Qed.

Lemma plus_cls_some p k x s i cs :
  rmatch (Plus (Cls p)) (MState i s cs) k = Some x →
  ∃ j, (0 < j ≤ span p s)%nat ∧ k (after j (MState i s cs)) = Some x.
Proof.
  rewrite rmatch_plus. cbn [rest]. destruct s as [|c tl]; [done|].
  cbn [span]. destruct (p c); [|done]. unfold advance. cbn [pos caps].
  intros (j & Hj & E)%star_cls_some. exists (S j). rewrite after_S.
  split; [lia|done].
Qed.

Lemma plus_cls_complete p k s i cs j :
  (0 < j ≤ span p s)%nat → is_Some (k (after j (MState i s cs))) →
  is_Some (rmatch (Plus (Cls p)) (MState i s cs) k).
Proof.
  rewrite rmatch_plus. cbn [rest]. destruct s as [|c tl]; cbn [span]; [lia|].
  destruct (p c); [|lia]. destruct j as [|j]; [lia|]. rewrite after_S.
  intros Hj. unfold advance. cbn [pos caps]. apply star_cls_complete. lia.
Qed.

Lemma span_take p s j : (j ≤ span p s)%nat → forallb p (take j s) = true.
Proof.
  revert j. induction s as [|c tl IH]; intros [|j]; simpl; try done.
  destruct (p c); [|lia]. intros Hj. apply IH. lia.
Qed.

Lemma span_length p s : (span p s ≤ length s)%nat.
Proof. induction s as [|c tl IH]; simpl; [lia|]. destruct (p c); lia. Qed.

Lemma span_app p l s : forallb p l = true → (length l ≤ span p (l ++ s))%nat.
Proof.
  induction l as [|c tl IH]; simpl; [lia|].
  intros [-> H]%andb_true_iff. apply IH in H. lia.
Qed.

Lemma test_anchored r s :
  test (Seq Bol r) s = true ↔ is_Some (rmatch r (MState 0 s []) Some).
Proof.
  unfold test. rewrite exec_anchored. unfold match_at. do 2 rmatch_step.
  cbn [Nat.eqb]. destruct (rmatch _ _ _); split; try done; by intros [? ?].
Qed.

Lemma test_email e : test emailRegex e = true ↔ email_shape e.
Proof.
  unfold emailRegex. cbn zeta. cbn [seqs]. rewrite test_anchored.
  change (λ c, negb (is_space c || (c =? ch "@"))) with email_unit.
  split.
  - intros [x E]. rewrite rmatch_seq in E.
    apply plus_cls_some in E as (j1 & Hj1 & E).
    unfold after in E. cbn [pos rest caps] in E.
    rewrite rmatch_seq, rmatch_chr in E. cbn [rest] in E.
    destruct (drop j1 e) as [|c1 r2] eqn:E1; [done|].
    destruct (N.eqb_spec c1 (ch "@")) as [->|]; [|done].
    unfold advance in E. cbn [pos rest caps] in E. rewrite rmatch_seq in E.
    apply plus_cls_some in E as (j2 & Hj2 & E).
    unfold after in E. cbn [pos rest caps] in E.
    rewrite rmatch_seq, rmatch_chr in E. cbn [rest] in E.
    destruct (drop j2 r2) as [|c2 r3] eqn:E2; [done|].
    destruct (N.eqb_spec c2 (ch ".")) as [->|]; [|done].
    unfold advance in E. cbn [pos rest caps] in E. rewrite rmatch_seq in E.
    apply plus_cls_some in E as (j3 & Hj3 & E).
    unfold after in E. cbn [pos rest caps] in E.
    rewrite rmatch_eol in E. cbn [rest] in E.
    destruct (drop j3 r3) as [|c3 r4] eqn:E3; [|done].
    exists (take j1 e), (take j2 r2), r3.
    pose proof (span_length email_unit e).
    pose proof (span_length email_unit r2).
    pose proof (span_length email_unit r3).
    split; [|split; [|split; [|split]]].
    + rewrite <- (take_drop j1 e) at 1. rewrite E1.
      rewrite <- (take_drop j2 r2) at 1. by rewrite E2.
    + intros Hn%(f_equal length). rewrite length_take in Hn. simpl in Hn. lia.
    + intros Hn%(f_equal length). rewrite length_take in Hn. simpl in Hn. lia.
    + intros ->. simpl in *. lia.
    + rewrite !forallb_app, !span_take by lia. simpl.
      rewrite <- (take_drop j3 r3), E3, app_nil_r. apply span_take. lia.
  - intros (l & d & t & -> & Hl & Hd & Ht & Hu).
    rewrite !forallb_app in Hu.
    apply andb_true_iff in Hu as [Hul [Hud Hut]%andb_true_iff].
    rewrite rmatch_seq.
    apply (plus_cls_complete _ _ _ _ _ (length l)).
    { pose proof (span_app email_unit l (str "@" ++ d ++ str "." ++ t) Hul).
      destruct l; [done|]. simpl in *. lia. }
    unfold after. cbn beta iota delta [pos rest caps]. rewrite drop_app_length.
    change (str "@" ++ ?x) with (ch "@" :: x).
    rewrite rmatch_seq, rmatch_chr. cbn [rest].
    change (ch "@" =? ch "@") with true. cbn iota.
    unfold advance. cbn [pos rest caps]. rewrite rmatch_seq.
    apply (plus_cls_complete _ _ _ _ _ (length d)).
    { pose proof (span_app email_unit d (str "." ++ t) Hud).
      destruct d; [done|]. simpl in *. lia. }
    unfold after. cbn beta iota delta [pos rest caps]. rewrite drop_app_length.
    change (str "." ++ ?x) with (ch "." :: x).
    rewrite rmatch_seq, rmatch_chr. cbn [rest].
    change (ch "." =? ch ".") with true. cbn iota.
    unfold advance. cbn [pos rest caps]. rewrite rmatch_seq.
    apply (plus_cls_complete _ _ _ _ _ (length t)).
    { pose proof (span_app email_unit t [] Hut). rewrite app_nil_r in *.
      destruct t; [done|]. simpl in *. lia. }
    unfold after. cbn beta iota delta [pos rest caps]. rewrite drop_all.
    by rewrite rmatch_eol.
Qed.

(** ** The calendar *)

Section Calendar.

Local Open Scope Z_scope.

Lemma DayFromYear_succ y :
  DayFromYear (y + 1) = DayFromYear y + (if leap_year y then 366 else 365).
Proof.
  unfold DayFromYear, leap_year.
  destruct (Z.eqb_spec (y mod 4) 0), (Z.eqb_spec (y mod 100) 0),
    (Z.eqb_spec (y mod 400) 0); cbn [andb orb negb];
    Z.div_mod_to_equations; lia.
Qed.

Lemma DayFromYear_lt y1 y2 : y1 < y2 → DayFromYear y1 < DayFromYear y2.
Proof. unfold DayFromYear. intros H. Z.div_mod_to_equations. lia. Qed.

Lemma DayFromYear_bounds y :
  (1970 ≤ y → 365 * (y - 1970) ≤ DayFromYear y ≤ 366 * (y - 1970))
  ∧ (y ≤ 1970 → 366 * (y - 1970) ≤ DayFromYear y ≤ 365 * (y - 1970)).
Proof. unfold DayFromYear. split; intros H; Z.div_mod_to_equations; lia. Qed.

Lemma year_search_found : ∀ fuel y0 day y,
  DayFromYear y ≤ day < DayFromYear (y + 1) →
  y ≤ y0 → y0 - y < Z.of_nat fuel →
  year_search fuel y0 day = y.
Proof.
  induction fuel as [|fuel IH]; intros y0 day y Hd Hy Hf; [lia|].
  cbn [year_search]. destruct (Z.leb_spec (DayFromYear y0) day) as [Hle|Hgt].
  - destruct (Z.eq_dec y0 y) as [|Hne]; [done|].
    pose proof (DayFromYear_lt y y0).
    destruct (Z.eq_dec y0 (y + 1)) as [->|]; [lia|].
    pose proof (DayFromYear_lt (y + 1) y0). lia.
  - apply IH; [done| |lia].
    destruct (Z.eq_dec y0 y) as [->|]; lia.
Qed.

(** YearFromDay is the year of the day, for the years that a time value
    can reach. *)
Lemma YearFromDay_spec day y :
  DayFromYear y ≤ day < DayFromYear (y + 1) → -300000 ≤ y ≤ 300000 →
  YearFromDay day = y.
Proof.
  intros Hd Hy. unfold YearFromDay. apply year_search_found; [done| |].
  - destruct (DayFromYear_bounds y) as [H1 H2].
    destruct (DayFromYear_bounds (y + 1)) as [H3 H4].
    destruct (Z.leb_spec 0 day); Z.div_mod_to_equations; lia.
  - destruct (DayFromYear_bounds y) as [H1 H2].
    destruct (DayFromYear_bounds (y + 1)) as [H3 H4].
    destruct (Z.leb_spec 0 day); Z.div_mod_to_equations; lia.
Qed.

Lemma month_day_found : ∀ months j k d0,
  (∀ l, l ∈ months → 0 ≤ l) →
  (j < length months)%nat →
  0 ≤ d0 < nth j months 0 →
  month_day months k (fold_right Z.add 0 (take j months) + d0)
  = (k + Z.of_nat j, d0 + 1).
Proof.
  induction months as [|len tl IH]; intros j k d0 Hpos Hj Hd; [simpl in Hj; lia|].
  destruct j as [|j]; cbn [month_day take firstn fold_right nth] in *.
  - destruct (Z.ltb_spec (0 + d0) len); [|lia]. f_equal; lia.
  - assert (Hs : 0 ≤ fold_right Z.add 0 (take j tl)).
    { clear -Hpos. revert j. induction tl as [|a tl IH]; intros [|j]; simpl; try lia.
      assert (0 ≤ a) by (apply Hpos; set_solver).
      assert (0 ≤ fold_right Z.add 0 (take j tl)); [|lia].
      apply IH. intros l Hl. apply Hpos. set_solver. }
    assert (0 ≤ len) by (apply Hpos; set_solver).
    destruct (Z.ltb_spec (len + fold_right Z.add 0 (take j tl) + d0) len); [lia|].
    replace (len + fold_right Z.add 0 (take j tl) + d0 - len)
      with (fold_right Z.add 0 (take j tl) + d0) by lia.
    rewrite IH; [f_equal; lia| |simpl in Hj; lia|done].
    intros l Hl. apply Hpos. set_solver.
Qed.

Lemma month_lengths_sum y :
  fold_right Z.add 0 (month_lengths y) = if leap_year y then 366 else 365.
Proof. unfold month_lengths. by destruct (leap_year y). Qed.



End Calendar.

(** ** The date-only strings *)

Lemma pad_number_digits len (bound z : Z) :
  forallb (digits_ok len) (map Z.of_nat (seq 0 (Z.to_nat bound))) = true →
  (0 ≤ z < bound)%Z →
  length (pad_number len z) = len ∧ all_digits (pad_number len z) = true
  ∧ parse_digits 0 (pad_number len z) = z.
Proof.
  intros Hall Hz. rewrite forallb_forall in Hall.
  assert (Hin : In z (map Z.of_nat (seq 0 (Z.to_nat bound)))).
  { apply in_map_iff. exists (Z.to_nat z). split; [lia|].
    apply in_seq. lia. }
  apply Hall in Hin. unfold digits_ok in Hin.
  apply andb_true_iff in Hin as [[H1 H2]%andb_true_iff H3].
  apply Nat.eqb_eq in H1. apply Z.eqb_eq in H3. done.
Qed.

Lemma pad_number_4 z :
  (0 ≤ z < 10000)%Z →
  length (pad_number 4 z) = 4%nat ∧ all_digits (pad_number 4 z) = true
  ∧ parse_digits 0 (pad_number 4 z) = z.
Proof.
  intros Hz. apply (pad_number_digits 4 10000); [by vm_compute|lia].
Qed.

Lemma pad_number_2 z :
  (0 ≤ z < 100)%Z →
  length (pad_number 2 z) = 2%nat ∧ all_digits (pad_number 2 z) = true
  ∧ parse_digits 0 (pad_number 2 z) = z.
Proof.
  intros Hz. apply (pad_number_digits 2 100); [by vm_compute|lia].
Qed.

Lemma digit_range c : is_digit c = true → 48 ≤ c ≤ 57.
Proof. intros H. cls. Qed.

Lemma digit_not_T c : is_digit c = true → (c =? ch "T") = false.
Proof. intros H. change (ch "T") with 84. cls. Qed.

Lemma digit_not_sign c :
  is_digit c = true → (c =? ch "+") || (c =? ch "-") = false.
Proof. intros H. change (ch "+") with 43. change (ch "-") with 45. cls. Qed.

Ltac digits_split :=
  unfold all_digits in *; cbn [forallb] in *;
  rewrite ?andb_true_iff in *; destruct_and?.








Lemma split_first_app sep l1 l2 :
  forallb (λ c, negb (c =? sep)) l1 = true →
  split_first sep (l1 ++ sep :: l2) = l1.
Proof.
  induction l1 as [|c tl IH]; cbn [forallb app split_first].
  - by rewrite N.eqb_refl.
  - intros [Hc Ht]%andb_true_iff. apply negb_true_iff in Hc. rewrite Hc.
    by rewrite IH.
Qed.


(** ** The pre-save hooks and save() *)

Lemma isModified_mark {A} p q c (doc : Document A) f :
  p ≠ q → isModified p (mark q c doc f) = isModified p doc.
Proof.
  intros Hpq. unfold isModified, mark. cbn. destruct c; [|done].
  apply bool_decide_ext. rewrite elem_of_cons. naive_solver.
Qed.

Section Hooks.

Variable unicodeLower unicodeUpper : jsstring → jsstring.
Variable implParse : jsstring → option Z.

Lemma isModified_assign_slug p v doc :
  p ≠ P_slug → isModified p (assign_slug unicodeLower v doc) = isModified p doc.
Proof. apply isModified_mark. Qed.

Lemma isModified_assign_date p v (doc : Document IEvent) :
  p ≠ P_date → isModified p (assign_date v doc) = isModified p doc.
Proof. apply isModified_mark. Qed.

Lemma isModified_assign_time p v (doc : Document IEvent) :
  p ≠ P_time → isModified p (assign_time v doc) = isModified p doc.
Proof. apply isModified_mark. Qed.

Lemma slug_step_frame doc :
  date (fields (slug_step unicodeLower doc)) = date (fields doc)
  ∧ time (fields (slug_step unicodeLower doc)) = time (fields doc)
  ∧ title (fields (slug_step unicodeLower doc)) = title (fields doc)
  ∧ _id (slug_step unicodeLower doc) = _id doc
  ∧ isNew (slug_step unicodeLower doc) = isNew doc
  ∧ (∀ p, p ≠ P_slug →
          isModified p (slug_step unicodeLower doc) = isModified p doc)
  ∧ (isModified P_title doc = false → slug_step unicodeLower doc = doc).
Proof.
  unfold slug_step. destruct (isModified P_title doc); [|done].
  repeat split; try done. intros p Hp. by apply isModified_assign_slug.
Qed.

(** The hook, step by step. *)
Lemma event_pre_save_unfold doc :
  event_pre_save unicodeLower unicodeUpper implParse doc =
  let this := slug_step unicodeLower doc in
  if isModified P_date doc then
    match normalizeDate implParse (date (fields doc)) with
    | Throw e => (this, Some e)
    | Ok d =>
        if isModified P_time doc then
          match normalizeTime unicodeUpper (time (fields doc)) with
          | Throw e => (assign_date d this, Some e)
          | Ok t => (assign_time t (assign_date d this), None)
          end
        else (assign_date d this, None)
    end
  else if isModified P_time doc then
         match normalizeTime unicodeUpper (time (fields doc)) with
         | Throw e => (this, Some e)
         | Ok t => (assign_time t this, None)
         end
       else (this, None).
Proof.
  unfold event_pre_save. fold (slug_step unicodeLower doc). cbn zeta.
  destruct (slug_step_frame doc) as (Hd & Ht & _ & _ & _ & Hm & _).
  rewrite !Hm, Hd by done.
  destruct (isModified P_date doc).
  - destruct (normalizeDate _ _) as [d|e]; [|done].
    rewrite isModified_assign_date, Hm by done.
    change (time (fields (assign_date d (slug_step unicodeLower doc))))
      with (time (fields (slug_step unicodeLower doc))). rewrite Ht.
    destruct (isModified P_time doc); [|done].
    by destruct (normalizeTime _ _).
  - rewrite Ht, Hm by done. destruct (isModified P_time doc); [|done].
    by destruct (normalizeTime _ _).
Qed.

(** The hook leaves the slug, the date and the time of a document alone
    unless the title, the date or the time is a modified path. *)
Lemma event_pre_save_frame doc :
  (isModified P_title doc = false →
     slug (fields (event_pre_save unicodeLower unicodeUpper implParse doc).1)
     = slug (fields doc))
  ∧ (isModified P_date doc = false →
       date (fields (event_pre_save unicodeLower unicodeUpper implParse doc).1)
       = date (fields doc))
  ∧ (isModified P_time doc = false →
       time (fields (event_pre_save unicodeLower unicodeUpper implParse doc).1)
       = time (fields doc)).
Proof.
  rewrite event_pre_save_unfold. cbn zeta.
  destruct (slug_step_frame doc) as (Hd & Ht & _ & _ & _ & _ & Hs).
  split; [|split].
  - intros H. rewrite (Hs H).
    destruct (isModified P_date doc), (isModified P_time doc);
      repeat (destruct (normalizeDate _ _) || destruct (normalizeTime _ _));
      done.
  - intros ->. by destruct (isModified P_time doc);
      [destruct (normalizeTime _ _)|].
  - intros ->. by destruct (isModified P_date doc);
      [destruct (normalizeDate _ _)|].
Qed.


Lemma isModified_hydrate {A} p id (f : A) : isModified p (hydrate id f) = false.
Proof.
  unfold isModified, hydrate. cbn. apply bool_decide_eq_false.
  by intros ?%elem_of_nil.
Qed.

(** A failed save of an Event leaves the store as it was. *)
Lemma save_event_throw doc db e db' :
  save_event unicodeLower unicodeUpper implParse doc db = (Throw e, db') →
  db' = db.
Proof.
  unfold save_event. destruct (validate_event _); [by intros [= _ <-]|].
  destruct (event_pre_save _ _ _ doc) as [doc' [e'|]]; [by intros [= _ <-]|].
  destruct (write_event doc' db); [done|by intros [= _ <-]].
Qed.


(** An update of the description alone: what the collection holds for the
    event afterwards has the slug, the date, the time and the title it had. *)
Lemma save_description_frame db id e v :
  events db !! id = Some e →
  ∃ e', events (save_event unicodeLower unicodeUpper implParse
                  (assign_description v (hydrate id e)) db).2 !! id = Some e'
        ∧ slug e' = slug e ∧ date e' = date e ∧ time e' = time e
        ∧ title e' = title e.
Proof.
  intros He. set (doc := assign_description v (hydrate id e)).
  assert (Hm : ∀ p, p ≠ P_description → isModified p doc = false).
  { intros p Hp. unfold doc, assign_description. cbn zeta.
    rewrite isModified_mark by done. apply isModified_hydrate. }
  unfold save_event. destruct (validate_event _); [by exists e|].
  rewrite event_pre_save_unfold. cbn zeta.
  destruct (slug_step_frame doc) as (_ & _ & _ & _ & _ & _ & Hs).
  rewrite Hs, !Hm by (done || by apply Hm).
  unfold write_event. change (isNew doc) with false. change (_id doc) with id.
  rewrite He. cbn zeta. destruct (slug_free _ _ _); [|by exists e].
  cbn [snd events]. rewrite lookup_insert_eq. eexists. split; [done|].
  unfold merge_event. cbn. by rewrite !Hm.
Qed.

Lemma booking_pre_save_unfold doc db :
  booking_pre_save doc db =
  if isNew doc || isModified P_eventId doc then
    ([FindEventById (eventId (fields doc))],
     match find_event db (eventId (fields doc)) with
     | Some _ => Ok tt
     | None => Throw DanglingReferenceError
     end)
  else ([], Ok tt).
Proof.
  unfold booking_pre_save. destruct (isNew doc || isModified P_eventId doc); [|done].
  unfold hook_bind, Event_findById, find_event.
  by destruct (eventId (fields doc)) as [i|]; [destruct (events db !! i)|].
Qed.

End Hooks.

(** ** The ASCII case tables *)

Lemma asciiLower_not_upper t d : d ∈ asciiLower t → is_upper d = false.
Proof.
  unfold asciiLower. intros (c & -> & _)%list_elem_of_fmap.
  apply lower_ascii_not_upper.
Qed.

Lemma asciiUpper_not_lower t d : d ∈ asciiUpper t → is_lower d = false.
Proof.
  unfold asciiUpper. intros (c & -> & _)%list_elem_of_fmap.
  apply upper_ascii_not_lower.
Qed.

(** ** The stored time *)

Lemma split_12h_minutes c h mm p :
  split_12h c = Some (h, mm, p) →
  ∃ m1 m2, mm = [m1; m2] ∧ is_digit m1 = true ∧ is_digit m2 = true.
Proof.
  unfold split_12h, split_hmm.
  destruct c as [|c1 [|c2 tl]]; [done|done|].
  destruct (is_digit c1); [|done].
  destruct (c2 =? ch ":").
  - destruct tl as [|m1 [|m2 tail]]; [done|done|].
    destruct (is_digit m1) eqn:D1, (is_digit m2) eqn:D2; try done.
    cbn. intros H. exists m1, m2. repeat case_bool_decide; simplify_eq; done.
  - destruct (is_digit c2); [|done].
    destruct tl as [|c3 [|m1 [|m2 tail]]]; [done|done|done|].
    destruct (c3 =? ch ":"), (is_digit m1) eqn:D1, (is_digit m2) eqn:D2;
      try done.
    cbn. intros H. exists m1, m2. repeat case_bool_decide; simplify_eq; done.
Qed.

Lemma to_24h_range v p : (1 ≤ v ≤ 12)%Z → (0 ≤ to_24h v p ≤ 23)%Z.
Proof.
  intros Hv. unfold to_24h. destruct p; destruct (Z.eqb_spec v 12); lia.
Qed.

Lemma padded_hour z :
  (0 ≤ z ≤ 23)%Z →
  ∃ d1 d2, padStart 2 (ch "0") (Number_toString (Int z)) = [d1; d2]
           ∧ is_digit d1 = true ∧ is_digit d2 = true
           ∧ decimal [d1; d2] = z.
Proof.
  intros Hz.
  assert (Hn : ∃ n : nat, z = Z.of_nat n ∧ (n < 24)%nat)
    by (exists (Z.to_nat z); lia).
  destruct Hn as (n & -> & Hn).
  exists (48 + N.of_nat (n / 10)), (48 + N.of_nat (n mod 10)).
  do 24 (destruct n as [|n]; [by vm_compute|]). lia.
Qed.

(** Two digits of an hour of the day, a colon and two digits of a minute
    of the hour are a canonical time. *)
Lemma digits_canonical d1 d2 m1 m2 :
  is_digit d1 = true → is_digit d2 = true →
  is_digit m1 = true → is_digit m2 = true →
  (decimal [d1; d2] ≤ 23)%Z → (decimal [m1; m2] ≤ 59)%Z →
  canonical_time ([d1; d2] ++ str ":" ++ [m1; m2]) = true.
Proof.
  intros D1 D2 M1 M2 Hh Hm.
  unfold canonical_time, is_24h, split_hmm.
  change ([d1; d2] ++ str ":" ++ [m1; m2]) with [d1; d2; ch ":"; m1; m2].
  cbn beta iota. rewrite D1, (digit_not_colon d2 D2), D2, M1, M2.
  change (ch ":" =? ch ":") with true. cbn [andb length Nat.eqb].
  rewrite andb_true_r. apply andb_true_iff. split; by apply Z.leb_le.
Qed.

(** The time that the words of the specification give for an entry in
    24-hour form, or in 12-hour form with an hour of the clock and a minute
    of the hour, is a 24-hour time; it has two digits of hour when it was
    converted. *)
Lemma time_spec_canonical c t :
  time_spec c = Ok t → is_24h c || clock_12h c = true →
  is_24h t = true ∧ (is_24h c = false → canonical_time t = true).
Proof.
  unfold time_spec, clock_12h. destruct (is_24h c) eqn:E24.
  - intros [= <-] _. by split.
  - cbn [orb]. destruct (split_12h c) as [[[h mm] p]|] eqn:E12; [|done].
    intros Ht [[H1 H2]%andb_true_iff H3]%andb_true_iff.
    apply Z.leb_le in H1, H2, H3.
    destruct (split_12h_minutes _ _ _ _ E12) as (m1 & m2 & -> & M1 & M2).
    assert (Et : padStart 2 (ch "0") (Number_toString (Int (to_24h (decimal h) p)))
                 ++ str ":" ++ [m1; m2] = t) by congruence.
    subst t. clear Ht.
    destruct (padded_hour (to_24h (decimal h) p)) as (d1 & d2 & -> & D1 & D2 & Hd);
      [by apply to_24h_range|].
    pose proof (to_24h_range (decimal h) p ltac:(lia)) as Hr.
    assert (Hc : canonical_time ([d1; d2] ++ str ":" ++ [m1; m2]) = true)
      by (apply digits_canonical; try done; lia).
    split; [|done]. by apply andb_true_iff in Hc as [Hc _].
Qed.

(** ** The 12-hour branch takes any hour *)

Lemma digit_facts c :
  is_digit c = true →
  is_space c = false ∧ is_ascii c = true ∧ is_lower c = false
  ∧ upper_ascii c = c ∧ (c =? ch ":") = false.
Proof.
  intros H. assert (is_lower c = false) by cls.
  repeat split; [cls|cls|done|by apply upper_ascii_id|by apply digit_not_colon].
Qed.

Ltac digit_hyps :=
  repeat match goal with
    | H : is_digit ?c = true |- _ =>
        let Hs := fresh in let Ha := fresh in let Hl := fresh in
        let Hu := fresh in let Hc := fresh in
        destruct (digit_facts c H) as (Hs & Ha & Hl & Hu & Hc); revert H
    end; intros.

(** What the classes say of a given code unit. *)
Ltac ground_facts n :=
  let a := eval vm_compute in (is_space n) in
  let b := eval vm_compute in (is_ascii n) in
  let c := eval vm_compute in (upper_ascii n) in
  let d := eval vm_compute in (is_digit n) in
  let e := eval vm_compute in (n =? 58) in
  assert (is_space n = a) by reflexivity;
  assert (is_ascii n = b) by reflexivity;
  assert (upper_ascii n = c) by reflexivity;
  assert (is_digit n = d) by reflexivity;
  assert ((n =? 58) = e) by reflexivity.

Lemma hour_digits_inv h :
  hour_digits h = true →
  (∃ h1, h = [h1] ∧ is_digit h1 = true)
  ∨ (∃ h1 h2, h = [h1; h2] ∧ is_digit h1 = true ∧ is_digit h2 = true).
Proof.
  unfold hour_digits, all_digits.
  destruct h as [|h1 [|h2 [|h3 tl]]]; cbn; try done.
  - rewrite !andb_true_r. intros ?. left. by exists h1.
  - rewrite !andb_true_r. intros [? ?]%andb_true_iff. right. by exists h1, h2.
  - by rewrite andb_false_r.
Qed.

Lemma minute_digits_inv m :
  minute_digits m = true →
  ∃ m1 m2, m = [m1; m2] ∧ is_digit m1 = true ∧ is_digit m2 = true.
Proof.
  unfold minute_digits, all_digits.
  destruct m as [|m1 [|m2 [|m3 tl]]]; cbn; try done.
  - by rewrite andb_false_r.
  - rewrite !andb_true_r. intros [? ?]%andb_true_iff. by exists m1, m2.
  - by rewrite andb_false_r.
Qed.

(** The entry [h:mm AM] or [h:mm PM] is converted whatever its digits. *)
Lemma normalizeTime_12h_any U h mm p :
  hour_digits h = true → minute_digits mm = true →
  normalizeTime U (h ++ str ":" ++ mm ++ str " " ++ period_str p) =
  Ok (padStart 2 (ch "0") (Number_toString (Int (to_24h (decimal h) p)))
      ++ str ":" ++ mm).
Proof.
  intros Hh (m1 & m2 & -> & M1 & M2)%minute_digits_inv.
  set (s := h ++ str ":" ++ [m1; m2] ++ str " " ++ period_str p).
  assert (Hs : toUpperCase U (trim s) = s ∧ (∀ d, d ∈ s → is_lower d = false)
               ∧ is_24h s = false ∧ split_12h s = Some (h, [m1; m2], p)).
  { change (str ":") with [58] in *. change (str " ") with [32] in *.
    ground_facts 58. ground_facts 32. ground_facts 65. ground_facts 77.
    ground_facts 80. change (ch ":") with 58 in *.
    apply hour_digits_inv in Hh as [(h1 & -> & Dh1)|(h1 & h2 & -> & Dh1 & Dh2)];
      destruct p; subst s; digit_hyps;
      [change (period_str AM) with [65; 77]
      |change (period_str PM) with [80; 77]
      |change (period_str AM) with [65; 77]
      |change (period_str PM) with [80; 77]];
      unfold toUpperCase, trim, trimEnd, trimStart, is_24h, split_12h, split_hmm;
      repeat (progress (rewrite_hyps;
                        cbn [app rev skip_while forallb map andb]));
      change (str "AM") with [65; 77]; change (str "PM") with [80; 77];
      rewrite ?bool_decide_eq_true_2 by done;
      rewrite ?(bool_decide_eq_false_2 ([80; 77] = [65; 77])) by done;
      rewrite ?bool_decide_eq_true_2 by done;
      (split; [done|]); (split; [|done]);
      intros d Hd; repeat (apply elem_of_cons in Hd as [->|Hd]); try done;
      by apply elem_of_nil in Hd. }
  destruct Hs as (Hc & Hl & H24 & H12).
  rewrite normalizeTime_cleaned by (by rewrite Hc).
  unfold normalizeTime_spec, time_spec. by rewrite Hc, H24, H12.
Qed.

(** ** normalizeDate *)

(** normalizeDate fails exactly when the Date is invalid, and then with
    InvalidDateFormat. *)
Lemma normalizeDate_throw_iff implParse s e :
  normalizeDate implParse s = Throw e
  ↔ Date_new implParse s = None ∧ e = InvalidDateFormat.
Proof.
  unfold normalizeDate. destruct (Date_new implParse s); split;
    try done; try (by intros [? ?]).
  - by intros [= <-].
  - by intros [_ ->].
Qed.

(** A month 13 is illegal whatever the platform. *)
Lemma normalizeDate_month_13 implParse :
  normalizeDate implParse (str "2025-13-40") = Throw InvalidDateFormat.
Proof. by vm_compute. Qed.

(** "June 13, 2025" is not of the ECMAScript format: the platform reads it.
    Read as midnight of a zone two hours east of UTC it is 22:00 UTC of
    the day before; read as midnight UTC it is that day. *)
Lemma normalizeDate_local_midnight_east :
  normalizeDate (λ _, Some 1749765600000%Z) (str "June 13, 2025")
  = Ok (str "2025-06-12").
Proof. by vm_compute. Qed.

Lemma normalizeDate_local_midnight_utc :
  normalizeDate (λ _, Some 1749772800000%Z) (str "June 13, 2025")
  = Ok (str "2025-06-13").
Proof. by vm_compute. Qed.

(** ** The collections under save() *)

Lemma slug_free_spec id s evs :
  slug_free id s evs = true ↔ ∀ j e, evs !! j = Some e → j = id ∨ slug e ≠ s.
Proof. unfold slug_free. by rewrite bool_decide_eq_true. Qed.

Lemma unique_slugs_spec db :
  unique_slugs db = true
  ↔ ∀ i j ei ej, events db !! i = Some ei → events db !! j = Some ej →
                 slug ei = slug ej → i = j.
Proof.
  unfold unique_slugs. rewrite bool_decide_eq_true. split.
  - intros H i j ei ej Hi Hj Hs.
    specialize (H i ei Hi). cbn in H. rewrite slug_free_spec in H.
    destruct (H j ej Hj); [done|congruence].
  - intros H i ei Hi. cbn. apply slug_free_spec. intros j ej Hj.
    destruct (decide (j = i)) as [|Hne]; [by left|right].
    intros Hs. apply Hne. by eapply H.
Qed.

Lemma unique_slugs_insert db id e :
  unique_slugs db = true → slug_free id (slug e) (events db) = true →
  unique_slugs {| events := <[id := e]> (events db); bookings := bookings db |}
  = true.
Proof.
  rewrite !unique_slugs_spec, slug_free_spec. intros Hu Hf i j ei ej. cbn.
  rewrite !lookup_insert_Some.
  intros [[<- <-]|[Hi Hei]] [[<- <-]|[Hj Hej]] Hs; try done.
  - destruct (Hf j ej Hej); [done|congruence].
  - destruct (Hf i ei Hei); [done|congruence].
  - by eapply Hu.
Qed.

Section Collections.

Variable unicodeLower unicodeUpper : jsstring → jsstring.
Variable implParse : jsstring → option Z.

Lemma write_event_unique doc db db' :
  unique_slugs db = true → write_event doc db = Ok db' →
  unique_slugs db' = true.
Proof.
  intros Hu. unfold write_event.
  destruct (isNew doc), (events db !! _id doc); try done.
  - destruct (slug_free _ _ _) eqn:Hf; [|done]. intros [= <-].
    by apply unique_slugs_insert.
  - destruct (slug_free _ _ _) eqn:Hf; [|done]. intros [= <-].
    by apply unique_slugs_insert.
Qed.

Lemma save_event_cases doc db :
  (save_event unicodeLower unicodeUpper implParse doc db).2 = db
  ∨ ∃ doc',
      event_pre_save unicodeLower unicodeUpper implParse doc = (doc', None)
      ∧ validate_event (fields doc) = None
      ∧ write_event doc' db
        = Ok (save_event unicodeLower unicodeUpper implParse doc db).2
      ∧ (save_event unicodeLower unicodeUpper implParse doc db).1
        = Ok (saved doc').
Proof.
  unfold save_event. destruct (validate_event (fields doc)); [by left|].
  destruct (event_pre_save _ _ _ doc) as [doc' [e|]]; [by left|].
  destruct (write_event doc' db) eqn:Hw; [|by left]. right. by exists doc'.
Qed.

Lemma save_event_ok doc db d db' :
  save_event unicodeLower unicodeUpper implParse doc db = (Ok d, db') →
  ∃ doc',
    validate_event (fields doc) = None
    ∧ event_pre_save unicodeLower unicodeUpper implParse doc = (doc', None)
    ∧ write_event doc' db = Ok db' ∧ d = saved doc'.
Proof.
  unfold save_event. destruct (validate_event (fields doc)); [done|].
  destruct (event_pre_save _ _ _ doc) as [doc' [e|]]; [done|].
  destruct (write_event doc' db) eqn:Hw; [|done].
  intros [= <- <-]. by exists doc'.
Qed.

End Collections.

Lemma save_event_unique
    (unicodeLower unicodeUpper : jsstring → jsstring)
    (implParse : jsstring → option Z) doc db :
  unique_slugs db = true →
  unique_slugs (save_event unicodeLower unicodeUpper implParse doc db).2 = true.
Proof.
  intros Hu.
  destruct (save_event_cases unicodeLower unicodeUpper implParse doc db)
    as [->|(doc' & _ & _ & Hw & _)]; [done|].
  by eapply write_event_unique.
Qed.

(** A save of an Event that fails leaves the store; one that succeeds
    puts one event under the [_id] of the document. *)
Lemma save_event_store
    (unicodeLower unicodeUpper : jsstring → jsstring)
    (implParse : jsstring → option Z) doc db :
  (save_event unicodeLower unicodeUpper implParse doc db).2 = db
  ∨ ∃ e, (save_event unicodeLower unicodeUpper implParse doc db).2
         = {| events := <[_id doc := e]> (events db); bookings := bookings db |}.
Proof.
  destruct (save_event_cases unicodeLower unicodeUpper implParse doc db)
    as [?|(doc' & Hp & _ & Hw & _)]; [by left|right].
  assert (Hid : _id doc' = _id doc).
  { revert Hp. rewrite event_pre_save_unfold.
    destruct (slug_step_frame unicodeLower doc) as (_ & _ & _ & Hid & _).
    cbn zeta.
    repeat match goal with
           | |- context [if ?b then _ else _] => destruct b
           | |- context [match ?r with Ok _ => _ | Throw _ => _ end] =>
               destruct r
           end; intros [= <-]; cbn; done. }
  revert Hw. unfold write_event. rewrite Hid.
  destruct (isNew doc'), (events db !! _id doc); try done;
    destruct (slug_free _ _ _); try done; intros [= <-]; eauto.
Qed.

Lemma bookings_refer_spec db :
  bookings_refer db = true
  ↔ ∀ i b, bookings db !! i = Some b → is_Some (find_event db (eventId b)).
Proof. unfold bookings_refer. by rewrite bool_decide_eq_true. Qed.

Lemma save_booking_refer doc db :
  bookings_refer db = true → bookings_refer (save_booking doc db).2 = true.
Proof.
  intros Hr. unfold save_booking.
  destruct (validate_booking (fields doc)); [done|].
  rewrite booking_pre_save_unfold.
  destruct (isNew doc || isModified P_eventId doc) eqn:Hc.
  - destruct (find_event db (eventId (fields doc))) as [ev|] eqn:Hev; [|done].
    destruct (write_booking doc db) as [db'|] eqn:Hw; [|done]. cbn.
    revert Hw. unfold write_booking.
    rewrite bookings_refer_spec in Hr. 
    destruct (isNew doc) eqn:Hn, (bookings db !! _id doc) as [old|] eqn:Ho;
      try done; intros [= <-]; apply bookings_refer_spec; cbn;
      intros i b; rewrite lookup_insert_Some;
      (intros [[_ <-]|[_ Hb]]; [|by eapply Hr]).
    + unfold find_event in *. cbn [events]. by rewrite Hev.
    + rewrite orb_false_l in Hc. cbn [merge_booking eventId].
      rewrite Hc. unfold find_event in *. cbn [events]. by rewrite Hev.
  - apply orb_false_iff in Hc as [Hn Hm].
    destruct (write_booking doc db) as [db'|] eqn:Hw; [|done]. cbn.
    revert Hw. unfold write_booking. rewrite Hn.
    rewrite bookings_refer_spec in Hr.
    destruct (bookings db !! _id doc) as [old|] eqn:Ho; [|done].
    intros [= <-]. apply bookings_refer_spec. cbn.
    intros i b. rewrite lookup_insert_Some.
    intros [[_ <-]|[_ Hb]]; [|by eapply Hr].
    cbn [merge_booking eventId]. rewrite Hm.
    specialize (Hr _ _ Ho). unfold find_event in *. by cbn [events].
Qed.

Lemma save_event_refer
    (unicodeLower unicodeUpper : jsstring → jsstring)
    (implParse : jsstring → option Z) doc db :
  bookings_refer db = true →
  bookings_refer (save_event unicodeLower unicodeUpper implParse doc db).2
  = true.
Proof.
  intros Hr.
  destruct (save_event_store unicodeLower unicodeUpper implParse doc db)
    as [->|[e ->]]; [done|].
  rewrite bookings_refer_spec in *. cbn. intros i b Hb.
  specialize (Hr i b Hb). unfold find_event in *. cbn.
  destruct (eventId b) as [j|]; [|done].
  rewrite lookup_insert_is_Some. destruct (decide (_id doc = j)); auto.
Qed.

Lemma save_booking_ok doc db log d db' :
  save_booking doc db = (log, Ok d, db')
  ↔ validate_booking (fields doc) = None
    ∧ booking_pre_save doc db = (log, Ok tt)
    ∧ write_booking doc db = Ok db' ∧ d = saved doc.
Proof.
  unfold save_booking. destruct (validate_booking (fields doc)).
  { split; [by intros [=]|by intros [[=] _]]. }
  destruct (booking_pre_save doc db) as [log' [[]|e]].
  - destruct (write_booking doc db) as [db2|e].
    + split; [by intros [= <- <- <-]|]. by intros (_ & [= <-] & [= <-] & ->).
    + split; [by intros [=]|]. by intros (_ & _ & [=] & _).
  - split; [by intros [=]|]. by intros (_ & [=] & _).
Qed.

Section Slugs.

Variable unicodeLower unicodeUpper : jsstring → jsstring.
Variable implParse : jsstring → option Z.
Hypothesis lower_ok : ∀ t d, d ∈ unicodeLower t → is_upper d = false.

Lemma cast_slug_generateSlug t :
  cast_slug unicodeLower (generateSlug unicodeLower t)
  = generateSlug unicodeLower t.
Proof.
  unfold cast_slug, set_lowercase, set_trim.
  rewrite generateSlug_slug_spec.
  pose proof (slug_spec_chars unicodeLower t lower_ok) as Hc.
  by rewrite trim_slug, toLowerCase_slug.
Qed.

Lemma event_pre_save_title doc doc' :
  isModified P_title doc = true →
  event_pre_save unicodeLower unicodeUpper implParse doc = (doc', None) →
  slug (fields doc') = generateSlug unicodeLower (title (fields doc))
  ∧ title (fields doc') = title (fields doc)
  ∧ _id doc' = _id doc ∧ isNew doc' = isNew doc.
Proof.
  intros Ht. rewrite event_pre_save_unfold. unfold slug_step. rewrite Ht.
  cbn zeta.
  set (this := assign_slug unicodeLower _ doc).
  assert (Hthis : slug (fields this)
                  = generateSlug unicodeLower (title (fields doc))
                  ∧ title (fields this) = title (fields doc)
                  ∧ _id this = _id doc ∧ isNew this = isNew doc).
  { unfold this, assign_slug. cbn -[cast_slug generateSlug].
    by rewrite cast_slug_generateSlug. }
  destruct (isModified P_date doc).
  - destruct (normalizeDate _ _) as [d|]; [|done].
    destruct (isModified P_time doc).
    + destruct (normalizeTime _ _) as [t|]; [|done]. by intros [= <-].
    + by intros [= <-].
  - destruct (isModified P_time doc).
    + destruct (normalizeTime _ _) as [t|]; [|done]. by intros [= <-].
    + by intros [= <-].
Qed.

Lemma save_new_event id data db d db' :
  save_event unicodeLower unicodeUpper implParse
             (new_event unicodeLower id data) db = (Ok d, db') →
  ∃ doc',
    event_pre_save unicodeLower unicodeUpper implParse
                   (new_event unicodeLower id data) = (doc', None)
    ∧ d = saved doc' ∧ events db !! id = None
    ∧ slug_free id (slug (fields doc')) (events db) = true
    ∧ db' = {| events := <[id := fields doc']> (events db);
               bookings := bookings db |}
    ∧ slug (fields doc') = generateSlug unicodeLower (trim (title data))
    ∧ title (fields doc') = trim (title data).
Proof.
  intros Hs.
  destruct (save_event_ok _ _ _ _ _ _ _ Hs) as (doc' & _ & Hp & Hw & ->).
  exists doc'.
  destruct (event_pre_save_title (new_event unicodeLower id data) doc'
              eq_refl Hp) as (Hslug & Ht & Hid & Hnew).
  cbn in Hid, Hnew, Ht, Hslug.
  unfold write_event in Hw. rewrite Hnew, Hid in Hw.
  destruct (events db !! id); [done|].
  destruct (slug_free _ _ _) eqn:Hf; [|done].
  by injection Hw as <-.
Qed.

End Slugs.

Lemma merge_event_none old new : merge_event (λ _, false) old new = old.
Proof. by destruct old. Qed.

Section Updates.

Variable unicodeLower unicodeUpper : jsstring → jsstring.
Variable implParse : jsstring → option Z.
Hypothesis lower_ok : ∀ t d, d ∈ unicodeLower t → is_upper d = false.

(** A save of a document that was read and not changed writes what was
    there. *)
Lemma save_unchanged db id e f d db' :
  events db !! id = Some e →
  save_event unicodeLower unicodeUpper implParse
    {| _id := id; fields := f; isNew := false; modifiedPaths := [] |} db
  = (Ok d, db') →
  events db' !! id = Some e.
Proof.
  intros He Hs.
  destruct (save_event_ok _ _ _ _ _ _ _ Hs) as (doc' & _ & Hp & Hw & _).
  rewrite event_pre_save_unfold in Hp. unfold slug_step in Hp.
  cbn in Hp. injection Hp as <-. revert Hw. unfold write_event.
  cbn [isNew _id]. rewrite He.
  destruct (slug_free _ _ _); [|done]. intros [= <-]. cbn [events].
  rewrite lookup_insert_eq. f_equal.
  by destruct e.
Qed.

Lemma save_title_update db id e v d db' :
  events db !! id = Some e →
  save_event unicodeLower unicodeUpper implParse
             (assign_title v (hydrate id e)) db = (Ok d, db') →
  ∃ e', events db' !! id = Some e' ∧ title e' = trim v
        ∧ (trim v ≠ title e → slug e' = generateSlug unicodeLower (trim v))
        ∧ (trim v = title e → e' = e)
        ∧ date e' = date e ∧ time e' = time e.
Proof.
  intros He Hs. unfold assign_title, set_trim, mark, hydrate in Hs.
  cbn [fields _id isNew modifiedPaths] in Hs.
  case_bool_decide as Hv; cbn [negb] in Hs.
  - exists e. split; [by eapply save_unchanged|]. by repeat split.
  - destruct (save_event_ok _ _ _ _ _ _ _ Hs) as (doc' & _ & Hp & Hw & _).
    rewrite event_pre_save_unfold in Hp. unfold slug_step in Hp.
    change (isModified P_title _) with true in Hp.
    change (isModified P_date _) with false in Hp.
    change (isModified P_time _) with false in Hp.
    cbn [fields title] in Hp. cbn iota zeta in Hp. injection Hp as <-.
    revert Hw. unfold write_event, assign_slug, mark.
    cbn [isNew _id fields slug with_slug modifiedPaths]. rewrite He.
    rewrite cast_slug_generateSlug by done.
    destruct (slug_free _ _ _); [|done]. intros [= <-]. cbn [events].
    rewrite lookup_insert_eq. eexists. split; [done|].
    unfold merge_event, isModified. cbn [modifiedPaths title slug date time].
    case_bool_decide as Hg; cbn [negb].
    + by repeat split.
    + by repeat split.
Qed.

Lemma save_slug_update db id e v d db' :
  events db !! id = Some e →
  save_event unicodeLower unicodeUpper implParse
             (assign_slug unicodeLower v (hydrate id e)) db = (Ok d, db') →
  ∃ e', events db' !! id = Some e' ∧ slug e' = cast_slug unicodeLower v
        ∧ title e' = title e.
Proof.
  intros He Hs. unfold assign_slug, mark, hydrate in Hs.
  cbn [fields _id isNew modifiedPaths] in Hs.
  case_bool_decide as Hv; cbn [negb] in Hs.
  - exists e. split; [|by rewrite Hv].
    eapply save_unchanged; [done|]. exact Hs.
  - destruct (save_event_ok _ _ _ _ _ _ _ Hs) as (doc' & _ & Hp & Hw & _).
    rewrite event_pre_save_unfold in Hp. unfold slug_step in Hp.
    change (isModified P_title _) with false in Hp.
    change (isModified P_date _) with false in Hp.
    change (isModified P_time _) with false in Hp.
    cbn iota zeta in Hp. injection Hp as <-.
    revert Hw. unfold write_event.
    cbn [isNew _id fields slug with_slug modifiedPaths]. rewrite He.
    destruct (slug_free _ _ _); [|done]. intros [= <-]. cbn [events].
    rewrite lookup_insert_eq. eexists. split; [done|]. by cbn.
Qed.

End Updates.

(** ** More about the slug and the time *)

(** *** The word characters of a slug *)

Lemma space_not_word c : is_space c = true → is_word c = false.
Proof. cls. Qed.

Lemma hyphen_not_word c : is_hyphen c = true → is_word c = false.
Proof. cls. Qed.

Lemma filter_skip_while (p q : N → bool) s :
  (∀ c, q c = true → p c = false) →
  List.filter p (skip_while q s) = List.filter p s.
Proof.
  intros Hq. induction s as [|c tl IH]; [done|]. cbn.
  destruct (q c) eqn:Hc; [|done]. by rewrite (Hq c Hc).
Qed.

Lemma filter_word_trim s : List.filter is_word (trim s) = List.filter is_word s.
Proof.
  unfold trim, trimEnd, trimStart.
  rewrite List.filter_rev, (filter_skip_while _ _ _ space_not_word).
  rewrite List.filter_rev, rev_involutive.
  apply filter_skip_while, space_not_word.
Qed.

Lemma filter_word_remove_special s :
  List.filter is_word (remove_special s) = List.filter is_word s.
Proof.
  unfold remove_special. induction s as [|c tl IH]; [done|]. cbn.
  destruct (is_word c) eqn:Hc; cbn; [by rewrite Hc, IH|].
  destruct (is_space c || is_hyphen c); cbn; [by rewrite Hc|done].
Qed.

Lemma filter_word_collapse_spaces s : ∀ b,
  List.filter is_word (collapse_spaces b s) = List.filter is_word s.
Proof.
  induction s as [|c tl IH]; intros b; [done|]. cbn.
  destruct (is_space c) eqn:Hc.
  - rewrite (space_not_word c Hc). destruct b; cbn; by rewrite IH.
  - cbn. by rewrite IH.
Qed.

Lemma filter_word_collapse_hyphens s : ∀ b,
  List.filter is_word (collapse_hyphens b s) = List.filter is_word s.
Proof.
  induction s as [|c tl IH]; intros b; [done|]. cbn.
  destruct (is_hyphen c) eqn:Hc.
  - rewrite (hyphen_not_word c Hc). destruct b; cbn; by rewrite IH.
  - cbn. by rewrite IH.
Qed.

Lemma filter_word_strip_hyphens s :
  List.filter is_word (strip_hyphens s) = List.filter is_word s.
Proof.
  unfold strip_hyphens, strip_trailing_hyphens.
  rewrite List.filter_rev, (filter_skip_while _ _ _ hyphen_not_word).
  rewrite List.filter_rev, rev_involutive.
  apply filter_skip_while, hyphen_not_word.
Qed.

Lemma filter_word_slug_spec U s :
  List.filter is_word (slug_spec U s) = List.filter is_word (toLowerCase U s).
Proof.
  unfold slug_spec.
  by rewrite filter_word_strip_hyphens, filter_word_collapse_hyphens,
    filter_word_collapse_spaces, filter_word_remove_special, filter_word_trim.
Qed.

Lemma filter_nil_forallb (p : N → bool) s :
  List.filter p s = [] ↔ forallb (λ c, negb (p c)) s = true.
Proof.
  induction s as [|c tl IH]; [done|]. cbn.
  destruct (p c); cbn; [split; done|done].
Qed.

Lemma forallb_elem_of (p : N → bool) s :
  forallb p s = true ↔ ∀ c, c ∈ s → p c = true.
Proof.
  rewrite forallb_forall. split; intros H c Hc; apply H;
    by apply list_elem_of_In.
Qed.

Lemma strip_hyphens_all s : forallb is_hyphen s = true → strip_hyphens s = [].
Proof.
  intros H. unfold strip_hyphens, strip_trailing_hyphens.
  by rewrite (skip_while_all _ _ H).
Qed.

Lemma slug_spec_empty U s :
  slug_spec U s = [] ↔ List.filter is_word (toLowerCase U s) = [].
Proof.
  split.
  - intros H. by rewrite <- filter_word_slug_spec, H.
  - rewrite <- filter_word_trim, <- filter_word_remove_special,
      <- (filter_word_collapse_spaces _ false),
      <- (filter_word_collapse_hyphens _ false).
    intros H. unfold slug_spec. apply strip_hyphens_all.
    rewrite filter_nil_forallb, forallb_elem_of in H.
    apply forallb_elem_of. intros c Hc. specialize (H c Hc).
    apply elem_of_collapse_hyphens, elem_of_collapse_spaces in Hc.
    destruct Hc as [->|[Hc Hs]]; [done|].
    apply elem_of_remove_special in Hc as [_ Hk].
    destruct (is_word c); [done|]. by rewrite Hs in Hk.
Qed.

(** *** A second normalizeTime *)

(** A unit of a time: a digit or the colon. *)
Lemma time_unit_facts c :
  is_digit c || (c =? ch ":") = true →
  is_space c = false ∧ is_ascii c = true ∧ upper_ascii c = c.
Proof.
  intros [H|H%N.eqb_eq]%orb_true_iff.
  - by destruct (digit_facts c H) as (? & ? & _ & ? & _).
  - subst c. by vm_compute.
Qed.

Lemma is_24h_units t :
  is_24h t = true → forallb (λ c, is_digit c || (c =? ch ":")) t = true.
Proof.
  unfold is_24h, split_hmm.
  destruct t as [|h1 [|c2 tl]]; try done.
  destruct (is_digit h1) eqn:H1; [|done].
  destruct (c2 =? ch ":") eqn:C2.
  - destruct tl as [|m1 [|m2 tail]]; try done.
    destruct (is_digit m1) eqn:M1, (is_digit m2) eqn:M2; try done.
    destruct tail; [|done]. intros _. cbn [forallb].
    by rewrite H1, C2, M1, M2, ?orb_true_r.
  - destruct (is_digit c2) eqn:D2; [|done].
    destruct tl as [|c3 [|m1 [|m2 tail]]]; try done.
    destruct (c3 =? ch ":") eqn:C3, (is_digit m1) eqn:M1, (is_digit m2) eqn:M2;
      try done.
    destruct tail; [|done]. intros _. cbn [forallb].
    by rewrite H1, D2, C3, M1, M2, ?orb_true_r.
Qed.

Lemma trim_no_space s :
  forallb (λ c, negb (is_space c)) s = true → trim s = s.
Proof.
  intros H. unfold trim, trimEnd, trimStart.
  rewrite (skip_while_none _ s) by done.
  rewrite skip_while_none by (by rewrite forallb_rev).
  apply rev_involutive.
Qed.

Lemma is_24h_cleaned U t :
  is_24h t = true → toUpperCase U (trim t) = t.
Proof.
  intros H%is_24h_units.
  assert (Hs : forallb (λ c, negb (is_space c)) t = true
               ∧ forallb is_ascii t = true ∧ map upper_ascii t = t).
  { induction t as [|c tl IH]; [done|]. cbn [forallb map] in *.
    apply andb_true_iff in H as [Hc Ht].
    destruct (time_unit_facts c Hc) as (-> & -> & ->).
    destruct (IH Ht) as (-> & -> & ->). done. }
  destruct Hs as (Hs & Ha & Hm).
  rewrite trim_no_space by done. unfold toUpperCase. by rewrite Ha.
Qed.

Lemma is_24h_fixed U t : is_24h t = true → normalizeTime U t = Ok t.
Proof.
  intros H. unfold normalizeTime. cbn zeta.
  by rewrite (is_24h_cleaned U t H), test_time24, H.
Qed.

(** ** The calendar, from a day to its date *)

Section CalendarInverse.

Local Open Scope Z_scope.

Lemma all_from_spec f : ∀ n z0 z,
  all_from f n z0 = true → z0 ≤ z < z0 + Z.of_nat n → f z = true.
Proof.
  induction n as [|n IH]; intros z0 z; cbn [all_from]; [lia|].
  intros [H0 Hn]%andb_true_iff Hz.
  destruct (decide (z = z0)) as [->|]; [done|].
  apply (IH (z0 + 1)); [done|lia].
Qed.

(** The year of a day: between two values of an increasing function. *)
Lemma between_steps (f : Z → Z) a v :
  (∀ y, f y < f (y + 1)) →
  ∀ b, a ≤ b → f a ≤ v < f b → ∃ y, a ≤ y < b ∧ f y ≤ v < f (y + 1).
Proof.
  intros Hf b Hab. pattern b. apply (Zlt_lower_bound_ind _ a); [|done].
  clear b Hab. intros b IH Hab Hv.
  destruct (decide (b = a)) as [->|Hne]; [lia|].
  destruct (Z.lt_ge_cases v (f (b - 1))) as [Hlt|Hge].
  - destruct (IH (b - 1)) as (y & Hy & Hfy); [lia|lia|].
    exists y. split; [lia|done].
  - exists (b - 1). split; [lia|].
    replace (b - 1 + 1) with b by lia. lia.
Qed.

Lemma year_of_day day :
  -100000000 ≤ day ≤ 100000000 →
  ∃ y, -280000 ≤ y ≤ 280000 ∧ DayFromYear y ≤ day < DayFromYear (y + 1).
Proof.
  intros Hd.
  destruct (between_steps DayFromYear (-280000) day
              (λ y, DayFromYear_lt y (y + 1) ltac:(lia)) 280000 ltac:(lia))
    as (y & Hy & Hf).
  - assert (DayFromYear (-280000) ≤ -100000000) by (by vm_compute).
    assert (100000000 < DayFromYear 280000) by (by vm_compute).
    lia.
  - exists y. split; [lia|done].
Qed.

(** The month of a day of the year. *)
Lemma month_of_day : ∀ months n,
  (∀ l, l ∈ months → 0 ≤ l) → 0 ≤ n < fold_right Z.add 0 months →
  ∃ (j : nat) d0, (j < length months)%nat ∧ 0 ≤ d0 < nth j months 0
                  ∧ n = fold_right Z.add 0 (take j months) + d0.
Proof.
  induction months as [|len tl IH]; intros n Hpos Hn; cbn in Hn; [lia|].
  destruct (Z.lt_ge_cases n len) as [Hlt|Hge].
  - exists 0%nat, n. cbn. repeat split; lia.
  - destruct (IH (n - len)) as (j & d0 & Hj & Hd & Hsum).
    + intros l Hl. apply Hpos. by right.
    + lia.
    + exists (S j), d0. cbn. repeat split; lia.
Qed.

Lemma month_lengths_nonneg y l : l ∈ month_lengths y → 0 ≤ l.
Proof.
  unfold month_lengths. rewrite !elem_of_cons, elem_of_nil.
  destruct (leap_year y); intros H; destruct_or?; subst; try lia; done.
Qed.

(** [civil] gives a date of the calendar, the date of the day. *)
Lemma civil_spec t :
  -8640000000000000 ≤ t ≤ 8640000000000000 →
  ∃ y m d, civil t = (y, m, d) ∧ -280000 ≤ y ≤ 280000 ∧ 1 ≤ m ≤ 12
           ∧ 1 ≤ d ≤ DaysInMonth y m ∧ MakeDay y m d = Day t.
Proof.
  intros Ht.
  assert (Hd : -100000000 ≤ Day t ≤ 100000000).
  { unfold Day, msPerDay. split.
    - apply Z.div_le_lower_bound; lia.
    - apply Z.div_le_upper_bound; lia. }
  destruct (year_of_day _ Hd) as (y & Hy & Hin).
  pose proof (YearFromDay_spec _ _ Hin ltac:(lia)) as HY.
  pose proof (DayFromYear_succ y) as Hs.
  rewrite <- month_lengths_sum in Hs.
  destruct (month_of_day (month_lengths y) (Day t - DayFromYear y)
              (month_lengths_nonneg y) ltac:(lia))
    as (j & d0 & Hj & Hd0 & Hsum).
  pose proof (month_day_found (month_lengths y) j 1 d0
                (month_lengths_nonneg y) Hj Hd0) as Hmd.
  rewrite <- Hsum in Hmd.
  exists y, (1 + Z.of_nat j), (d0 + 1).
  assert (Hlen : length (month_lengths y) = 12%nat) by done.
  assert (Hnth : DaysInMonth y (1 + Z.of_nat j) = nth j (month_lengths y) 0).
  { unfold DaysInMonth. f_equal. lia. }
  rewrite Hnth. rewrite Hlen in Hj.
  split; [|split; [done|split; [lia|split; [lia|]]]].
  - unfold civil. cbn zeta. by rewrite HY, Hmd.
  - unfold MakeDay.
    replace (Z.to_nat (1 + Z.of_nat j - 1)) with j by lia.
    change (firstn j (month_lengths y)) with (take j (month_lengths y)). lia.
Qed.

Lemma civil_Day t : civil (Day t * msPerDay) = civil t.
Proof. unfold civil, Day. by rewrite Z.div_mul. Qed.

Lemma DaysInMonth_le y m : 1 ≤ m ≤ 12 → 28 ≤ DaysInMonth y m ≤ 31.
Proof.
  intros Hm. unfold DaysInMonth, month_lengths.
  assert (Hc : m = 1 ∨ m = 2 ∨ m = 3 ∨ m = 4 ∨ m = 5 ∨ m = 6 ∨ m = 7 ∨ m = 8
               ∨ m = 9 ∨ m = 10 ∨ m = 11 ∨ m = 12) by lia.
  destruct (leap_year y); destruct_or?; subst m; vm_compute; split; discriminate.
Qed.

End CalendarInverse.

(** *** The date that toISOString prints is read back as the same date *)

Lemma pad_number_all len (bound z : Z) :
  all_from (digits_ok len) (Z.to_nat bound) 0 = true →
  (0 ≤ z < bound)%Z →
  length (pad_number len z) = len ∧ all_digits (pad_number len z) = true
  ∧ parse_digits 0 (pad_number len z) = z.
Proof.
  intros Hall Hz.
  pose proof (all_from_spec _ _ _ z Hall ltac:(lia)) as H.
  unfold digits_ok in H.
  apply andb_true_iff in H as [[H1 H2]%andb_true_iff H3].
  apply Nat.eqb_eq in H1. apply Z.eqb_eq in H3. done.
Qed.

Lemma pad_number_6 z :
  (0 ≤ z < 300000)%Z →
  length (pad_number 6 z) = 6%nat ∧ all_digits (pad_number 6 z) = true
  ∧ parse_digits 0 (pad_number 6 z) = z.
Proof.
  intros Hz. apply (pad_number_all 6 300000); [by vm_compute|lia].
Qed.

Lemma iso_year_plain a b c d r :
  all_digits [a; b; c; d] = true →
  iso_year (a :: b :: c :: d :: r) = Some (parse_digits 0 [a; b; c; d], r).
Proof.
  intros Hd. assert (Ha : is_digit a = true) by (digits_split; done).
  unfold iso_year. rewrite (digit_not_sign a Ha).
  cbn [take firstn drop skipn length Nat.eqb andb].
  rewrite take_0, drop_0. cbn [length Nat.eqb andb]. by rewrite Hd.
Qed.

Lemma iso_year_signed s l r :
  s = ch "+" ∨ s = ch "-" → length l = 6%nat → all_digits l = true →
  iso_year (s :: l ++ r)
  = if s =? ch "-"
    then (if (parse_digits 0 l =? 0)%Z then None
          else Some ((- parse_digits 0 l)%Z, r))
    else Some (parse_digits 0 l, r).
Proof.
  intros Hs Hl Hd.
  destruct l as [|a [|b [|c [|d [|e [|f [|? ?]]]]]]]; try done.
  unfold iso_year.
  assert (Hsign : (s =? ch "+") || (s =? ch "-") = true)
    by (destruct Hs; subst; by vm_compute).
  rewrite Hsign.
  cbn [app take firstn drop skipn length Nat.eqb andb].
  rewrite take_0, drop_0. cbn [length Nat.eqb andb]. by rewrite Hd.
Qed.

Lemma iso_year_string_parse y r :
  (-300000 < y < 300000)%Z →
  iso_year (iso_year_string y ++ r) = Some (y, r).
Proof.
  intros Hy. unfold iso_year_string.
  destruct (Z.leb_spec 0 y) as [H0|H0]; cbn [andb].
  - destruct (Z.leb_spec y 9999) as [H9|H9].
    + destruct (pad_number_4 y ltac:(lia)) as (Hl & Hd & Hp).
      destruct (pad_number 4 y) as [|a [|b [|c [|d [|? ?]]]]]; try done.
      cbn [app]. rewrite iso_year_plain by done. by rewrite Hp.
    + destruct (Z.ltb_spec y 0) as [|_]; [lia|].
      destruct (pad_number_6 (Z.abs y) ltac:(lia)) as (Hl & Hd & Hp).
      change (str "+") with [ch "+"]. cbn [app].
      rewrite iso_year_signed by auto.
      change (ch "+" =? ch "-") with false. cbn iota. rewrite Hp.
      f_equal. f_equal. lia.
  - destruct (Z.ltb_spec y 0) as [_|]; [|lia].
    destruct (pad_number_6 (Z.abs y) ltac:(lia)) as (Hl & Hd & Hp).
    change (str "-") with [ch "-"]. cbn [app].
    rewrite iso_year_signed by auto.
    change (ch "-" =? ch "-") with true. cbn iota. rewrite Hp.
    destruct (Z.eqb_spec (Z.abs y) 0); [lia|]. f_equal. f_equal. lia.
Qed.

Lemma iso_field_parse v r :
  (0 ≤ v < 100)%Z → iso_field (str "-" ++ pad_number 2 v ++ r) = Some (v, r).
Proof.
  intros Hv. destruct (pad_number_2 v Hv) as (Hl & Hd & Hp).
  destruct (pad_number 2 v) as [|a [|b [|? ?]]]; try done.
  change (str "-") with [ch "-"]. cbn [app]. unfold iso_field.
  rewrite N.eqb_refl. digits_split. rewrite_hyps. cbn [andb].
  by rewrite <- Hp.
Qed.

Lemma pad_number_2_cons v :
  (0 ≤ v < 100)%Z →
  ∃ a b, pad_number 2 v = [a; b] ∧ is_digit a = true ∧ is_digit b = true
         ∧ parse_digits 0 [a; b] = v.
Proof.
  intros Hv. destruct (pad_number_2 v Hv) as (Hl & Hd & Hp).
  destruct (pad_number 2 v) as [|a [|b [|? ?]]]; try done.
  exists a, b. by digits_split.
Qed.

Lemma parse_iso_date_string y m d :
  (-300000 < y < 300000)%Z → (0 ≤ m < 100)%Z → (0 ≤ d < 100)%Z →
  parse_iso_date (date_string y m d) = iso_check y m d.
Proof.
  intros Hy Hm Hd. unfold date_string, parse_iso_date.
  rewrite iso_year_string_parse by done.
  destruct (pad_number_2_cons m Hm) as (m1 & m2 & -> & M1 & M2 & Pm).
  destruct (pad_number_2_cons d Hd) as (d1 & d2 & -> & D1 & D2 & Pd).
  change (str "-" ++ [m1; m2] ++ str "-" ++ [d1; d2])
    with (ch "-" :: m1 :: m2 :: ch "-" :: [d1; d2]).
  cbn iota. unfold iso_field. rewrite N.eqb_refl, M1, M2. cbn [andb].
  rewrite N.eqb_refl, D1, D2. cbn [andb]. by rewrite Pm, Pd.
Qed.

(** No [T] in the date. *)
Lemma date_string_no_T y m d :
  (-300000 < y < 300000)%Z → (0 ≤ m < 100)%Z → (0 ≤ d < 100)%Z →
  forallb (λ c, negb (c =? ch "T")) (date_string y m d) = true.
Proof.
  intros Hy Hm Hd.
  assert (Hdig : ∀ l, all_digits l = true →
                      forallb (λ c, negb (c =? ch "T")) l = true).
  { intros l. unfold all_digits. induction l as [|c tl IH]; [done|].
    cbn [forallb]. intros [Hc Ht]%andb_true_iff.
    by rewrite (digit_not_T c Hc), IH. }
  unfold date_string, iso_year_string. rewrite !forallb_app.
  destruct (pad_number_2 m Hm) as (_ & Dm & _).
  destruct (pad_number_2 d Hd) as (_ & Dd & _).
  rewrite (Hdig _ Dm), (Hdig _ Dd).
  change (forallb _ (str "-")) with true. cbn [andb]. rewrite !andb_true_r.
  destruct (Z.leb_spec 0 y) as [H0|H0]; cbn [andb].
  - destruct (Z.leb_spec y 9999) as [H9|H9].
    + destruct (pad_number_4 y ltac:(lia)) as (_ & Dy & _). by apply Hdig.
    + destruct (pad_number_6 (Z.abs y) ltac:(lia)) as (_ & Dy & _).
      rewrite forallb_app, (Hdig _ Dy). by destruct (y <? 0)%Z.
  - destruct (pad_number_6 (Z.abs y) ltac:(lia)) as (_ & Dy & _).
    rewrite forallb_app, (Hdig _ Dy). by destruct (y <? 0)%Z.
Qed.

Lemma toISOString_date t y m d :
  civil t = (y, m, d) →
  (-300000 < y < 300000)%Z → (0 ≤ m < 100)%Z → (0 ≤ d < 100)%Z →
  split_first (ch "T") (toISOString t) = date_string y m d.
Proof.
  intros Hc Hy Hm Hd. unfold toISOString. rewrite Hc.
  pose proof (date_string_no_T y m d Hy Hm Hd) as HT.
  unfold date_string, iso_year_string in *.
  set (Y := if (0 <=? y)%Z && (y <=? 9999)%Z then _ else _) in *.
  match goal with
  | |- split_first _ (Y ++ str "-" ++ ?b ++ str "-" ++ ?c ++ str "T" ++ ?r) = _ =>
      replace (Y ++ str "-" ++ b ++ str "-" ++ c ++ str "T" ++ r)
        with ((Y ++ str "-" ++ b ++ str "-" ++ c) ++ ch "T" :: r)
        by (by rewrite <- !app_assoc)
  end.
  by rewrite split_first_app.
Qed.

Lemma Date_new_range implParse s t :
  Date_new implParse s = Some t →
  (-8640000000000000 ≤ t ≤ 8640000000000000)%Z.
Proof.
  assert (Hc : ∀ x, TimeClip x = Some t →
                    (-8640000000000000 ≤ t ≤ 8640000000000000)%Z).
  { intros x. unfold TimeClip.
    destruct (Z.leb_spec (Z.abs x) 8640000000000000); [|done].
    intros [= <-]. lia. }
  unfold Date_new. destruct (parse_iso_date s); [apply Hc|done|].
  destruct (implParse s); [apply Hc|done].
Qed.

(** What normalizeDate returns is the date of the time value, and the
    date is read as the start of its day. *)
Lemma normalizeDate_ok implParse s ds :
  normalizeDate implParse s = Ok ds →
  ∃ t y m d,
    Date_new implParse s = Some t ∧ civil t = (y, m, d)
    ∧ ds = date_string y m d
    ∧ Date_new implParse ds = Some (Day t * msPerDay)%Z.
Proof.
  unfold normalizeDate. cbn zeta.
  destruct (Date_new implParse s) as [t|] eqn:Hn; [|done]. intros Hds.
  assert (ds = split_first (ch "T") (toISOString t)) by congruence.
  subst ds. clear Hds.
  pose proof (Date_new_range _ _ _ Hn) as Ht.
  destruct (civil_spec t Ht) as (y & m & d & Hc & Hy & Hm & Hd & Hday).
  pose proof (DaysInMonth_le y m Hm) as Hdm.
  exists t, y, m, d. split; [done|]. split; [done|].
  rewrite (toISOString_date t y m d) by (done || lia). split; [done|].
  unfold Date_new. rewrite parse_iso_date_string by lia.
  unfold iso_check.
  destruct (Z.ltb_spec m 1); [lia|]. destruct (Z.ltb_spec 12 m); [lia|].
  destruct (Z.ltb_spec d 1); [lia|]. destruct (Z.ltb_spec 31 d); [lia|].
  cbn [orb]. destruct (Z.leb_spec d (DaysInMonth y m)); [|lia].
  rewrite Hday. unfold TimeClip, Day, msPerDay.
  destruct (Z.leb_spec (Z.abs (t / 86400000 * 86400000)) 8640000000000000);
    [done|].
  pose proof (Z.mul_div_le t 86400000 ltac:(lia)).
  assert (-100000000 ≤ t / 86400000)%Z by (apply Z.div_le_lower_bound; lia).
  lia.
Qed.

Lemma date_string_canonical y m d :
  (-300000 < y < 300000)%Z → (0 ≤ m < 100)%Z → (0 ≤ d < 100)%Z →
  canonical_date (date_string y m d) = (0 <=? y)%Z && (y <=? 9999)%Z.
Proof.
  intros Hy Hm Hd. unfold date_string, iso_year_string.
  destruct (pad_number_2_cons m Hm) as (m1 & m2 & -> & M1 & M2 & _).
  destruct (pad_number_2_cons d Hd) as (d1 & d2 & -> & D1 & D2 & _).
  destruct ((0 <=? y)%Z && (y <=? 9999)%Z) eqn:Hr.
  - apply andb_true_iff in Hr as [H0%Z.leb_le H9%Z.leb_le].
    destruct (pad_number_4 y ltac:(lia)) as (Hl & Hdg & _).
    destruct (pad_number 4 y) as [|a [|b [|c [|e [|? ?]]]]]; try done.
    digits_split. cbn [app str]. unfold canonical_date, all_digits.
    change (str "-") with [HYPHEN]. cbn [app forallb].
    rewrite_hyps. by vm_compute.
  - assert (Hl : length (pad_number 6 (Z.abs y)) = 6%nat).
    { apply andb_false_iff in Hr.
      destruct (pad_number_6 (Z.abs y)) as (Hl & _); [|done].
      destruct Hr as [?%Z.leb_gt|?%Z.leb_gt]; lia. }
    destruct (pad_number 6 (Z.abs y)) as [|a [|b [|c [|e [|f [|g [|? ?]]]]]]];
      try done.
    by destruct (y <? 0)%Z.
Qed.

(** ** The constraints of the schemas *)

Lemma first_error_None checks :
  first_error checks = None ↔ forallb fst checks = true.
Proof.
  induction checks as [|[ok p] tl IH]; [done|]. cbn.
  destruct ok; [done|]. split; done.
Qed.

Lemma events_valid_spec db :
  events_valid db = true
  ↔ ∀ i e, events db !! i = Some e → validate_event e = None.
Proof. unfold events_valid. by rewrite bool_decide_eq_true. Qed.

Lemma required_app a b : required (a ++ str ":" ++ b) = true.
Proof.
  unfold required. rewrite !length_app.
  change (length (str ":")) with 1%nat.
  apply negb_true_iff, Nat.eqb_neq. lia.
Qed.

Lemma normalizeTime_required U s t :
  normalizeTime U s = Ok t → required t = true.
Proof.
  unfold normalizeTime. cbn zeta.
  destruct (test time24Regex _) eqn:Ht.
  - intros Heq. assert (t = toUpperCase U (trim s)) by congruence. subst t.
    rewrite test_time24 in Ht. by destruct (toUpperCase U (trim s)).
  - destruct (smatch _ _) as [m|]; [|done].
    destruct (group 1 m), (group 2 m), (group 3 m); try done.
    intros Heq.
    match type of Heq with
    | Ok (?a ++ str ":" ++ ?b) = _ =>
        assert (t = a ++ str ":" ++ b) by congruence
    end.
    subst t. apply required_app.
Qed.

Lemma normalizeDate_required implParse s d :
  normalizeDate implParse s = Ok d → required d = true.
Proof.
  intros H. destruct (normalizeDate_ok _ _ _ H) as (t & y & m & dd & _ & _ & -> & _).
  unfold date_string, required. rewrite !length_app.
  change (length (str "-")) with 1%nat.
  apply negb_true_iff, Nat.eqb_neq. lia.
Qed.

Section Valid.

Variable unicodeLower unicodeUpper : jsstring → jsstring.
Variable implParse : jsstring → option Z.

(** What the hook leaves of a document: every field but the slug, the
    date and the time; the date as it was or normalized; the time as it
    was or normalized. *)
Lemma event_pre_save_fields doc doc' :
  event_pre_save unicodeLower unicodeUpper implParse doc = (doc', None) →
  ∃ s d t,
    fields doc' = with_time t (with_date d (with_slug s (fields doc)))
    ∧ (d = date (fields doc)
       ∨ normalizeDate implParse (date (fields doc)) = Ok d)
    ∧ (t = time (fields doc)
       ∨ normalizeTime unicodeUpper (time (fields doc)) = Ok t).
Proof.
  rewrite event_pre_save_unfold. cbn zeta.
  assert (Hs : ∃ s, fields (slug_step unicodeLower doc)
                    = with_slug s (fields doc)).
  { unfold slug_step. destruct (isModified P_title doc).
    - eexists. unfold assign_slug, mark. by cbn [fields].
    - exists (slug (fields doc)). by destruct (fields doc). }
  destruct Hs as [s Hs].
  assert (Heta : ∀ f : IEvent, with_time (time f) (with_date (date f) f) = f)
    by (by intros []).
  assert (Heta_d : ∀ (f : IEvent) t, with_time t (with_date (date f) f)
                                     = with_time t f) by (by intros []).
  assert (Hdate : date (with_slug s (fields doc)) = date (fields doc)) by done.
  assert (Htime : time (with_slug s (fields doc)) = time (fields doc)) by done.
  destruct (isModified P_date doc).
  - destruct (normalizeDate _ _) as [d|] eqn:Hd; [|done].
    destruct (isModified P_time doc).
    + destruct (normalizeTime _ _) as [t|] eqn:Ht; [|done]. intros [= <-].
      exists s, d, t. unfold assign_time, assign_date, mark. cbn [fields].
      rewrite Hs. split; [by destruct (fields doc)|]. by split; right.
    + intros [= <-]. exists s, d, (time (fields doc)).
      unfold assign_date, mark. cbn [fields]. rewrite Hs.
      split; [by destruct (fields doc)|]. split; [by right|by left].
  - destruct (isModified P_time doc).
    + destruct (normalizeTime _ _) as [t|] eqn:Ht; [|done]. intros [= <-].
      exists s, (date (fields doc)), t. unfold assign_time, mark.
      cbn [fields]. rewrite Hs.
      split; [by destruct (fields doc)|]. split; [by left|by right].
    + intros [= <-]. exists s, (date (fields doc)), (time (fields doc)).
      rewrite Hs. split; [by destruct (fields doc)|]. by split; left.
Qed.

Lemma validate_hooked f s d t :
  validate_event f = None → required d = true → required t = true →
  validate_event (with_time t (with_date d (with_slug s f))) = None.
Proof.
  unfold validate_event. rewrite !first_error_None. cbn [forallb fst].
  cbn [with_time with_date with_slug title description overview image venue
       location date time mode audience agenda organizer tags].
  intros H Hd Ht. rewrite Hd, Ht.
  repeat (apply andb_true_iff in H as [? H]). by rewrite_hyps.
Qed.

Lemma validate_merge m old new :
  validate_event old = None → validate_event new = None →
  validate_event (merge_event m old new) = None.
Proof.
  unfold validate_event. rewrite !first_error_None. cbn [forallb fst].
  intros Ho Hn.
  repeat (apply andb_true_iff in Ho as [? Ho]).
  repeat (apply andb_true_iff in Hn as [? Hn]).
  unfold merge_event.
  cbn [title description overview image venue location date time mode
       audience agenda organizer tags].
  repeat (apply andb_true_intro; split); try done;
    match goal with
    | |- context [if ?b then _ else _] => by destruct b
    end.
Qed.

Lemma save_event_valid doc db :
  events_valid db = true →
  events_valid (save_event unicodeLower unicodeUpper implParse doc db).2
  = true.
Proof.
  intros Hv.
  destruct (save_event_cases unicodeLower unicodeUpper implParse doc db)
    as [->|(doc' & Hp & Hval & Hw & _)]; [done|].
  destruct (event_pre_save_fields _ _ Hp) as (s & d & t & Hf & Hd & Ht).
  assert (Hval' : validate_event (fields doc') = None).
  { rewrite Hf. apply validate_hooked; [done| |].
    - destruct Hd as [->|Hd]; [|by eapply normalizeDate_required].
      revert Hval. unfold validate_event. rewrite first_error_None.
      cbn [forallb fst]. intros H.
      repeat (apply andb_true_iff in H as [? H]). done.
    - destruct Ht as [->|Ht]; [|by eapply normalizeTime_required].
      revert Hval. unfold validate_event. rewrite first_error_None.
      cbn [forallb fst]. intros H.
      repeat (apply andb_true_iff in H as [? H]). done. }
  set (db' := (save_event _ _ _ doc db).2) in *. clearbody db'.
  rewrite events_valid_spec in *. revert Hw. unfold write_event.
  destruct (isNew doc'), (events db !! _id doc') as [old|] eqn:Ho; try done;
    destruct (slug_free _ _ _); try done; intros [= <-]; cbn [events];
    intros i e; rewrite lookup_insert_Some;
    (intros [[_ <-]|[_ He]]; [|by eapply Hv]); [done|].
  apply validate_merge; [by eapply Hv|done].
Qed.

End Valid.

Lemma bookings_valid_spec db :
  bookings_valid db = true
  ↔ ∀ i b, bookings db !! i = Some b → validate_booking b = None.
Proof. unfold bookings_valid. by rewrite bool_decide_eq_true. Qed.

Lemma validate_merge_booking m old new :
  validate_booking old = None → validate_booking new = None →
  validate_booking (merge_booking m old new) = None.
Proof.
  unfold validate_booking. rewrite !first_error_None. cbn [forallb fst].
  intros Ho Hn.
  repeat (apply andb_true_iff in Ho as [? Ho]).
  repeat (apply andb_true_iff in Hn as [? Hn]).
  unfold merge_booking. cbn [eventId email].
  destruct (m P_eventId), (m P_email); by rewrite_hyps.
Qed.

Lemma save_booking_valid doc db :
  bookings_valid db = true → bookings_valid (save_booking doc db).2 = true.
Proof.
  intros Hv. unfold save_booking.
  destruct (validate_booking (fields doc)) eqn:Hval; [done|].
  destruct (booking_pre_save doc db) as [log [[]|e]]; [|done].
  destruct (write_booking doc db) as [db'|] eqn:Hw; [|done]. cbn [snd].
  rewrite bookings_valid_spec in *. revert Hw. unfold write_booking.
  destruct (isNew doc), (bookings db !! _id doc) as [old|] eqn:Ho; try done;
    intros [= <-]; cbn [bookings]; intros i b; rewrite lookup_insert_Some;
    (intros [[_ <-]|[_ Hb]]; [|by eapply Hv]); [done|].
  apply validate_merge_booking; [by eapply Hv|done].
Qed.

Lemma save_booking_events doc db :
  events (save_booking doc db).2 = events db.
Proof.
  unfold save_booking. destruct (validate_booking (fields doc)); [done|].
  destruct (booking_pre_save doc db) as [log [[]|e]]; [|done].
  destruct (write_booking doc db) as [db'|] eqn:Hw; [|done]. cbn [snd].
  revert Hw. unfold write_booking.
  destruct (isNew doc), (bookings db !! _id doc); try done; by intros [= <-].
Qed.

Lemma save_event_bookings
    (unicodeLower unicodeUpper : jsstring → jsstring)
    (implParse : jsstring → option Z) doc db :
  bookings (save_event unicodeLower unicodeUpper implParse doc db).2
  = bookings db.
Proof.
  by destruct (save_event_store unicodeLower unicodeUpper implParse doc db)
    as [->|[e ->]].
Qed.

(** ** The route *)

(** *** trim and toLowerCase on ASCII strings *)









Lemma forallb_skip_while (p q : N → bool) s :
  forallb p s = true → forallb p (skip_while q s) = true.
Proof.
  induction s as [|c tl IH]; [done|]. cbn.
  intros [Hc Ht]%andb_true_iff. destruct (q c); [auto|].
  cbn. by rewrite Hc, Ht.
Qed.

Lemma forallb_trim (p : N → bool) s :
  forallb p s = true → forallb p (trim s) = true.
Proof.
  intros H. unfold trim, trimEnd, trimStart.
  rewrite forallb_rev. apply forallb_skip_while. rewrite forallb_rev.
  by apply forallb_skip_while.
Qed.



Lemma toLowerCase_ascii U s :
  forallb is_ascii s = true → toLowerCase U s = map lower_ascii s.
Proof. intros H. unfold toLowerCase. by rewrite H. Qed.



(** *** The query by slug *)

Lemma findOne_Some U s db i e :
  Event_findOne_slug U s db = Some (i, e) →
  events db !! i = Some e ∧ slug e = cast_slug U s.
Proof.
  unfold Event_findOne_slug. intros H%head_Some_elem_of.
  apply list_elem_of_filter in H as [Hs H]. by apply elem_of_map_to_list in H.
Qed.

Lemma findOne_None U s db :
  Event_findOne_slug U s db = None
  ↔ ∀ i e, events db !! i = Some e → slug e ≠ cast_slug U s.
Proof.
  unfold Event_findOne_slug. rewrite head_None. split.
  - intros H i e He Hs.
    apply (filter_nil_not_elem_of _ _ (i, e) H); [done|].
    by apply elem_of_map_to_list.
  - intros H.
    destruct (filter _ _) as [|[i e] tl] eqn:Hf; [done|]. exfalso.
    assert (Hin : (i, e) ∈ filter (λ kv : N * IEvent, slug kv.2 = cast_slug U s)
                              (map_to_list (events db)))
      by (rewrite Hf; left).
    apply list_elem_of_filter in Hin as [Hs Hin].
    apply elem_of_map_to_list in Hin. by eapply H.
Qed.

Lemma findOne_unique U s db i e :
  unique_slugs db = true → events db !! i = Some e → slug e = cast_slug U s →
  Event_findOne_slug U s db = Some (i, e).
Proof.
  intros Hu He Hs.
  destruct (Event_findOne_slug U s db) as [[j e']|] eqn:Hf.
  - destruct (findOne_Some _ _ _ _ _ Hf) as [He' Hs'].
    rewrite unique_slugs_spec in Hu.
    assert (j = i) by (eapply Hu; [done|done|congruence]). subst j.
    congruence.
  - rewrite findOne_None in Hf. by destruct (Hf i e He).
Qed.

Lemma blank_slug s :
  bool_decide (s = []) || bool_decide (trim s = [])
  = bool_decide (trim s = []).
Proof.
  case_bool_decide as Hs; [|done]. subst s. by vm_compute.
Qed.

(** A request whose connection is made and whose query is answered. *)
Lemma GET_answered U env driver w c w' param db :
  connectToDatabase env driver w = (Returns c, w') →
  GET U env driver None param w db
  = (w', [],
     if bool_decide (trim param = []) then
       {| status := 400; body_message := str "Invalid slug parameter";
          body_error := Some (str "Slug must be a non-empty string");
          body_event := None |}
     else
       match Event_findOne_slug U (toLowerCase U (trim param)) db with
       | None =>
           {| status := 404; body_message := str "Event not found";
              body_error := Some (str "No event exists with slug: "
                                  ++ toLowerCase U (trim param));
              body_event := None |}
       | Some event =>
           {| status := 200;
              body_message := str "Event retrieved successfully";
              body_error := None; body_event := Some event |}
       end).
Proof.
  intros Hc. unfold GET. rewrite Hc, blank_slug.
  destruct (bool_decide (trim param = [])); [done|]. cbn zeta.
  by destruct (Event_findOne_slug _ _ _).
Qed.

(** *** The length of a slug *)

Lemma trim_length s : (length (trim s) ≤ length s)%nat.
Proof.
  unfold trim, trimEnd, trimStart. rewrite length_rev.
  etrans; [apply skip_while_length|]. rewrite length_rev.
  apply skip_while_length.
Qed.

Lemma remove_special_length s : (length (remove_special s) ≤ length s)%nat.
Proof. apply List.filter_length_le. Qed.

Lemma collapse_spaces_length s : ∀ b,
  (length (collapse_spaces b s) ≤ length s)%nat.
Proof.
  induction s as [|c tl IH]; intros b; [done|]. cbn.
  destruct (is_space c); [destruct b|]; cbn;
    [specialize (IH true)|specialize (IH true)|specialize (IH false)]; lia.
Qed.

Lemma collapse_hyphens_length s : ∀ b,
  (length (collapse_hyphens b s) ≤ length s)%nat.
Proof.
  induction s as [|c tl IH]; intros b; [done|]. cbn.
  destruct (is_hyphen c); [destruct b|]; cbn;
    [specialize (IH true)|specialize (IH true)|specialize (IH false)]; lia.
Qed.

Lemma strip_hyphens_length s : (length (strip_hyphens s) ≤ length s)%nat.
Proof.
  unfold strip_hyphens, strip_trailing_hyphens. rewrite length_rev.
  etrans; [apply skip_while_length|]. rewrite length_rev.
  apply skip_while_length.
Qed.

Lemma slug_spec_length U s :
  (length (slug_spec U s) ≤ length (toLowerCase U s))%nat.
Proof.
  unfold slug_spec.
  etrans; [apply strip_hyphens_length|].
  etrans; [apply collapse_hyphens_length|].
  etrans; [apply collapse_spaces_length|].
  etrans; [apply remove_special_length|]. apply trim_length.
Qed.

(** *** The shape of a normalized time *)

Lemma split_hmm_shape c h m tail :
  split_hmm c = Some (h, m, tail) →
  c = h ++ str ":" ++ m ++ tail ∧ hour_digits h = true
  ∧ minute_digits m = true.
Proof.
  unfold split_hmm, hour_digits, minute_digits, all_digits.
  destruct c as [|h1 [|c2 tl]]; try done.
  destruct (is_digit h1) eqn:H1; [|done].
  destruct (N.eqb_spec c2 (ch ":")) as [->|Hc].
  - destruct tl as [|m1 [|m2 tl]]; try done.
    destruct (is_digit m1) eqn:M1, (is_digit m2) eqn:M2; try done.
    intros [= <- <- <-]. cbn [forallb length]. by rewrite H1, M1, M2.
  - destruct (is_digit c2) eqn:H2; [|done].
    destruct tl as [|c3 [|m1 [|m2 tl]]]; try done.
    destruct (N.eqb_spec c3 (ch ":")) as [->|]; [|done].
    destruct (is_digit m1) eqn:M1, (is_digit m2) eqn:M2; try done.
    intros [= <- <- <-]. cbn [forallb length]. by rewrite H1, H2, M1, M2.
Qed.

Lemma decimal_hour h :
  hour_digits h = true → (0 ≤ decimal h ≤ 99)%Z.
Proof.
  intros [(h1 & -> & H1)|(h1 & h2 & -> & H1 & H2)]%hour_digits_inv;
    unfold decimal; cbn [fold_left];
    repeat match goal with
           | H : is_digit _ = true |- _ => apply digit_range in H
           end; lia.
Qed.

Lemma to_24h_bound v p : (0 ≤ v ≤ 99)%Z → (0 ≤ to_24h v p < 112)%Z.
Proof.
  intros Hv. unfold to_24h. destruct p; destruct (Z.eqb_spec v 12); lia.
Qed.

Lemma padded_hour_shape z :
  (0 ≤ z < 112)%Z →
  all_digits (padStart 2 (ch "0") (Number_toString (Int z))) = true
  ∧ (2 ≤ length (padStart 2 (ch "0") (Number_toString (Int z))) ≤ 3)%nat.
Proof.
  intros Hz.
  assert (Hall : all_from hour_ok (Z.to_nat 112) 0 = true) by (by vm_compute).
  pose proof (all_from_spec _ _ _ z Hall ltac:(lia)) as H.
  unfold hour_ok in H. cbn zeta in H.
  apply andb_true_iff in H as [[H1 H2%Nat.leb_le]%andb_true_iff H3%Nat.leb_le].
  done.
Qed.

Lemma time_spec_shape c t :
  time_spec c = Ok t →
  ∃ h m, t = h ++ str ":" ++ m ∧ all_digits h = true
         ∧ (1 ≤ length h ≤ 3)%nat ∧ minute_digits m = true.
Proof.
  unfold time_spec. destruct (is_24h c) eqn:H24.
  - intros Heq. assert (t = c) by congruence. subst t. clear Heq.
    unfold is_24h in H24.
    destruct (split_hmm c) as [[[h m] tail]|] eqn:Hs; [|done].
    destruct tail; [|done].
    destruct (split_hmm_shape _ _ _ _ Hs) as (-> & Hh & Hm).
    exists h, m. rewrite app_nil_r. split; [done|].
    unfold hour_digits in Hh.
    apply andb_true_iff in Hh as [Hd [Hl%Nat.eqb_eq|Hl%Nat.eqb_eq]%orb_true_iff];
      repeat split; try done; lia.
  - unfold split_12h.
    destruct (split_hmm c) as [[[h m] tail]|] eqn:Hs; [|done].
    destruct (split_hmm_shape _ _ _ _ Hs) as (_ & Hh & Hm).
    assert (Hp : ∀ p,
              Ok (padStart 2 (ch "0")
                    (Number_toString (Int (to_24h (decimal h) p)))
                  ++ str ":" ++ m) = Ok t →
              ∃ h' m', t = h' ++ str ":" ++ m' ∧ all_digits h' = true
                       ∧ (1 ≤ length h' ≤ 3)%nat ∧ minute_digits m' = true).
    { intros p Heq.
      destruct (padded_hour_shape (to_24h (decimal h) p)) as [Hd Hl].
      { by apply to_24h_bound, decimal_hour. }
      exists (padStart 2 (ch "0")
                (Number_toString (Int (to_24h (decimal h) p)))), m.
      split; [congruence|]. split; [done|]. split; [lia|done]. }
    repeat case_bool_decide; try done; apply Hp.
Qed.

(** ** The connection cache *)

Lemma cache_inv_idle : cache_inv {| world := idle; waiting := [] |}.
Proof.
  split; [|split]; cbn.
  - intros p uri H. by rewrite lookup_nil in H.
  - intros p H. by apply elem_of_nil in H.
  - intros p uri m H. by rewrite lookup_nil in H.
Qed.

Lemma cache_inv_call r uri : cache_inv r → cache_inv (step r (Call uri)).
Proof.
  intros (I1 & I2 & I3).
  assert (Hsame : cache_inv {| world := world r; waiting := waiting r |})
    by (by split; [|split]).
  cbn [step]. unfold connect_start.
  destruct (conn (cached (world r))) as [c|] eqn:Hc; [done|].
  destruct (promise (cached (world r))) as [p|] eqn:Hp; [done|].
  assert (Hnew : cache_inv
            {| world :=
                 {| cached := {| conn := None;
                                 promise := Some (length (attempts (world r))) |};
                    attempts := attempts (world r) ++ [(default [] uri, None)];
                    disconnects := disconnects (world r) |};
               waiting := length (attempts (world r)) :: waiting r |}).
  { split; [|split]; cbn.
    - intros q u Hq. apply lookup_app_Some in Hq as [Hq|[Hl Hq]].
      + destruct (I1 q u Hq) as [Hq' _]. congruence.
      + split; [|done]. f_equal.
        apply list_lookup_singleton_Some in Hq as [Hq _]. lia.
    - intros q [->|Hq]%elem_of_cons; [done|].
      specialize (I2 q Hq). congruence.
    - intros q u m Hq. apply lookup_app_Some in Hq as [Hq|[Hl Hq]].
      + specialize (I3 q u m Hq). congruence.
      + by apply list_lookup_singleton_Some in Hq as [_ ?]. }
  destruct uri as [[|c tl]|]; [done| |done].
  exact Hnew.
Qed.

Lemma cache_inv_settle r p o : cache_inv r → cache_inv (step r (Settle p o)).
Proof.
  intros (I1 & I2 & I3).
  assert (Hsame : cache_inv {| world := world r; waiting := waiting r |})
    by (by split; [|split]).
  cbn [step]. unfold settle.
  destruct (attempts (world r) !! p) as [[uri [o'|]]|] eqn:Hp; try done.
  destruct (I1 p uri Hp) as [Hprom Hconn].
  assert (Hlt : (p < length (attempts (world r)))%nat)
    by (by eapply lookup_lt_Some).
  assert (Hother : ∀ q x, q ≠ p →
            <[p := (uri, Some o)]> (attempts (world r)) !! q = Some x →
            attempts (world r) !! q = Some x).
  { intros q x Hne. by rewrite list_lookup_insert_ne. }
  split; [|split]; cbn.
  - intros q u Hq. destruct (decide (q = p)) as [->|Hne].
    + rewrite list_lookup_insert_eq in Hq by done. done.
    + apply Hother in Hq; [|done]. destruct (I1 q u Hq) as [Hq' _].
      congruence.
  - intros q Hq. specialize (I2 q Hq). by destruct o.
  - intros q u m Hq. destruct (decide (q = p)) as [->|Hne].
    + rewrite list_lookup_insert_eq in Hq by done.
      injection Hq as _ ->. done.
    + apply Hother in Hq; [|done]. specialize (I3 q u m Hq). congruence.
Qed.

Lemma cache_inv_resume r p : cache_inv r → cache_inv (step r (Resume p)).
Proof.
  intros (I1 & I2 & I3). cbn [step].
  destruct (attempts (world r) !! p) as [[uri [o|]]|] eqn:Hp;
    try (by split; [|split]).
  case_bool_decide as Hw; [|by split; [|split]].
  pose proof (I2 p Hw) as Hprom.
  assert (Hwait : ∀ q, q ∈ List.filter (λ q, negb (q =? p)%nat) (waiting r) →
                       False).
  { intros q Hq%list_elem_of_In%filter_In. destruct Hq as [Hq Hne].
    apply list_elem_of_In in Hq. specialize (I2 q Hq).
    apply negb_true_iff, Nat.eqb_neq in Hne. congruence. }
  destruct o as [m|e]; cbn [connect_resume snd].
  - split; [|split]; cbn; [done| |done]. intros q Hq. by destruct (Hwait q).
  - split; [|split]; cbn.
    + intros q u Hq. destruct (I1 q u Hq) as [Hq' _]. congruence.
    + intros q Hq. by destruct (Hwait q).
    + done.
Qed.

Lemma cache_inv_run es : cache_inv (run es).
Proof.
  unfold run.
  assert (H : ∀ r, cache_inv r → cache_inv (fold_left step es r)).
  { induction es as [|e tl IH]; intros r Hr; [done|]. cbn. apply IH.
    destruct e; [by apply cache_inv_call|by apply cache_inv_settle
                |by apply cache_inv_resume]. }
  apply H, cache_inv_idle.
Qed.

Lemma elem_of_pending w p :
  p ∈ pending w ↔ ∃ uri, attempts w !! p = Some (uri, None).
Proof.
  unfold pending. rewrite list_elem_of_In, filter_In, in_seq. split.
  - intros [_ H]. destruct (attempts w !! p) as [[uri [o|]]|]; try done.
    by exists uri.
  - intros [uri H]. rewrite H. split; [|done].
    apply lookup_lt_Some in H. lia.
Qed.

Lemma NoDup_pending w : NoDup (pending w).
Proof.
  unfold pending. apply NoDup_ListNoDup, List.NoDup_filter, List.seq_NoDup.
Qed.

Lemma NoDup_same_length {A} (l : list A) :
  NoDup l → (∀ x y, x ∈ l → y ∈ l → x = y) → (length l ≤ 1)%nat.
Proof.
  intros Hn Hs. destruct l as [|x [|y tl]]; cbn; [lia|lia|].
  exfalso. apply NoDup_cons in Hn as [Hx _]. apply Hx.
  rewrite (Hs x y); [left|left|right; left].
Qed.

(** *** One call after the other *)

Lemma connect_start_idle uri w :
  conn (cached w) = None → promise (cached w) = None → uri ≠ [] →
  connect_start (Some uri) w
  = (Await (length (attempts w)),
     {| cached := {| conn := None; promise := Some (length (attempts w)) |};
        attempts := attempts w ++ [(uri, None)];
        disconnects := disconnects w |}).
Proof.
  intros Hc Hp Hu. unfold connect_start. rewrite Hc, Hp. by destruct uri.
Qed.

Lemma lookup_snoc {A} (l : list A) x : (l ++ [x]) !! length l = Some x.
Proof. by rewrite lookup_app_r, Nat.sub_diag by lia. Qed.

Lemma insert_snoc {A} (l : list A) x y : <[length l := y]> (l ++ [x]) = l ++ [y].
Proof. by rewrite insert_app_r_alt, Nat.sub_diag by lia. Qed.

Lemma connect_fulfilled uri m w :
  conn (cached w) = None → promise (cached w) = None → uri ≠ [] →
  connectToDatabase (Some uri) (Returns m) w
  = (Returns (Some m),
     {| cached := {| conn := Some m; promise := Some (length (attempts w)) |};
        attempts := attempts w ++ [(uri, Some (Returns m))];
        disconnects := disconnects w |}).
Proof.
  intros Hc Hp Hu. unfold connectToDatabase.
  rewrite connect_start_idle by done. unfold settle.
  cbn [attempts cached disconnects promise conn].
  by rewrite lookup_snoc, insert_snoc.
Qed.

Lemma connect_rejected uri e w :
  conn (cached w) = None → promise (cached w) = None → uri ≠ [] →
  connectToDatabase (Some uri) (Throws e) w
  = (Throws e,
     {| cached := {| conn := None; promise := None |};
        attempts := attempts w ++ [(uri, Some (Throws e))];
        disconnects := disconnects w |}).
Proof.
  intros Hc Hp Hu. unfold connectToDatabase.
  rewrite connect_start_idle by done. unfold settle.
  cbn [attempts cached disconnects promise conn].
  by rewrite lookup_snoc, insert_snoc.
Qed.

(** *** When a save succeeds *)

Lemma validate_booking_None b :
  validate_booking b = None ↔ is_Some (eventId b) ∧ email_shape (email b).
Proof.
  unfold validate_booking. cbn [first_error].
  rewrite <- test_email. case_bool_decide as Hid.
  - destruct (required (email b)) eqn:Hr.
    + destruct (test emailRegex (email b)); naive_solver.
    + split; [done|]. intros [_ Ht]. unfold required in Hr.
      destruct (email b); [by vm_compute in Ht|done].
  - split; [done|]. by intros [? _].
Qed.

Lemma with_description_same e : with_description (description e) e = e.
Proof. by destruct e. Qed.

Section Success.

Variable unicodeLower unicodeUpper : jsstring → jsstring.
Variable implParse : jsstring → option Z.
Hypothesis lower_ok : ∀ t d, d ∈ unicodeLower t → is_upper d = false.

Lemma slug_free_fresh id s evs :
  evs !! id = None →
  (slug_free id s evs = true ↔ ∀ j e, evs !! j = Some e → slug e ≠ s).
Proof.
  intros Hid. rewrite slug_free_spec. split; intros H j e He.
  - destruct (H j e He) as [->|]; [congruence|done].
  - right. by eapply H.
Qed.

Lemma event_pre_save_new id data :
  event_pre_save unicodeLower unicodeUpper implParse
                 (new_event unicodeLower id data)
  = match normalizeDate implParse (date data) with
    | Throw e =>
        (slug_step unicodeLower (new_event unicodeLower id data), Some e)
    | Ok d =>
        match normalizeTime unicodeUpper (time data) with
        | Throw e =>
            (assign_date d (slug_step unicodeLower
                              (new_event unicodeLower id data)), Some e)
        | Ok t =>
            (assign_time t
               (assign_date d (slug_step unicodeLower
                                 (new_event unicodeLower id data))), None)
        end
    end.
Proof. by rewrite event_pre_save_unfold. Qed.

Lemma save_new_event_iff id data db :
  (∃ d db', save_event unicodeLower unicodeUpper implParse
                       (new_event unicodeLower id data) db = (Ok d, db'))
  ↔ validate_event (cast_event unicodeLower data) = None
    ∧ (∃ d, normalizeDate implParse (date data) = Ok d)
    ∧ (∃ t, normalizeTime unicodeUpper (time data) = Ok t)
    ∧ events db !! id = None
    ∧ (∀ j e, events db !! j = Some e →
              slug e ≠ generateSlug unicodeLower (trim (title data))).
Proof.
  split.
  - intros (d & db' & Hs).
    destruct (save_new_event _ _ _ lower_ok _ _ _ _ _ Hs)
      as (doc' & Hp & _ & Hid & Hf & _ & Hslug & _).
    destruct (save_event_ok _ _ _ _ _ _ _ Hs) as (_ & Hv & _).
    split; [done|]. rewrite event_pre_save_new in Hp.
    destruct (normalizeDate _ _) as [dd|]; [|done].
    destruct (normalizeTime _ _) as [tt0|]; [|done].
    split; [by eexists|]. split; [by eexists|]. split; [done|].
    rewrite Hslug in Hf. by apply (slug_free_fresh id _ _ Hid).
  - intros (Hv & [dd Hd] & [tt0 Ht] & Hid & Hfree).
    unfold save_event.
    change (fields (new_event unicodeLower id data))
      with (cast_event unicodeLower data).
    rewrite Hv.
    destruct (event_pre_save _ _ _ _) as [doc' [e|]] eqn:Hp.
    { rewrite event_pre_save_new, Hd, Ht in Hp. done. }
    destruct (event_pre_save_title _ _ _ lower_ok
                (new_event unicodeLower id data) doc' eq_refl Hp)
      as (Hslug & _ & Hdoc & Hnew).
    cbn in Hdoc, Hnew, Hslug. unfold write_event. rewrite Hnew, Hdoc, Hid.
    rewrite (proj2 (slug_free_fresh id _ _ Hid)); [by eexists _, _|].
    by rewrite Hslug.
Qed.

Lemma save_description_ok db id e v :
  unique_slugs db = true → events db !! id = Some e →
  validate_event (with_description (trim v) e) = None →
  ∃ d db',
    save_event unicodeLower unicodeUpper implParse
               (assign_description v (hydrate id e)) db = (Ok d, db')
    ∧ events db' !! id = Some (with_description (trim v) e).
Proof.
  intros Hu He Hv. unfold save_event, assign_description, set_trim, mark.
  cbn [fields hydrate]. rewrite Hv. rewrite event_pre_save_unfold.
  assert (Hfree : slug_free id (slug e) (events db) = true).
  { apply slug_free_spec. intros j e' He'.
    destruct (decide (j = id)) as [|Hne]; [by left|right]. intros Hs.
    apply Hne. rewrite unique_slugs_spec in Hu. by eapply Hu. }
  case_bool_decide as Hd; cbn [negb].
  - unfold slug_step.
    change (isModified P_title _) with false.
    change (isModified P_date _) with false.
    change (isModified P_time _) with false. cbn iota zeta.
    unfold write_event. cbn [isNew _id hydrate fields modifiedPaths].
    rewrite He. rewrite merge_event_none, Hfree.
    eexists _, _. split; [done|]. cbn [events].
    rewrite lookup_insert_eq, Hd. by rewrite with_description_same.
  - unfold slug_step.
    change (isModified P_title _) with false.
    change (isModified P_date _) with false.
    change (isModified P_time _) with false. cbn iota zeta.
    unfold write_event. cbn [isNew _id hydrate fields modifiedPaths].
    rewrite He.
    assert (Hm : merge_event
                   (λ p, isModified p
                           {| _id := id; fields := with_description (trim v) e;
                              isNew := false;
                              modifiedPaths := [P_description] |})
                   e (with_description (trim v) e)
                 = with_description (trim v) e) by (by destruct e).
    rewrite Hm. cbn [slug with_description]. rewrite Hfree.
    eexists _, _. split; [done|]. cbn [events]. by rewrite lookup_insert_eq.
Qed.

End Success.

Lemma save_new_booking_iff (unicodeLower : jsstring → jsstring) id data db :
  (∃ log d db',
     save_booking (new_booking unicodeLower id data) db = (log, Ok d, db'))
  ↔ (∃ i ev, eventId data = Some i ∧ events db !! i = Some ev)
    ∧ email_shape (trim (toLowerCase unicodeLower (email data)))
    ∧ bookings db !! id = None.
Proof.
  split.
  - intros (log & d & db' & (Hv & Hp & Hw & _)%save_booking_ok).
    apply validate_booking_None in Hv as [_ Hshape].
    rewrite booking_pre_save_unfold in Hp.
    cbn [isNew new_booking orb fields eventId] in Hp.
    unfold find_event in Hp.
    split.
    { destruct (eventId data) as [i|]; [|by injection Hp].
      destruct (events db !! i) as [ev|] eqn:Hev; [|by injection Hp].
      by exists i, ev. }
    split; [done|]. revert Hw. unfold write_booking.
    cbn [isNew _id new_booking]. by destruct (bookings db !! id).
  - intros ((i & ev & Hi & Hev) & Hshape & Hid).
    eexists _, _, _. apply save_booking_ok.
    split; [|split; [|split; [|done]]].
    + apply validate_booking_None. cbn [fields new_booking eventId email].
      rewrite Hi. by split.
    + rewrite booking_pre_save_unfold.
      cbn [isNew new_booking orb fields eventId]. unfold find_event.
      by rewrite Hi, Hev.
    + unfold write_booking. cbn [isNew _id new_booking]. by rewrite Hid.
Qed.

Lemma save_event_others
    (unicodeLower unicodeUpper : jsstring → jsstring)
    (implParse : jsstring → option Z) doc db j :
  j ≠ _id doc →
  events (save_event unicodeLower unicodeUpper implParse doc db).2 !! j
  = events db !! j.
Proof.
  intros Hj.
  destruct (save_event_store unicodeLower unicodeUpper implParse doc db)
    as [->|[e ->]]; [done|].
  cbn [events]. by rewrite lookup_insert_ne.
Qed.

Lemma save_booking_others doc db j :
  j ≠ _id doc → bookings (save_booking doc db).2 !! j = bookings db !! j.
Proof.
  intros Hj. unfold save_booking.
  destruct (validate_booking (fields doc)); [done|].
  destruct (booking_pre_save doc db) as [log [[]|e]]; [|done].
  destruct (write_booking doc db) as [db'|] eqn:Hw; [|done]. cbn [snd].
  revert Hw. unfold write_booking.
  destruct (isNew doc), (bookings db !! _id doc); try done;
    intros [= <-]; cbn [bookings]; by rewrite lookup_insert_ne.
Qed.

Lemma GET_same U env driver query p1 p2 w db :
  forallb is_ascii p1 = true → forallb is_ascii p2 = true →
  map lower_ascii (trim p1) = map lower_ascii (trim p2) →
  GET U env driver query p1 w db = GET U env driver query p2 w db.
Proof.
  intros H1 H2 Heq. unfold GET.
  destruct (connectToDatabase env driver w) as [[c|e] w']; [|done].
  rewrite !blank_slug.
  assert (Hb : bool_decide (trim p1 = []) = bool_decide (trim p2 = [])).
  { apply bool_decide_ext. split; intros Hn; rewrite Hn in Heq.
    - symmetry in Heq. by apply map_eq_nil in Heq.
    - by apply map_eq_nil in Heq. }
  rewrite Hb. cbn zeta.
  rewrite (toLowerCase_ascii U (trim p1)) by (by apply forallb_trim).
  rewrite (toLowerCase_ascii U (trim p2)) by (by apply forallb_trim).
  by rewrite Heq.
Qed.

(** ** The padded hour and the stored date and time *)

Lemma hour_numeral_two_digits hour :
  (0 ≤ hour < 100)%Z →
  length (hour_numeral hour) = 2%nat ∧ all_digits (hour_numeral hour) = true
  ∧ decimal (hour_numeral hour) = hour.
Proof.
  intros Hz.
  assert (Hall : all_from hour_numeral_ok (Z.to_nat 100) 0 = true)
    by (by vm_compute).
  pose proof (all_from_spec _ _ _ hour Hall ltac:(lia)) as H.
  unfold hour_numeral_ok in H.
  apply andb_true_iff in H as [[H1%Nat.eqb_eq H2]%andb_true_iff H3%Z.eqb_eq].
  done.
Qed.

Lemma hour_numeral_padStart z :
  (0 ≤ z < 112)%Z →
  padStart 2 (ch "0") (Number_toString (Int z)) = hour_numeral z.
Proof.
  intros Hz.
  assert (Hall : all_from hour_padded_ok (Z.to_nat 112) 0 = true)
    by (by vm_compute).
  pose proof (all_from_spec _ _ _ z Hall ltac:(lia)) as H.
  unfold hour_padded_ok in H. by apply bool_decide_eq_true in H.
Qed.

Lemma time_words_spec c : time_words c = time_spec c.
Proof.
  unfold time_words, time_spec. destruct (is_24h c); [done|].
  unfold split_12h.
  destruct (split_hmm c) as [[[h m] tail]|] eqn:Hs; [|done].
  destruct (split_hmm_shape _ _ _ _ Hs) as (_ & Hh & _).
  pose proof (decimal_hour h Hh) as Hd.
  repeat case_bool_decide; try done;
    by rewrite hour_numeral_padStart by by apply to_24h_bound.
Qed.

Lemma normalizeTime_words_eq U s :
  (∀ t d, d ∈ U t → is_lower d = false) →
  normalizeTime U s = normalizeTime_words U s.
Proof.
  intros HU. rewrite normalizeTime_spec_eq by done.
  unfold normalizeTime_spec, normalizeTime_words. by rewrite time_words_spec.
Qed.




(** * The claims *)

(** C1. When a Booking that passes validation is new or has its eventId
    modified, the pre-save hook makes exactly one lookup of the Event
    collection, by that eventId; when the lookup finds nothing the save
    fails with DanglingReferenceError and the store is the store as it was
    (the Booking collection has the size it had); a save that succeeds
    found the Event at the lookup; and when the document is not new and
    its eventId is not modified the hook makes no lookup. *)
Theorem booking_reference_check (doc : Document IBooking) (db : Store) :
  validate_booking (fields doc) = None →
  (isNew doc || isModified P_eventId doc = true →
     (save_booking doc db).1.1 = [FindEventById (eventId (fields doc))]
     ∧ (find_event db (eventId (fields doc)) = None →
          (save_booking doc db).1.2 = Throw DanglingReferenceError
          ∧ (save_booking doc db).2 = db
          ∧ size (bookings (save_booking doc db).2) = size (bookings db))
     ∧ (∀ d, (save_booking doc db).1.2 = Ok d →
             is_Some (find_event db (eventId (fields doc)))))
  ∧ (isNew doc || isModified P_eventId doc = false →
       (save_booking doc db).1.1 = []).
Proof.
  intros Hv. unfold save_booking. rewrite Hv, booking_pre_save_unfold.
  split; intros ->.
  - destruct (find_event db (eventId (fields doc))) as [ev|].
    + destruct (write_booking doc db); cbn; repeat split; try done;
        intros; by exists ev.
    + cbn. done.
  - by destruct (write_booking doc db).
Qed.

(** A new Booking for an event that is not in the store: the lookup is
    made, the save fails and the store is unchanged. *)
Lemma booking_reference_check_witness :
  (save_booking (new_booking asciiLower 1 (sample_booking (Some 9) "Ada@Example.com"))
                sample_store).1
  = ([FindEventById (Some 9)], Throw DanglingReferenceError)
  ∧ (save_booking (new_booking asciiLower 1 (sample_booking (Some 9) "Ada@Example.com"))
                  sample_store).2 = sample_store.
Proof.
  pose proof (booking_reference_check
                (new_booking asciiLower 1 (sample_booking (Some 9) "Ada@Example.com"))
                sample_store) as H.
  destruct H as [H _]; [vm_compute; reflexivity|].
  destruct (H eq_refl) as (Hlog & Hfail & _).
  destruct Hfail as (Hr & Hdb & _); [vm_compute; reflexivity|].
  split; [|exact Hdb].
  rewrite (surjective_pairing (save_booking _ _).1). by rewrite Hlog, Hr.
Defined.

(** C2. normalizeTime trims and uppercases its input.  When the result is
    a 24-hour time H[H]:MM with the hour in 0..23 and the minute in 0..59
    it is returned as it is, not padded; otherwise, when it is H[H]:MM
    followed (after optional white space) by AM or PM, the hour gets 12
    added when PM and not 12, becomes 0 when AM and 12, and is written
    with a zero in front when it is a single digit; otherwise the call
    fails with InvalidTimeFormat.  The padded hour is two digits that read
    as the hour.  So "14:30" gives "14:30", "9:00" gives "9:00",
    "2:30 PM" gives "14:30", "25:00" fails, "2:05 AM" gives "02:05",
    "12:05 AM" gives "00:05", "12:05 PM" gives "12:05", " 9:15 pm " gives
    "21:15" and " 7:45 am " gives "07:45".  ([unicodeUpper] never gives an
    ASCII small letter.) *)
Theorem normalizeTime_contract (unicodeUpper : jsstring → jsstring) :
  (∀ t d, d ∈ unicodeUpper t → is_lower d = false) →
  (∀ timeStr,
     normalizeTime unicodeUpper timeStr
     = normalizeTime_words unicodeUpper timeStr)
  ∧ (∀ hour, (0 ≤ hour < 100)%Z →
       length (hour_numeral hour) = 2%nat
       ∧ all_digits (hour_numeral hour) = true
       ∧ decimal (hour_numeral hour) = hour)
  ∧ normalizeTime unicodeUpper (str "14:30") = Ok (str "14:30")
  ∧ normalizeTime unicodeUpper (str "9:00") = Ok (str "9:00")
  ∧ normalizeTime unicodeUpper (str "2:30 PM") = Ok (str "14:30")
  ∧ normalizeTime unicodeUpper (str "25:00") = Throw InvalidTimeFormat
  ∧ normalizeTime unicodeUpper (str "2:05 AM") = Ok (str "02:05")
  ∧ normalizeTime unicodeUpper (str "12:05 AM") = Ok (str "00:05")
  ∧ normalizeTime unicodeUpper (str "12:05 PM") = Ok (str "12:05")
  ∧ normalizeTime unicodeUpper (str " 9:15 pm ") = Ok (str "21:15")
  ∧ normalizeTime unicodeUpper (str " 7:45 am ") = Ok (str "07:45").
Proof.
  intros HU. split; [intros s; by apply normalizeTime_words_eq|].
  split; [apply hour_numeral_two_digits|].
  repeat split; by vm_compute.
Qed.

(** With the ASCII case table, on " 9:05 am ": the hour gets its zero. *)
Lemma normalizeTime_contract_witness :
  normalizeTime asciiUpper (str " 9:05 am ")
  = normalizeTime_words asciiUpper (str " 9:05 am ")
  ∧ normalizeTime_words asciiUpper (str " 9:05 am ") = Ok (str "09:05").
Proof.
  split; [|by vm_compute].
  exact (proj1 (normalizeTime_contract asciiUpper asciiUpper_not_lower)
               (str " 9:05 am ")).
Defined.

(** C5. generateSlug is a total function: it returns the input lowercased,
    trimmed, without the characters that are neither word characters nor
    white space nor hyphens, with every run of white space turned into
    one hyphen, every run of hyphens into one hyphen, and the hyphens at
    both ends removed.  The result holds lowercase word characters and
    hyphens only, no two hyphens in a row and no hyphen at either end; it
    can be empty.  ([unicodeLower] never gives an ASCII capital.) *)
Theorem generateSlug_shape (unicodeLower : jsstring → jsstring) :
  (∀ t d, d ∈ unicodeLower t → is_upper d = false) →
  (∀ title,
     generateSlug unicodeLower title = slug_spec unicodeLower title
     ∧ slug_shaped (generateSlug unicodeLower title) = true)
  ∧ generateSlug unicodeLower (str " ?!  -- ") = [].
Proof.
  intros HU. split; [|by vm_compute]. intros title.
  rewrite generateSlug_slug_spec. split; [done|]. by apply slug_spec_shaped.
Qed.

(** With the ASCII case table, on a title with capitals, punctuation,
    runs of spaces and hyphens. *)
Lemma generateSlug_shape_witness :
  generateSlug asciiLower (str "  React  Summit -- 2025!  ")
  = str "react-summit-2025"
  ∧ slug_shaped (generateSlug asciiLower (str "  React  Summit -- 2025!  "))
    = true.
Proof.
  split; [by vm_compute|].
  exact (proj2 (proj1 (generateSlug_shape asciiLower asciiLower_not_upper)
                      (str "  React  Summit -- 2025!  "))).
Defined.

(** C9. The 12-hour branch of normalizeTime takes any hour of one or two
    digits and any minute of two digits: "13:30 PM" is accepted and gives
    "25:30", which is not a 24-hour time. *)
Theorem normalizeTime_12h_unchecked (unicodeUpper : jsstring → jsstring) :
  normalizeTime unicodeUpper (str "13:30 PM") = Ok (str "25:30")
  ∧ test time24Regex (str "25:30") = false
  ∧ ∀ h mm p,
      hour_digits h = true → minute_digits mm = true →
      normalizeTime unicodeUpper (h ++ str ":" ++ mm ++ str " " ++ period_str p)
      = Ok (padStart 2 (ch "0")
                     (Number_toString (Int (to_24h (decimal h) p)))
            ++ str ":" ++ mm).
Proof.
  split; [by vm_compute|]. split; [by vm_compute|].
  intros h mm p. apply normalizeTime_12h_any.
Qed.

(** C10. generateSlug is idempotent.  ([unicodeLower] never gives an ASCII
    capital.) *)
Theorem generateSlug_idempotent (unicodeLower : jsstring → jsstring) :
  (∀ t d, d ∈ unicodeLower t → is_upper d = false) →
  ∀ s, generateSlug unicodeLower (generateSlug unicodeLower s)
       = generateSlug unicodeLower s.
Proof.
  intros HU s. rewrite !generateSlug_slug_spec.
  apply slug_spec_fixed. by apply slug_spec_shaped.
Qed.

(** With the ASCII case table, on a title with capitals and punctuation. *)
Lemma generateSlug_idempotent_witness :
  generateSlug asciiLower (generateSlug asciiLower (str " AI & Machine Learning Expo "))
  = generateSlug asciiLower (str " AI & Machine Learning Expo ").
Proof.
  exact (generateSlug_idempotent asciiLower asciiLower_not_upper
           (str " AI & Machine Learning Expo ")).
Defined.

(** C3 (the code at the input that breaks the claim).  The date-only
    string "+010000-01-01" is a valid date of the ECMAScript format;
    normalizeDate accepts it and returns "+010000-01-01", which is not of
    the form YYYY-MM-DD. *)
Theorem normalizeDate_expanded_year (implParse : jsstring → option Z) :
  normalizeDate implParse (str "+010000-01-01") = Ok (str "+010000-01-01")
  ∧ canonical_date (str "+010000-01-01") = false.
Proof. split; by vm_compute. Qed.

(** C4. An update of an Event that assigns the description only leaves in
    the collection the slug, the date, the time and the title that were
    there; and the pre-save hook changes the slug only when the title is a
    modified path, the date only when the date is, the time only when the
    time is. *)
Theorem description_update_frame
    (unicodeLower unicodeUpper : jsstring → jsstring)
    (implParse : jsstring → option Z) db id e v :
  events db !! id = Some e →
  (∃ e', events (save_event unicodeLower unicodeUpper implParse
                   (assign_description v (hydrate id e)) db).2 !! id = Some e'
         ∧ slug e' = slug e ∧ date e' = date e ∧ time e' = time e
         ∧ title e' = title e)
  ∧ ∀ doc,
      (isModified P_title doc = false →
         slug (fields (event_pre_save unicodeLower unicodeUpper implParse doc).1)
         = slug (fields doc))
      ∧ (isModified P_date doc = false →
           date (fields (event_pre_save unicodeLower unicodeUpper implParse doc).1)
           = date (fields doc))
      ∧ (isModified P_time doc = false →
           time (fields (event_pre_save unicodeLower unicodeUpper implParse doc).1)
           = time (fields doc)).
Proof.
  intros He. split; [by apply save_description_frame|].
  apply event_pre_save_frame.
Qed.

(** The sample event of the sample store gets a new description. *)
Lemma description_update_frame_witness :
  ∃ e', events (sample_save
                  (assign_description (str "  A new description of the summit ")
                     (hydrate 7 (with_slug (str "react-summit-2025")
                                   (sample_event "2025-06-13" "09:00"))))
                  sample_store).2 !! 7 = Some e'
        ∧ slug e' = str "react-summit-2025" ∧ date e' = str "2025-06-13"
        ∧ time e' = str "09:00" ∧ title e' = str "React Summit 2025".
Proof.
  exact (proj1 (description_update_frame asciiLower asciiUpper no_parse
                  sample_store 7 _ (str "  A new description of the summit ")
                  eq_refl)).
Defined.

(** A time that is not a time: the hook has set the slug of the document
    in memory when it fails, and the store is as it was. *)
Lemma save_event_bad_time :
  sample_save entered_bad_time empty_store
  = (Throw InvalidTimeFormat, empty_store)
  ∧ slug (fields entered_bad_time) = []
  ∧ slug (fields (event_pre_save asciiLower asciiUpper no_parse
                    entered_bad_time).1) = str "react-summit-2025".
Proof. repeat split; by vm_compute. Qed.





(** C8. A Booking is made with its email lowercased and trimmed.  It
    passes validation exactly when it has an eventId and its email is
    local@domain.tld: three parts that are not empty and hold neither
    white space nor [@], with [@] after the first and [.] after the
    second.  A save fails with FieldValidationError exactly when that does
    not hold. *)
Theorem booking_validation (unicodeLower : jsstring → jsstring) :
  (∀ id data,
     email (fields (new_booking unicodeLower id data))
     = trim (toLowerCase unicodeLower (email data))
     ∧ eventId (fields (new_booking unicodeLower id data)) = eventId data)
  ∧ (∀ b, validate_booking b = None
          ↔ is_Some (eventId b) ∧ email_shape (email b))
  ∧ (∀ doc db,
       (∃ log p db',
          save_booking doc db = (log, Throw (FieldValidationError p), db'))
       ↔ ¬ (is_Some (eventId (fields doc)) ∧ email_shape (email (fields doc)))).
Proof.
  assert (Hv : ∀ b, validate_booking b = None
                    ↔ is_Some (eventId b) ∧ email_shape (email b)).
  { intros b. unfold validate_booking. cbn [first_error].
    rewrite <- test_email. case_bool_decide as Hid.
    - destruct (required (email b)) eqn:Hr.
      + destruct (test emailRegex (email b)); naive_solver.
      + split; [done|]. intros [_ Ht]. unfold required in Hr.
        destruct (email b); [by vm_compute in Ht|done].
    - split; [done|]. by intros [? _]. }
  split; [done|]. split; [done|]. intros doc db. rewrite <- Hv.
  unfold save_booking. destruct (validate_booking (fields doc)) as [p|].
  - split; [done|]. intros _. by exists [], p, db.
  - split; [|done]. intros (log & p & db' & H).
    rewrite booking_pre_save_unfold in H.
    destruct (isNew doc || isModified P_eventId doc).
    + exfalso. destruct (find_event _ _); cbn in H; [|done].
      unfold write_booking in H.
      destruct (isNew doc), (bookings db !! _id doc); simplify_eq.
    + exfalso. cbn in H. unfold write_booking in H.
      destruct (isNew doc), (bookings db !! _id doc); simplify_eq.
Qed.

(** * More properties of the code *)

(** X1. The word characters of a slug are the word characters of the
    lowercased title, all of them and in their order; the slug is empty
    exactly when the lowercased title has no word character. *)
Theorem generateSlug_word_characters (unicodeLower : jsstring → jsstring) title :
  List.filter is_word (generateSlug unicodeLower title)
  = List.filter is_word (toLowerCase unicodeLower title)
  ∧ (generateSlug unicodeLower title = []
     ↔ List.filter is_word (toLowerCase unicodeLower title) = []).
Proof.
  rewrite generateSlug_slug_spec. split.
  - apply filter_word_slug_spec.
  - apply slug_spec_empty.
Qed.

(** X2. A slug is never longer than the lowercased title, and never
    longer than the title when the title is in ASCII. *)
Theorem generateSlug_length (unicodeLower : jsstring → jsstring) title :
  (length (generateSlug unicodeLower title)
   ≤ length (toLowerCase unicodeLower title))%nat
  ∧ (forallb is_ascii title = true →
     (length (generateSlug unicodeLower title) ≤ length title)%nat).
Proof.
  rewrite generateSlug_slug_spec. split; [apply slug_spec_length|].
  intros Ha. etrans; [apply slug_spec_length|].
  unfold toLowerCase. by rewrite Ha, length_map.
Qed.

(** X3. For an entry that is, trimmed and uppercased, a 24-hour time or a
    12-hour time with an hour in 1..12 and a minute in 00..59,
    normalizeTime gives a time that normalizeTime gives back as it is.
    ([unicodeUpper] never gives an ASCII small letter.) *)
Theorem normalizeTime_stable (unicodeUpper : jsstring → jsstring) timeStr :
  (∀ t d, d ∈ unicodeUpper t → is_lower d = false) →
  is_24h (toUpperCase unicodeUpper (trim timeStr))
  || clock_12h (toUpperCase unicodeUpper (trim timeStr)) = true →
  ∃ t, normalizeTime unicodeUpper timeStr = Ok t
       ∧ normalizeTime unicodeUpper t = Ok t.
Proof.
  intros HU Hv. rewrite normalizeTime_spec_eq by done.
  unfold normalizeTime_spec.
  set (c := toUpperCase unicodeUpper (trim timeStr)) in *.
  assert (He : ∃ t, time_spec c = Ok t).
  { unfold time_spec. destruct (is_24h c); [by eexists|].
    cbn [orb] in Hv. unfold clock_12h in Hv.
    destruct (split_12h c) as [[[h m] p]|]; [by eexists|done]. }
  destruct He as [t Ht]. exists t. split; [done|].
  apply is_24h_fixed. by destruct (time_spec_canonical c t Ht Hv).
Qed.

(** " 2:30 pm " gives "14:30", and "14:30" gives "14:30". *)
Lemma normalizeTime_stable_witness :
  ∃ t, normalizeTime asciiUpper (str " 2:30 pm ") = Ok t
       ∧ normalizeTime asciiUpper t = Ok t.
Proof.
  apply (normalizeTime_stable asciiUpper (str " 2:30 pm ") asciiUpper_not_lower).
  by vm_compute.
Defined.

(** X4. A time that normalizeTime returns is an hour of one to three
    digits, a colon and a minute of two digits: no AM or PM and no white
    space is left in it.  ([unicodeUpper] never gives an ASCII small
    letter.) *)
Theorem normalizeTime_shape (unicodeUpper : jsstring → jsstring) timeStr t :
  (∀ s d, d ∈ unicodeUpper s → is_lower d = false) →
  normalizeTime unicodeUpper timeStr = Ok t →
  ∃ h m, t = h ++ str ":" ++ m ∧ all_digits h = true
         ∧ (1 ≤ length h ≤ 3)%nat ∧ minute_digits m = true.
Proof.
  intros HU. rewrite normalizeTime_spec_eq by done. apply time_spec_shape.
Qed.

(** "99:30 pm" gives "111:30". *)
Lemma normalizeTime_shape_witness :
  ∃ h m, str "111:30" = h ++ str ":" ++ m ∧ all_digits h = true
         ∧ (1 ≤ length h ≤ 3)%nat ∧ minute_digits m = true.
Proof.
  apply (normalizeTime_shape asciiUpper (str "99:30 pm") (str "111:30")
           asciiUpper_not_lower).
  by vm_compute.
Defined.

(** X5. What normalizeDate returns, normalizeDate returns for it again:
    a date that was normalized stays as it is when it is normalized once
    more, on every platform. *)
Theorem normalizeDate_idempotent (implParse : jsstring → option Z) s d :
  normalizeDate implParse s = Ok d → normalizeDate implParse d = Ok d.
Proof.
  intros H.
  destruct (normalizeDate_ok _ _ _ H) as (t & y & m & dd & Hn & Hc & -> & Hn2).
  unfold normalizeDate. cbn zeta. rewrite Hn2. f_equal.
  pose proof (Date_new_range _ _ _ Hn) as Ht.
  destruct (civil_spec t Ht) as (y' & m' & d' & Hc' & Hy & Hm & Hd & _).
  pose proof (DaysInMonth_le y' m' Hm) as Hdm.
  rewrite Hc in Hc'. injection Hc' as <- <- <-.
  apply toISOString_date; [|lia|lia|lia]. by rewrite civil_Day.
Qed.

(** An entry that the platform reads as the evening of 12 June 2025, UTC:
    "2025-06-12" is returned, and returned again for "2025-06-12". *)
Lemma normalizeDate_idempotent_witness :
  normalizeDate (λ _, Some 1749765600000%Z) (str "2025-06-12")
  = Ok (str "2025-06-12").
Proof.
  apply (normalizeDate_idempotent (λ _, Some 1749765600000%Z)
           (str "June 13, 2025")).
  by vm_compute.
Defined.

(** X6. normalizeDate returns the date of the UTC day of the time value
    that the entry was read as: a date of the calendar, printed as
    YYYY-MM-DD when its year is within 0..9999 and with a year of a sign
    and six digits otherwise. *)
Theorem normalizeDate_calendar_date (implParse : jsstring → option Z) s ds :
  normalizeDate implParse s = Ok ds →
  ∃ t y m d,
    Date_new implParse s = Some t ∧ civil t = (y, m, d)
    ∧ (1 ≤ m ≤ 12)%Z ∧ (1 ≤ d ≤ DaysInMonth y m)%Z
    ∧ MakeDay y m d = Day t
    ∧ ds = date_string y m d
    ∧ canonical_date ds = (0 <=? y)%Z && (y <=? 9999)%Z.
Proof.
  intros H.
  destruct (normalizeDate_ok _ _ _ H) as (t & y & m & d & Hn & Hc & -> & _).
  pose proof (Date_new_range _ _ _ Hn) as Ht.
  destruct (civil_spec t Ht) as (y' & m' & d' & Hc' & Hy & Hm & Hd & Hday).
  rewrite Hc in Hc'. injection Hc' as <- <- <-.
  pose proof (DaysInMonth_le y m Hm) as Hdm.
  exists t, y, m, d. repeat (split; [done|]).
  apply date_string_canonical; lia.
Qed.

(** An entry that the platform reads as noon of 1 March 2024, UTC. *)
Lemma normalizeDate_calendar_date_witness :
  ∃ t y m d,
    Date_new (λ _, Some 1709294400000%Z) (str "March 1, 2024 12:00") = Some t
    ∧ civil t = (y, m, d)
    ∧ (1 ≤ m ≤ 12)%Z ∧ (1 ≤ d ≤ DaysInMonth y m)%Z
    ∧ MakeDay y m d = Day t
    ∧ str "2024-03-01" = date_string y m d
    ∧ canonical_date (str "2024-03-01") = (0 <=? y)%Z && (y <=? 9999)%Z.
Proof.
  apply (normalizeDate_calendar_date (λ _, Some 1709294400000%Z)
           (str "March 1, 2024 12:00")).
  by vm_compute.
Defined.

(** X7. A new Event is saved exactly when it passes the validation of the
    schema, normalizeDate accepts its date, normalizeTime accepts its
    time, its [_id] is free and no event of the collection has the slug
    of its title.  ([unicodeLower] never gives an ASCII capital.) *)
Theorem create_event_succeeds_iff
    (unicodeLower unicodeUpper : jsstring → jsstring)
    (implParse : jsstring → option Z) id data db :
  (∀ t c, c ∈ unicodeLower t → is_upper c = false) →
  (∃ d db', save_event unicodeLower unicodeUpper implParse
                       (new_event unicodeLower id data) db = (Ok d, db'))
  ↔ validate_event (cast_event unicodeLower data) = None
    ∧ (∃ d, normalizeDate implParse (date data) = Ok d)
    ∧ (∃ t, normalizeTime unicodeUpper (time data) = Ok t)
    ∧ events db !! id = None
    ∧ (∀ j e, events db !! j = Some e →
              slug e ≠ generateSlug unicodeLower (trim (title data))).
Proof. intros HU. by apply save_new_event_iff. Qed.

(** "DevOps World Summit" is saved in the sample store. *)
Lemma create_event_succeeds_iff_witness :
  validate_event (cast_event asciiLower third_data) = None
  ∧ (∃ d, normalizeDate no_parse (date third_data) = Ok d)
  ∧ (∃ t, normalizeTime asciiUpper (time third_data) = Ok t)
  ∧ events sample_store !! 1 = None
  ∧ (∀ j e, events sample_store !! j = Some e →
            slug e ≠ generateSlug asciiLower (trim (title third_data))).
Proof.
  apply (create_event_succeeds_iff asciiLower asciiUpper no_parse 1 third_data
           sample_store asciiLower_not_upper).
  eexists _, _. by vm_compute.
Defined.

(** X8. A new Event is stored with the slug of its title: the slug is
    generateSlug of the trimmed title, whatever slug the caller gave.
    ([unicodeLower] never gives an ASCII capital.) *)
Theorem new_event_slug_from_title
    (unicodeLower unicodeUpper : jsstring → jsstring)
    (implParse : jsstring → option Z) id data db d db' :
  (∀ t c, c ∈ unicodeLower t → is_upper c = false) →
  save_event unicodeLower unicodeUpper implParse
             (new_event unicodeLower id data) db = (Ok d, db') →
  events db' !! id = Some (fields d)
  ∧ title (fields d) = trim (title data)
  ∧ slug (fields d) = generateSlug unicodeLower (trim (title data)).
Proof.
  intros HU Hs.
  destruct (save_new_event _ _ _ HU _ _ _ _ _ Hs)
    as (doc' & _ & -> & _ & _ & -> & Hslug & Ht).
  cbn [saved fields events]. split; [by rewrite lookup_insert_eq|done].
Qed.

(** A new Event given with the slug "my-own-slug": the slug of the title
    is stored. *)
Lemma new_event_slug_from_title_witness :
  events (sample_save (new_event asciiLower 1 own_slug_data) empty_store).2 !! 1
  = Some (fields (created (new_event asciiLower 1 own_slug_data) empty_store))
  ∧ title (fields (created (new_event asciiLower 1 own_slug_data) empty_store))
    = trim (title own_slug_data)
  ∧ slug (fields (created (new_event asciiLower 1 own_slug_data) empty_store))
    = generateSlug asciiLower (trim (title own_slug_data)).
Proof.
  refine (new_event_slug_from_title asciiLower asciiUpper no_parse 1
            own_slug_data empty_store _ _ asciiLower_not_upper _).
  by vm_compute.
Defined.

(** X9. Two new Events whose titles give the same slug: once the first is
    saved, a save of the second never succeeds and leaves the store as it
    is; when the second passes validation and the hook, and its [_id] is
    free, the error is DuplicateSlugError.  ([unicodeLower] never gives an
    ASCII capital.) *)
Theorem duplicate_slug_rejected
    (unicodeLower unicodeUpper : jsstring → jsstring)
    (implParse : jsstring → option Z) id1 id2 data1 data2 db d1 db1 :
  (∀ t c, c ∈ unicodeLower t → is_upper c = false) →
  save_event unicodeLower unicodeUpper implParse
             (new_event unicodeLower id1 data1) db = (Ok d1, db1) →
  id2 ≠ id1 →
  generateSlug unicodeLower (trim (title data2))
  = generateSlug unicodeLower (trim (title data1)) →
  (∀ d2 db2,
     save_event unicodeLower unicodeUpper implParse
                (new_event unicodeLower id2 data2) db1 ≠ (Ok d2, db2))
  ∧ (save_event unicodeLower unicodeUpper implParse
                (new_event unicodeLower id2 data2) db1).2 = db1
  ∧ (validate_event (cast_event unicodeLower data2) = None →
     (event_pre_save unicodeLower unicodeUpper implParse
                     (new_event unicodeLower id2 data2)).2 = None →
     events db1 !! id2 = None →
     (save_event unicodeLower unicodeUpper implParse
                 (new_event unicodeLower id2 data2) db1).1
     = Throw DuplicateSlugError).
Proof.
  intros HU Hs1 Hne Hslug.
  destruct (save_new_event _ _ _ HU _ _ _ _ _ Hs1)
    as (doc1 & _ & -> & _ & _ & -> & Hslug1 & _).
  set (db1 := {| events := <[id1 := fields doc1]> (events db);
                 bookings := bookings db |}) in *.
  assert (Hno : ∀ d2 db2,
            save_event unicodeLower unicodeUpper implParse
                       (new_event unicodeLower id2 data2) db1 ≠ (Ok d2, db2)).
  { intros d2 db2 Hs2.
    destruct (save_new_event _ _ _ HU _ _ _ _ _ Hs2)
      as (doc2 & _ & _ & _ & Hf & _ & Hslug2 & _).
    rewrite slug_free_spec in Hf.
    destruct (Hf id1 (fields doc1)) as [|Hd]; [by apply lookup_insert_eq|done|].
    apply Hd. congruence. }
  split; [done|]. split.
  - destruct (save_event _ _ _ _ db1) as [[d2|e] db2] eqn:Hs2.
    + by destruct (Hno d2 db2).
    + cbn. by eapply save_event_throw.
  - intros Hv Hp Hfree.
    destruct (save_event _ _ _ _ db1) as [[d2|e] db2] eqn:Hs2.
    { by destruct (Hno d2 db2). }
    cbn. f_equal. revert Hs2. unfold save_event.
    change (fields (new_event unicodeLower id2 data2))
      with (cast_event unicodeLower data2).
    rewrite Hv.
    destruct (event_pre_save _ _ _ _) as [doc2 [e2|]] eqn:Hp2; [done|].
    destruct (event_pre_save_title _ _ _ HU
                (new_event unicodeLower id2 data2) doc2 eq_refl Hp2)
      as (_ & _ & Hid & Hnew).
    cbn in Hid, Hnew. unfold write_event. rewrite Hnew, Hid, Hfree.
    destruct (slug_free _ _ _); [done|]. by intros [= <- _].
Qed.

(** "React Summit 2025" is saved; " react  summit -- 2025! " is then
    refused. *)
Lemma duplicate_slug_rejected_witness :
  (sample_save (new_event asciiLower 2 second_data)
     (sample_save (new_event asciiLower 1 first_data) empty_store).2).1
  = Throw DuplicateSlugError.
Proof.
  refine (proj2 (proj2 (duplicate_slug_rejected asciiLower asciiUpper no_parse
            1 2 first_data second_data empty_store
            (created (new_event asciiLower 1 first_data) empty_store)
            (sample_save (new_event asciiLower 1 first_data) empty_store).2
            asciiLower_not_upper _ _ _)) _ _ _); by vm_compute.
Defined.

(** X10. The unique index on slug is kept by every save of an Event: when
    no two events of the collection share a slug, no two do after the
    save, whether it succeeds or fails. *)
Theorem save_event_unique_slugs
    (unicodeLower unicodeUpper : jsstring → jsstring)
    (implParse : jsstring → option Z) doc db :
  unique_slugs db = true →
  unique_slugs (save_event unicodeLower unicodeUpper implParse doc db).2 = true.
Proof. apply save_event_unique. Qed.

(** With the sample store, where "React Summit 2025" is, after the save of
    "DevOps World Summit". *)
Lemma save_event_unique_slugs_witness :
  unique_slugs (sample_save (new_event asciiLower 1 third_data) sample_store).2
  = true.
Proof.
  apply (save_event_unique_slugs asciiLower asciiUpper no_parse). by vm_compute.
Defined.

(** X11. An update of an Event of the collection.  When the title is
    assigned: the stored title is the trimmed value; when that differs
    from the title that was stored the stored slug is generateSlug of it,
    and when it does not the event stays as it was; the date and the time
    stay as they were.  When the slug is assigned: the stored slug is the
    value trimmed and lowercased and the title stays, so that the slug is
    no longer the slug of the title.  ([unicodeLower] never gives an ASCII
    capital.) *)
Theorem update_slug_policy
    (unicodeLower unicodeUpper : jsstring → jsstring)
    (implParse : jsstring → option Z) db id e v :
  (∀ t c, c ∈ unicodeLower t → is_upper c = false) →
  events db !! id = Some e →
  (∀ d db',
     save_event unicodeLower unicodeUpper implParse
                (assign_title v (hydrate id e)) db = (Ok d, db') →
     ∃ e', events db' !! id = Some e' ∧ title e' = trim v
           ∧ (trim v ≠ title e →
              slug e' = generateSlug unicodeLower (trim v))
           ∧ (trim v = title e → e' = e)
           ∧ date e' = date e ∧ time e' = time e)
  ∧ (∀ d db',
       save_event unicodeLower unicodeUpper implParse
                  (assign_slug unicodeLower v (hydrate id e)) db = (Ok d, db') →
       ∃ e', events db' !! id = Some e'
             ∧ slug e' = toLowerCase unicodeLower (trim v)
             ∧ title e' = title e).
Proof.
  intros HU He. split; intros d db' Hs.
  - by eapply save_title_update.
  - by eapply save_slug_update.
Qed.

(** The event of the sample store gets the title " React Summit 2026 ". *)
Lemma update_slug_policy_witness :
  ∃ e', events (sample_save
                  (assign_title (str " React Summit 2026 ")
                     (hydrate 7 (with_slug (str "react-summit-2025")
                                   (sample_event "2025-06-13" "09:00"))))
                  sample_store).2 !! 7 = Some e'
        ∧ title e' = trim (str " React Summit 2026 ")
        ∧ (trim (str " React Summit 2026 ") ≠ str "React Summit 2025" →
           slug e' = generateSlug asciiLower (trim (str " React Summit 2026 ")))
        ∧ (trim (str " React Summit 2026 ") = str "React Summit 2025" →
           e' = with_slug (str "react-summit-2025")
                  (sample_event "2025-06-13" "09:00"))
        ∧ date e' = str "2025-06-13" ∧ time e' = str "09:00".
Proof.
  refine (proj1 (update_slug_policy asciiLower asciiUpper no_parse
            sample_store 7 _ (str " React Summit 2026 ")
            asciiLower_not_upper eq_refl)
            (created (assign_title (str " React Summit 2026 ")
                        (hydrate 7 (with_slug (str "react-summit-2025")
                                      (sample_event "2025-06-13" "09:00"))))
                     sample_store) _ _).
  by vm_compute.
Defined.

(** X12. An update of the description of an Event of a collection with
    unique slugs succeeds whenever the event with the new description
    passes the validation of the schema, and stores the event with the
    trimmed description: the unique index does not hold the slug of the
    event against the event itself. *)
Theorem description_update_succeeds
    (unicodeLower unicodeUpper : jsstring → jsstring)
    (implParse : jsstring → option Z) db id e v :
  unique_slugs db = true → events db !! id = Some e →
  validate_event (with_description (trim v) e) = None →
  ∃ d db',
    save_event unicodeLower unicodeUpper implParse
               (assign_description v (hydrate id e)) db = (Ok d, db')
    ∧ events db' !! id = Some (with_description (trim v) e).
Proof. apply save_description_ok. Qed.

(** The event of the sample store gets a new description. *)
Lemma description_update_succeeds_witness :
  ∃ d db',
    sample_save
      (assign_description (str "  A new description of the summit ")
         (hydrate 7 (with_slug (str "react-summit-2025")
                       (sample_event "2025-06-13" "09:00"))))
      sample_store = (Ok d, db')
    ∧ events db' !! 7
      = Some (with_description (trim (str "  A new description of the summit "))
                (with_slug (str "react-summit-2025")
                   (sample_event "2025-06-13" "09:00"))).
Proof.
  apply (description_update_succeeds asciiLower asciiUpper no_parse
           sample_store 7); by vm_compute.
Defined.

(** X13. When every event and every booking of the store satisfies the
    constraints of its schema, the same holds after any save of an Event
    and after any save of a Booking: what the hook writes for the date
    and the time is never empty, and an update takes each path from a
    valid document. *)
Theorem saves_keep_schema
    (unicodeLower unicodeUpper : jsstring → jsstring)
    (implParse : jsstring → option Z) db :
  events_valid db = true → bookings_valid db = true →
  (∀ doc,
     events_valid (save_event unicodeLower unicodeUpper implParse doc db).2
     = true
     ∧ bookings_valid (save_event unicodeLower unicodeUpper implParse doc db).2
       = true)
  ∧ (∀ doc, events_valid (save_booking doc db).2 = true
            ∧ bookings_valid (save_booking doc db).2 = true).
Proof.
  intros He Hb. split; intros doc; split.
  - by apply save_event_valid.
  - unfold bookings_valid. by rewrite save_event_bookings.
  - unfold events_valid. by rewrite save_booking_events.
  - by apply save_booking_valid.
Qed.

(** The store with one event and one booking, after a new Event. *)
Lemma saves_keep_schema_witness :
  events_valid (sample_save (new_event asciiLower 1 third_data) booked_store).2
  = true
  ∧ bookings_valid
      (sample_save (new_event asciiLower 1 third_data) booked_store).2 = true.
Proof.
  refine (proj1 (saves_keep_schema asciiLower asciiUpper no_parse booked_store
                   _ _) (new_event asciiLower 1 third_data)); by vm_compute.
Defined.

(** X14. A new Booking is saved exactly when it has the eventId of an
    event of the collection, its email, lowercased and trimmed, is
    local@domain.tld, and its [_id] is free. *)
Theorem create_booking_succeeds_iff
    (unicodeLower : jsstring → jsstring) id data db :
  (∃ log d db',
     save_booking (new_booking unicodeLower id data) db = (log, Ok d, db'))
  ↔ (∃ i ev, eventId data = Some i ∧ events db !! i = Some ev)
    ∧ email_shape (trim (toLowerCase unicodeLower (email data)))
    ∧ bookings db !! id = None.
Proof. apply save_new_booking_iff. Qed.

(** X15. When every booking of the store refers to an event of the store,
    the same holds after any save of a Booking and after any save of an
    Event, whether the save succeeds or fails. *)
Theorem saves_keep_references
    (unicodeLower unicodeUpper : jsstring → jsstring)
    (implParse : jsstring → option Z) db :
  bookings_refer db = true →
  (∀ doc, bookings_refer (save_booking doc db).2 = true)
  ∧ (∀ doc, bookings_refer
              (save_event unicodeLower unicodeUpper implParse doc db).2 = true).
Proof.
  intros Hr. split; intros doc.
  - by apply save_booking_refer.
  - by apply save_event_refer.
Qed.

(** The store with one booking, after a new Booking for the same event. *)
Lemma saves_keep_references_witness :
  bookings_refer
    (save_booking (new_booking asciiLower 4
                     (sample_booking (Some 7) "Grace@Example.com"))
                  booked_store).2 = true.
Proof.
  refine (proj1 (saves_keep_references asciiLower asciiUpper no_parse
                   booked_store _) _).
  by vm_compute.
Defined.

(** X16. Nothing refuses a second booking of the same event with the same
    email: after a new Booking is saved, a new Booking with the same data
    and a free [_id] is saved too, and the collection holds both. *)
Theorem duplicate_booking_accepted
    (unicodeLower : jsstring → jsstring) id1 id2 data db log d1 db1 :
  save_booking (new_booking unicodeLower id1 data) db = (log, Ok d1, db1) →
  bookings db1 !! id2 = None →
  ∃ d2 db2,
    save_booking (new_booking unicodeLower id2 data) db1 = (log, Ok d2, db2)
    ∧ id1 ≠ id2
    ∧ bookings db2 !! id1 = Some (fields d1)
    ∧ bookings db2 !! id2 = Some (fields d1)
    ∧ size (bookings db2) = S (S (size (bookings db))).
Proof.
  rewrite save_booking_ok. intros (Hv & Hp & Hw & ->) H2.
  rewrite booking_pre_save_unfold in Hp. cbn [isNew new_booking orb] in Hp.
  injection Hp as <- Hev.
  revert Hw. unfold write_booking. cbn [isNew _id new_booking].
  destruct (bookings db !! id1) eqn:H1; [by intros [=]|]. intros [= <-].
  cbn [bookings] in H2.
  assert (Hne : id1 ≠ id2).
  { intros ->. by rewrite lookup_insert_eq in H2. }
  eexists _, _. split.
  { apply save_booking_ok. split; [done|]. split; [|split; [|done]].
    - rewrite booking_pre_save_unfold. cbn [isNew new_booking orb].
      cbn [fields new_booking eventId].
      unfold find_event in *. cbn [events]. by rewrite Hev.
    - unfold write_booking. cbn [isNew _id new_booking bookings].
      by rewrite H2. }
  split; [done|]. cbn [bookings saved fields new_booking].
  rewrite lookup_insert_ne, !lookup_insert_eq by done.
  repeat split. rewrite !map_size_insert_None; [done|done|].
  exact H2.
Qed.

(** Two bookings of the sample event with the email "ada@example.com". *)
Lemma duplicate_booking_accepted_witness :
  ∃ d2 db2,
    save_booking (new_booking asciiLower 5
                    (sample_booking (Some 7) "ada@example.com"))
      (save_booking (new_booking asciiLower 4
                       (sample_booking (Some 7) "ada@example.com"))
                    sample_store).2
    = ([FindEventById (Some 7)], Ok d2, db2)
    ∧ 4 ≠ 5
    ∧ bookings db2 !! 4 = Some (sample_booking (Some 7) "ada@example.com")
    ∧ bookings db2 !! 5 = Some (sample_booking (Some 7) "ada@example.com")
    ∧ size (bookings db2) = 2%nat.
Proof.
  refine (duplicate_booking_accepted asciiLower 4 5
            (sample_booking (Some 7) "ada@example.com") sample_store
            [FindEventById (Some 7)]
            (saved (new_booking asciiLower 4
                      (sample_booking (Some 7) "ada@example.com")))
            (save_booking (new_booking asciiLower 4
                             (sample_booking (Some 7) "ada@example.com"))
                          sample_store).2 _ _); by vm_compute.
Defined.

(** X17. A save touches one document at most: a save of an Event leaves
    the bookings and every event with another [_id] as they are, and a
    save of a Booking leaves the events and every booking with another
    [_id] as they are. *)
Theorem save_touches_one_document
    (unicodeLower unicodeUpper : jsstring → jsstring)
    (implParse : jsstring → option Z) db :
  (∀ doc,
     bookings (save_event unicodeLower unicodeUpper implParse doc db).2
     = bookings db
     ∧ ∀ j, j ≠ _id doc →
            events (save_event unicodeLower unicodeUpper implParse doc db).2 !! j
            = events db !! j)
  ∧ (∀ doc,
       events (save_booking doc db).2 = events db
       ∧ ∀ j, j ≠ _id doc →
              bookings (save_booking doc db).2 !! j = bookings db !! j).
Proof.
  split; intros doc; split.
  - apply save_event_bookings.
  - intros j. apply save_event_others.
  - apply save_booking_events.
  - intros j. apply save_booking_others.
Qed.



(** X19. The route takes no notice of the ASCII case of the slug of the
    request nor of white space around it: two requests whose slugs in
    ASCII are the same once trimmed and lowercased get the same response,
    in every state of the connection and of the collection. *)
Theorem GET_ignores_case_and_space (unicodeLower : jsstring → jsstring)
    env driver query p1 p2 w db :
  forallb is_ascii p1 = true → forallb is_ascii p2 = true →
  map lower_ascii (trim p1) = map lower_ascii (trim p2) →
  GET unicodeLower env driver query p1 w db
  = GET unicodeLower env driver query p2 w db.
Proof. apply GET_same. Qed.

(** " React-Summit-2025" and "react-summit-2025 ". *)
Lemma GET_ignores_case_and_space_witness :
  GET asciiLower (Some (str "mongodb://localhost/events")) (Returns 1) None
      (str " React-Summit-2025") idle sample_store
  = GET asciiLower (Some (str "mongodb://localhost/events")) (Returns 1) None
        (str "react-summit-2025 ") idle sample_store.
Proof. apply (GET_ignores_case_and_space asciiLower); by vm_compute. Defined.

(** X20. A new Event that was saved is what the route serves for its slug:
    status 200 with the event as it is stored, when the slugs of the
    collection were unique before.  An event whose slug is empty is
    stored but never served: the route answers 400.  ([unicodeLower]
    never gives an ASCII capital.) *)
Theorem saved_event_is_served
    (unicodeLower unicodeUpper : jsstring → jsstring)
    (implParse : jsstring → option Z) id data db d db' env driver w c w' :
  (∀ t x, x ∈ unicodeLower t → is_upper x = false) →
  unique_slugs db = true →
  save_event unicodeLower unicodeUpper implParse
             (new_event unicodeLower id data) db = (Ok d, db') →
  connectToDatabase env driver w = (Returns c, w') →
  (GET unicodeLower env driver None (slug (fields d)) w db').2
  = if bool_decide (slug (fields d) = []) then
      {| status := 400; body_message := str "Invalid slug parameter";
         body_error := Some (str "Slug must be a non-empty string");
         body_event := None |}
    else
      {| status := 200; body_message := str "Event retrieved successfully";
         body_error := None; body_event := Some (id, fields d) |}.
Proof.
  intros HU Hu Hs Hc.
  pose proof (save_event_unique unicodeLower unicodeUpper implParse
                (new_event unicodeLower id data) db Hu) as Hu'.
  rewrite Hs in Hu'. cbn [snd] in Hu'.
  destruct (save_new_event _ _ _ HU _ _ _ _ _ Hs)
    as (doc' & _ & -> & _ & _ & -> & Hslug & _).
  rewrite (GET_answered _ _ _ _ _ _ _ _ Hc). cbn [snd saved fields].
  assert (Hchars : forallb slug_char (slug (fields doc')) = true).
  { rewrite Hslug, generateSlug_slug_spec. by apply slug_spec_chars. }
  rewrite (trim_slug _ Hchars), (toLowerCase_slug _ _ Hchars).
  case_bool_decide as Hb; [done|].
  rewrite (findOne_unique _ _ _ id (fields doc')); [done|done| |].
  - cbn [events]. by rewrite lookup_insert_eq.
  - unfold cast_slug, set_lowercase, set_trim.
    by rewrite (trim_slug _ Hchars), (toLowerCase_slug _ _ Hchars).
Qed.

(** "DevOps World Summit" is saved in the sample store and served under
    "devops-world-summit". *)
Lemma saved_event_is_served_witness :
  (GET asciiLower (Some (str "mongodb://localhost/events")) (Returns 1) None
       (slug (fields (created (new_event asciiLower 1 third_data)
                              sample_store)))
       idle
       (sample_save (new_event asciiLower 1 third_data) sample_store).2).2
  = {| status := 200; body_message := str "Event retrieved successfully";
       body_error := None;
       body_event :=
         Some (1, fields (created (new_event asciiLower 1 third_data)
                                  sample_store)) |}.
Proof.
  refine (saved_event_is_served asciiLower asciiUpper no_parse 1 third_data
            sample_store _ _ (Some (str "mongodb://localhost/events"))
            (Returns 1) idle (Some 1) _ asciiLower_not_upper _ _ _);
    by vm_compute.
Defined.

(** X21. Without MONGODB_URI and with nothing in the cache, every request
    is answered 500 "Database configuration error", whatever its slug (a
    blank one too: the connection comes before the check of the slug);
    nothing is looked up and the cache stays as it is. *)
Theorem GET_without_uri (unicodeLower : jsstring → jsstring)
    driver query param w db :
  conn (cached w) = None → promise (cached w) = None →
  GET unicodeLower None driver query param w db
  = (w, [uri_error],
     {| status := 500; body_message := str "Database configuration error";
        body_error := Some (str "Unable to connect to database");
        body_event := None |}).
Proof.
  intros Hc Hp. unfold GET, connectToDatabase, connect_start.
  by rewrite Hc, Hp.
Qed.

(** A request with a blank slug, an idle cache and no MONGODB_URI. *)
Lemma GET_without_uri_witness :
  GET asciiLower None (Returns 1) None (str "  ") idle sample_store
  = (idle, [uri_error],
     {| status := 500; body_message := str "Database configuration error";
        body_error := Some (str "Unable to connect to database");
        body_event := None |}).
Proof. by apply (GET_without_uri asciiLower). Defined.

(** X22. However calls of connectToDatabase, settlements of the driver and
    the ends of the calls interleave (disconnectFromDatabase apart), at
    most one connection attempt is pending at any time; the pending
    attempt is the promise of the cache; a call that arrives while an
    attempt is pending or a connection is cached does not call
    [mongoose.connect]; and a result of the driver stays the connection
    of the cache. *)
Theorem single_flight (es : list action) :
  (length (pending (world (run es))) ≤ 1)%nat
  ∧ (∀ p, p ∈ pending (world (run es)) →
          promise (cached (world (run es))) = Some p
          ∧ conn (cached (world (run es))) = None)
  ∧ (∀ uri, pending (world (run es)) ≠ []
            ∨ is_Some (conn (cached (world (run es)))) →
            attempts (connect_start uri (world (run es))).2
            = attempts (world (run es)))
  ∧ (∀ p uri m,
       attempts (world (run es)) !! p = Some (uri, Some (Returns m)) →
       conn (cached (world (run es))) = Some m).
Proof.
  destruct (cache_inv_run es) as (I1 & I2 & I3).
  set (w := world (run es)) in *.
  assert (Hp : ∀ p, p ∈ pending w →
                    promise (cached w) = Some p ∧ conn (cached w) = None).
  { intros p [uri Hp]%elem_of_pending. by eapply I1. }
  split; [|split; [done|split; [|done]]].
  - apply NoDup_same_length; [apply NoDup_pending|].
    intros p q [Hp1 _]%Hp [Hq1 _]%Hp. congruence.
  - intros uri Hbusy. unfold connect_start.
    destruct (conn (cached w)) as [c|] eqn:Hc; [done|].
    destruct Hbusy as [Hne|[? [=]]].
    destruct (pending w) as [|p tl] eqn:Hpw; [done|].
    destruct (Hp p) as [-> _]; [left|done].
Qed.

(** X23. With nothing in the cache and a MONGODB_URI that is not empty, a
    call that the driver fulfils returns the instance, and every later
    call returns the same instance without a call of the driver and
    without a look at MONGODB_URI; a call that the driver rejects throws
    the error of the driver and leaves the cache empty, so that the next
    call tries again. *)
Theorem connect_caches uri w :
  conn (cached w) = None → promise (cached w) = None → uri ≠ [] →
  (∀ m,
     (connectToDatabase (Some uri) (Returns m) w).1 = Returns (Some m)
     ∧ attempts (connectToDatabase (Some uri) (Returns m) w).2
       = attempts w ++ [(uri, Some (Returns m))]
     ∧ ∀ env driver,
         connectToDatabase env driver
           (connectToDatabase (Some uri) (Returns m) w).2
         = (Returns (Some m), (connectToDatabase (Some uri) (Returns m) w).2))
  ∧ (∀ e,
       (connectToDatabase (Some uri) (Throws e) w).1 = Throws e
       ∧ cached (connectToDatabase (Some uri) (Throws e) w).2 = cached w
       ∧ ∀ m, (connectToDatabase (Some uri) (Returns m)
                 (connectToDatabase (Some uri) (Throws e) w).2).1
              = Returns (Some m)).
Proof.
  intros Hc Hp Hu. split.
  - intros m. rewrite connect_fulfilled by done. cbn [fst snd attempts].
    split; [done|]. split; [done|]. intros env driver.
    by unfold connectToDatabase, connect_start.
  - intros e. rewrite connect_rejected by done. cbn [fst snd cached].
    split; [done|]. split; [by destruct (cached w); cbn in *; subst|].
    intros m. by rewrite connect_fulfilled.
Qed.

(** From the idle cache: a rejected attempt, then a fulfilled one. *)
Lemma connect_caches_witness :
  (connectToDatabase (Some (str "mongodb://localhost/events")) (Returns 1)
     (connectToDatabase (Some (str "mongodb://localhost/events"))
        (Throws NotAnError) idle).2).1
  = Returns (Some 1).
Proof.
  refine (proj2 (proj2 (proj2 (connect_caches
            (str "mongodb://localhost/events") idle _ _ _) NotAnError)) 1);
    done.
Defined.

(** X24. disconnectFromDatabase with a connection in the cache calls
    [disconnect()] on it once; when that succeeds the cache is empty and
    the next connectToDatabase calls the driver again; when it fails the
    connection stays in the cache.  Without a connection in the cache it
    does nothing, also while a connection attempt is pending. *)
Theorem disconnect_resets w :
  (∀ m, conn (cached w) = Some m →
        (disconnectFromDatabase (Returns tt) w).1 = Returns tt
        ∧ cached (disconnectFromDatabase (Returns tt) w).2
          = {| conn := None; promise := None |}
        ∧ disconnects (disconnectFromDatabase (Returns tt) w).2
          = disconnects w ++ [m]
        ∧ (∀ uri m', uri ≠ [] →
             attempts (connectToDatabase (Some uri) (Returns m')
                         (disconnectFromDatabase (Returns tt) w).2).2
             = attempts w ++ [(uri, Some (Returns m'))])
        ∧ (∀ e, (disconnectFromDatabase (Throws e) w).1 = Throws e
                ∧ cached (disconnectFromDatabase (Throws e) w).2 = cached w))
  ∧ (conn (cached w) = None →
     ∀ driver, disconnectFromDatabase driver w = (Returns tt, w)).
Proof.
  split.
  - intros m Hc. unfold disconnectFromDatabase. rewrite Hc. cbn.
    repeat split; try done.
    intros uri m' Hu. by rewrite connect_fulfilled.
  - intros Hc driver. unfold disconnectFromDatabase. by rewrite Hc.
Qed.

(** A connection is made from the idle cache and then closed. *)
Lemma disconnect_resets_witness :
  cached (disconnectFromDatabase (Returns tt)
            (connectToDatabase (Some (str "mongodb://localhost/events"))
                               (Returns 1) idle).2).2
  = {| conn := None; promise := None |}.
Proof.
  refine (proj1 (proj2 (proj1 (disconnect_resets
            (connectToDatabase (Some (str "mongodb://localhost/events"))
                               (Returns 1) idle).2) 1 _))).
  by vm_compute.
Defined.
